(** * import-path-converter: a shallow embedding of the resolution and
    rewrite engine.

    Strings are sequences of code units, modelled as [list ascii] (code
    units 0..255).  The JavaScript string and regular-expression primitives
    the sources call are written out first; arrays, [Map] objects and Node's
    POSIX [path] functions come before the module that first needs them.
    Each module of the repository stands under the name of its source
    file; the theorems follow the definitions. *)

From Stdlib Require Import Ascii String Bool Arith PeanoNat Lia List Sorted Permutation.
Import ListNotations.

Set Implicit Arguments.

(** ** JavaScript strings *)

Definition str := list ascii.

Definition js (s : string) : str := list_ascii_of_string s.

Definition code (c : ascii) : nat := nat_of_ascii c.

(** The double quote, U+0022 *)
Definition dquote : ascii := "034"%char.

Fixpoint str_eqb (a b : str) : bool :=
  match a, b with
  | [], [] => true
  | x :: a', y :: b' => Ascii.eqb x y && str_eqb a' b'
  | _, _ => false
  end.

(** [s.startsWith(p)] *)
Fixpoint startsWith (s p : str) {struct p} : bool :=
  match p with
  | [] => true
  | c :: p' =>
      match s with
      | d :: s' => Ascii.eqb c d && startsWith s' p'
      | [] => false
      end
  end.

(** [s.endsWith(p)] *)
Definition endsWith (s p : str) : bool :=
  (length p <=? length s) && str_eqb (skipn (length s - length p) s) p.

(** [s.indexOf(p)], with [None] for -1 *)
Fixpoint indexOf (s p : str) : option nat :=
  if startsWith s p then Some 0
  else match s with
       | [] => None
       | _ :: s' => option_map S (indexOf s' p)
       end.

(** [s.includes(p)] *)
Definition includes (s p : str) : bool :=
  match indexOf s p with Some _ => true | None => false end.

(** [s.lastIndexOf(p)] for a one-character [p] *)
Fixpoint lastIndexOfChar (s : str) (c : ascii) : option nat :=
  match s with
  | [] => None
  | d :: s' =>
      match lastIndexOfChar s' c with
      | Some i => Some (S i)
      | None => if Ascii.eqb d c then Some 0 else None
      end
  end.

(** [s.slice(a, b)] and [s.slice(a)] for non-negative indices *)
Definition slice (s : str) (a b : nat) : str := firstn (b - a) (skipn a s).

Definition sliceFrom (s : str) (a : nat) : str := skipn a s.

(** [s.slice(0, -1)] *)
Definition dropLast (s : str) : str := firstn (length s - 1) s.

(** White space and line terminators of ECMAScript among the code units
    0..255: TAB, LF, VT, FF, CR, SP and NBSP.  This is the set of [\s] and
    of [String.prototype.trim]. *)
Definition isSpace (c : ascii) : bool :=
  let n := code c in
  ((9 <=? n) && (n <=? 13)) || (n =? 32) || (n =? 160).

(** [\w] *)
Definition isWord (c : ascii) : bool :=
  let n := code c in
  ((48 <=? n) && (n <=? 57)) || ((65 <=? n) && (n <=? 90))
  || ((97 <=? n) && (n <=? 122)) || (n =? 95).

(** Line terminators, which [.] does not match *)
Definition isLineTerminator (c : ascii) : bool :=
  let n := code c in (n =? 10) || (n =? 13).

Fixpoint trimStart (s : str) : str :=
  match s with
  | c :: s' => if isSpace c then trimStart s' else s
  | [] => []
  end.

Definition trimEnd (s : str) : str := rev (trimStart (rev s)).

(** [s.trim()] *)
Definition trim (s : str) : str := trimEnd (trimStart s).

(** JavaScript truthiness of a string *)
Definition truthy (s : str) : bool :=
  match s with [] => false | _ => true end.

(** [GetSubstitution] of ECMAScript for a match without capture groups:
    [$$] is a dollar sign, [$&] the matched text, [$`] the text before the
    match and [$'] the text after it; any other [$] stands for itself. *)
Fixpoint getSubstitution (matched before after repl : str) : str :=
  match repl with
  | [] => []
  | c :: r =>
      if Ascii.eqb c "$" then
        match r with
        | d :: r' =>
            if Ascii.eqb d "$" then "$"%char :: getSubstitution matched before after r'
            else if Ascii.eqb d "&" then matched ++ getSubstitution matched before after r'
            else if Ascii.eqb d "`" then before ++ getSubstitution matched before after r'
            else if Ascii.eqb d "'" then after ++ getSubstitution matched before after r'
            else c :: getSubstitution matched before after r
        | [] => [c]
        end
      else c :: getSubstitution matched before after r
  end.

(** [s.replace(pat, repl)] with a string pattern: the first occurrence of
    [pat] is replaced by the expansion of [repl]. *)
Definition replaceString (s pat repl : str) : str :=
  match indexOf s pat with
  | None => s
  | Some i =>
      let before := firstn i s in
      let after := skipn (i + length pat) s in
      before ++ getSubstitution pat before after repl ++ after
  end.

(** ** JavaScript regular expressions

    The syntax tree covers what the sources use: literals, [.], character
    classes with [\s] and [\w], anchors ([EolM] is [$] under the [m]
    flag), sequence, alternation, greedy [*], [+] and [?], the lazy [*?],
    and capture groups.  [(?:...)] needs no node. *)

Inductive cset : Type :=
| CsChar (c : ascii)
| CsSpace
| CsNotSpace
| CsWord.

Inductive re : Type :=
| Empty
| Lit (c : ascii)
| Dot
| Set_ (neg : bool) (cs : list cset)
| Bol
| Eol
| EolM
| Seq (r1 r2 : re)
| Alt (r1 r2 : re)
| Star (r : re)
| StarLazy (r : re)
| Plus (r : re)
| Opt (r : re)
| Group (n : nat) (r : re).

(** [Canonicalize] under the [i] flag: the upper-case form when it is a
    single code unit; a code unit above 127 never folds to one below 128.
    Within 0..255, U+00B5 and U+00FF fold outside the range and so match
    only themselves. *)
Definition canonicalize (ic : bool) (c : ascii) : nat :=
  let n := code c in
  if ic then
    if (97 <=? n) && (n <=? 122) then n - 32
    else if (224 <=? n) && (n <=? 254) && negb (n =? 247) then n - 32
    else n
  else n.

Definition charEq (ic : bool) (a b : ascii) : bool :=
  canonicalize ic a =? canonicalize ic b.

Definition csetMem (ic : bool) (ch : ascii) (item : cset) : bool :=
  match item with
  | CsChar a => charEq ic a ch
  | CsSpace => isSpace ch
  | CsNotSpace => negb (isSpace ch)
  | CsWord => isWord ch
  end.

Definition setMatches (ic neg : bool) (cs : list cset) (ch : ascii) : bool :=
  xorb neg (existsb (csetMem ic ch) cs).

(** The matcher state: the index reached, the input still to read, and the
    capture groups closed so far (most recent first). *)
Record mstate : Type := MState {
  idx : nat;
  rest : str;
  caps : list (nat * (nat * nat))
}.

Definition cont : Type := mstate -> option mstate.

Definition advance (st : mstate) (t : str) : mstate :=
  MState (S (idx st)) t (caps st).

Definition setCap (n : nat) (a b : nat) (st : mstate) : mstate :=
  MState (idx st) (rest st) ((n, (a, b)) :: caps st).

(** [RepeatMatcher] with min 0: an iteration that consumes nothing is
    rejected.  Every accepted iteration consumes a code unit, so the number
    of code units left bounds the number of iterations. *)
Fixpoint starLoop (body : mstate -> cont -> option mstate) (fuel : nat)
  (st : mstate) (k : cont) : option mstate :=
  match fuel with
  | 0 => k st
  | S f =>
      match body st (fun st' =>
                       if idx st' =? idx st then None
                       else starLoop body f st' k) with
      | Some r => Some r
      | None => k st
      end
  end.

(** The lazy loop tries the continuation first. *)
Fixpoint lazyLoop (body : mstate -> cont -> option mstate) (fuel : nat)
  (st : mstate) (k : cont) : option mstate :=
  match fuel with
  | 0 => k st
  | S f =>
      match k st with
      | Some r => Some r
      | None =>
          body st (fun st' =>
                     if idx st' =? idx st then None
                     else lazyLoop body f st' k)
      end
  end.

(** The backtracking matcher, in continuation-passing style as in the
    ECMAScript specification: [matchRe ic r st k] matches [r] at [st] and
    then runs [k]; alternatives are tried left to right, quantifiers are
    greedy. *)
Fixpoint matchRe (ic : bool) (r : re) (st : mstate) (k : cont) : option mstate :=
  match r with
  | Empty => k st
  | Lit c =>
      match rest st with
      | a :: t => if charEq ic c a then k (advance st t) else None
      | [] => None
      end
  | Dot =>
      match rest st with
      | a :: t => if isLineTerminator a then None else k (advance st t)
      | [] => None
      end
  | Set_ neg cs =>
      match rest st with
      | a :: t => if setMatches ic neg cs a then k (advance st t) else None
      | [] => None
      end
  | Bol => if idx st =? 0 then k st else None
  | Eol => match rest st with [] => k st | _ :: _ => None end
  | EolM =>
      match rest st with
      | [] => k st
      | a :: _ => if isLineTerminator a then k st else None
      end
  | Seq r1 r2 => matchRe ic r1 st (fun st' => matchRe ic r2 st' k)
  | Alt r1 r2 =>
      match matchRe ic r1 st k with
      | Some x => Some x
      | None => matchRe ic r2 st k
      end
  | Star r1 => starLoop (matchRe ic r1) (length (rest st)) st k
  | StarLazy r1 => lazyLoop (matchRe ic r1) (length (rest st)) st k
  | Plus r1 =>
      matchRe ic r1 st (fun st' => starLoop (matchRe ic r1) (length (rest st')) st' k)
  | Opt r1 =>
      match matchRe ic r1 st (fun st' => if idx st' =? idx st then None else k st') with
      | Some x => Some x
      | None => k st
      end
  | Group n r1 => matchRe ic r1 st (fun st' => k (setCap n (idx st) (idx st') st'))
  end.

(** A compiled regular expression: its tree and its [i] flag. *)
Record RegExp : Type := MkRegExp {
  reTree : re;
  reIgnoreCase : bool
}.

(** One attempt at index [i], where [s] is the input from [i] on. *)
Definition matchAt (rx : RegExp) (i : nat) (s : str) : option mstate :=
  matchRe (reIgnoreCase rx) (reTree rx) (MState i s []) (fun st => Some st).

(** The result of [exec]: [match.index], the index after the match, and the
    captures. *)
Record execResult : Type := ExecResult {
  mIndex : nat;
  mEnd : nat;
  mCaps : list (nat * (nat * nat))
}.

(** The search of [RegExpBuiltinExec]: the first index from [i] on at which
    the expression matches; [s] is the input from [i] on.  The index one
    past the last code unit is tried too. *)
Fixpoint searchFrom (rx : RegExp) (i : nat) (s : str) : option execResult :=
  match matchAt rx i s with
  | Some st => Some (ExecResult i (idx st) (caps st))
  | None =>
      match s with
      | [] => None
      | _ :: s' => searchFrom rx (S i) s'
      end
  end.

(** [rx.exec(content)] with [rx.lastIndex = lastIndex] for a global
    expression; for one without the [g] flag [lastIndex] is 0. *)
Definition exec (rx : RegExp) (content : str) (lastIndex : nat) : option execResult :=
  if length content <? lastIndex then None
  else searchFrom rx lastIndex (skipn lastIndex content).

(** [rx.test(s)] for an expression without the [g] flag *)
Definition test (rx : RegExp) (s : str) : bool :=
  match exec rx s 0 with Some _ => true | None => false end.

Fixpoint lookupCap (n : nat) (cs : list (nat * (nat * nat))) : option (nat * nat) :=
  match cs with
  | [] => None
  | (m, se) :: cs' => if m =? n then Some se else lookupCap n cs'
  end.

(** [match[n]]; a group that did not take part gives [None] ([undefined]). *)
Definition capture (content : str) (r : execResult) (n : nat) : option str :=
  match lookupCap n (mCaps r) with
  | Some (a, b) => Some (slice content a b)
  | None => None
  end.

(** [match[0]] *)
Definition matched (content : str) (r : execResult) : str :=
  slice content (mIndex r) (mEnd r).

(** [while ((match = rx.exec(content)) !== null)] for a global expression:
    the list of matches in order.  [exec] leaves [lastIndex] at the end of
    the match, so a match that consumes nothing would be found again for
    ever; the loop is given [fuel] iterations. *)
Fixpoint execLoop (fuel : nat) (rx : RegExp) (content : str) (lastIndex : nat)
  : list execResult :=
  match fuel with
  | 0 => []
  | S f =>
      match exec rx content lastIndex with
      | None => []
      | Some r => r :: execLoop f rx content (mEnd r)
      end
  end.

(** [s.replace(rx, repl)]: without the [g] flag the first match is
    replaced; with it, every match, from left to right, an empty match
    moving the index on by one. *)
Definition replaceFirst (rx : RegExp) (s repl : str) : str :=
  match exec rx s 0 with
  | None => s
  | Some r =>
      let before := firstn (mIndex r) s in
      let after := skipn (mEnd r) s in
      before ++ getSubstitution (matched s r) before after repl ++ after
  end.

Fixpoint replaceAllFrom (fuel : nat) (rx : RegExp) (s repl : str)
  (lastIndex copied : nat) : str :=
  match fuel with
  | 0 => skipn copied s
  | S f =>
      match exec rx s lastIndex with
      | None => skipn copied s
      | Some r =>
          let before := firstn (mIndex r) s in
          let after := skipn (mEnd r) s in
          slice s copied (mIndex r)
          ++ getSubstitution (matched s r) before after repl
          ++ replaceAllFrom f rx s repl
               (if mEnd r =? mIndex r then S (mEnd r) else mEnd r) (mEnd r)
      end
  end.

Definition replaceAll (rx : RegExp) (s repl : str) : str :=
  replaceAllFrom (S (S (length s))) rx s repl 0 0.

(** *** [new RegExp(source, flags)]

    The parser reads the pattern syntax that [compilePatterns] can emit:
    pattern characters, [.], identity escapes of syntax characters,
    character classes of plain characters, groups, alternation, [^], [$] and
    the greedy quantifiers.  [None] stands for the [SyntaxError] the
    constructor throws. *)

Definition isSyntaxChar (c : ascii) : bool :=
  existsb (Ascii.eqb c) (js "^$\.*+?()[]{}|").

Definition parsed : Type := option (re * str * nat).

Definition quantified (atom : re) (s : str) (n : nat) : parsed :=
  match s with
  | c :: s' =>
      if Ascii.eqb c "*" then
        match s' with
        | d :: s'' => if Ascii.eqb d "?" then Some (StarLazy atom, s'', n)
                      else Some (Star atom, s', n)
        | [] => Some (Star atom, s', n)
        end
      else if Ascii.eqb c "+" then Some (Plus atom, s', n)
      else if Ascii.eqb c "?" then Some (Opt atom, s', n)
      else Some (atom, s, n)
  | [] => Some (atom, s, n)
  end.

(** The items of a character class up to the closing bracket. *)
Fixpoint parseClassItems (s : str) : option (list cset * str) :=
  match s with
  | [] => None
  | c :: s' =>
      if Ascii.eqb c "]" then Some ([], s')
      else if Ascii.eqb c "\" then
        match s' with
        | d :: s'' =>
            if isSyntaxChar d || Ascii.eqb d "/" || Ascii.eqb d "-" then
              match parseClassItems s'' with
              | Some (items, r) => Some (CsChar d :: items, r)
              | None => None
              end
            else if Ascii.eqb d "s" then
              match parseClassItems s'' with
              | Some (items, r) => Some (CsSpace :: items, r)
              | None => None
              end
            else if Ascii.eqb d "w" then
              match parseClassItems s'' with
              | Some (items, r) => Some (CsWord :: items, r)
              | None => None
              end
            else None
        | [] => None
        end
      else if Ascii.eqb c "-" then None
      else
        match parseClassItems s' with
        | Some (items, r) => Some (CsChar c :: items, r)
        | None => None
        end
  end.

Definition parseClass (s : str) : option (bool * list cset * str) :=
  match s with
  | c :: s' =>
      if Ascii.eqb c "^" then
        match parseClassItems s' with
        | Some (items, r) => Some (true, items, r)
        | None => None
        end
      else
        match parseClassItems s with
        | Some (items, r) => Some (false, items, r)
        | None => None
        end
  | [] => None
  end.

Fixpoint parseDisjunction (fuel : nat) (s : str) (n : nat) {struct fuel} : parsed :=
  match fuel with
  | 0 => None
  | S f =>
      match parseAlternative f s n with
      | Some (a, c :: s', n') =>
          if Ascii.eqb c "|" then
            match parseDisjunction f s' n' with
            | Some (b, s'', n'') => Some (Alt a b, s'', n'')
            | None => None
            end
          else Some (a, c :: s', n')
      | other => other
      end
  end
with parseAlternative (fuel : nat) (s : str) (n : nat) {struct fuel} : parsed :=
  match fuel with
  | 0 => None
  | S f =>
      match s with
      | [] => Some (Empty, [], n)
      | c :: _ =>
          if Ascii.eqb c "|" || Ascii.eqb c ")" then Some (Empty, s, n)
          else
            match parseTerm f s n with
            | Some (t, s1, n1) =>
                match parseAlternative f s1 n1 with
                | Some (r, s2, n2) => Some (Seq t r, s2, n2)
                | None => None
                end
            | None => None
            end
      end
  end
with parseTerm (fuel : nat) (s : str) (n : nat) {struct fuel} : parsed :=
  match fuel with
  | 0 => None
  | S f =>
      match s with
      | [] => None
      | c :: s' =>
          if Ascii.eqb c "^" then Some (Bol, s', n)
          else if Ascii.eqb c "$" then Some (Eol, s', n)
          else if Ascii.eqb c "." then quantified Dot s' n
          else if Ascii.eqb c "(" then
            match parseDisjunction f s' (S n) with
            | Some (r, d :: s'', n') =>
                if Ascii.eqb d ")" then quantified (Group (S n) r) s'' n' else None
            | _ => None
            end
          else if Ascii.eqb c "[" then
            match parseClass s' with
            | Some (neg, items, s'') => quantified (Set_ neg items) s'' n
            | None => None
            end
          else if Ascii.eqb c "\" then
            match s' with
            | d :: s'' =>
                if isSyntaxChar d || Ascii.eqb d "/" then quantified (Lit d) s'' n
                else if Ascii.eqb d "s" then quantified (Set_ false [CsSpace]) s'' n
                else if Ascii.eqb d "w" then quantified (Set_ false [CsWord]) s'' n
                else None
            | [] => None
            end
          else if isSyntaxChar c then None
          else quantified (Lit c) s' n
      end
  end.

Definition newRegExp (source : str) (ignoreCase : bool) : option RegExp :=
  match parseDisjunction (4 * length source + 8) source 0 with
  | Some (r, [], _) => Some (MkRegExp r ignoreCase)
  | _ => None
  end.

(** A literal string as an expression. *)
Fixpoint lits (s : str) : re :=
  match s with
  | [] => Empty
  | [c] => Lit c
  | c :: s' => Seq (Lit c) (lits s')
  end.

(** Sequence of several expressions. *)
Fixpoint seqs (rs : list re) : re :=
  match rs with
  | [] => Empty
  | [r] => r
  | r :: rs' => Seq r (seqs rs')
  end.

(** * ignore-manager.ts *)

Module IgnoreManager.

Record IgnoreState : Type := MkIgnoreState {
  patterns : list RegExp;
  originalPatterns : list str;
  ignoreDirectories : option bool
}.

Record IgnoreCheckResult : Type := MkIgnoreCheckResult {
  shouldIgnore_ : bool;
  matchedPattern : option str;
  reason : option str
}.

Definition DEFAULT_IGNORE_PATTERNS : list str :=
  map js ["node_modules/**"; "**/*.d.ts"; "dist/**"; "build/**"; ".git/**";
          "**/.DS_Store"]%string.

(** [new RegExp('$.^')] *)
Definition neverRegExp : RegExp :=
  MkRegExp (Seq Eol (Seq Dot (Seq Bol Empty))) false.

(** [/[.+^${}()|[\]\\]/] *)
Definition reMetaChar : re :=
  Set_ false (map CsChar (js ".+^${}()|[]\")).

Definition globalRe (r : re) : RegExp := MkRegExp r false.

(** The body of the [map] callback of [compilePatterns], up to the source
    text handed to [new RegExp]. *)
Definition regexSource (cleanPattern : str) : str :=
  let regexPattern := cleanPattern in
  let isAbsolutePattern := startsWith regexPattern (js "/") in
  let regexPattern :=
    if isAbsolutePattern then sliceFrom regexPattern 1 else regexPattern in
  let regexPattern :=
    replaceAll (globalRe (lits (js "__QUESTION__")))
      (replaceAll (globalRe (lits (js "__SINGLESTAR__")))
         (replaceAll (globalRe (lits (js "__DOUBLESTAR__")))
            (replaceAll (globalRe reMetaChar)
               (replaceAll (globalRe (Lit "?"))
                  (replaceAll (globalRe (Lit "*"))
                     (replaceAll (globalRe (Seq (Lit "*") (Lit "*")))
                        regexPattern (js "__DOUBLESTAR__"))
                     (js "__SINGLESTAR__"))
                  (js "__QUESTION__"))
               (js "\$&"))
            (js ".*"))
         (js "[^/]*"))
      (js "[^/]") in
  let regexPattern :=
    if endsWith cleanPattern (js "/")
    then dropLast regexPattern ++ js "(/.*)?"
    else regexPattern in
  if isAbsolutePattern then js "^" ++ regexPattern ++ js "$"
  else if includes cleanPattern (js "/") then js "(^|/)" ++ regexPattern ++ js "$"
  else js "(^|/)" ++ regexPattern ++ js "(/.*)?$".

Definition compilePattern (pattern : str) : RegExp :=
  let isNegation := startsWith pattern (js "!") in
  let cleanPattern := if isNegation then sliceFrom pattern 1 else pattern in
  if negb (truthy (trim cleanPattern))
     || str_eqb cleanPattern (js "**") || str_eqb cleanPattern (js "***")
  then neverRegExp
  else
    match newRegExp (regexSource cleanPattern) true with
    | Some rx => rx
    | None => neverRegExp
    end.

Definition compilePatterns (patterns : list str) : list RegExp :=
  map compilePattern patterns.

(** The part of [createIgnoreState] after the ignore file has been read:
    [fileLines] is the content of the file split at line feeds, or [None]
    when there is no file (or it could not be read). *)
Definition createIgnoreState (useDefaults ignoreNodeModules : bool)
  (fileLines : option (list str)) (additionalPatterns : option (list str))
  (ignoreDirs : option bool) : IgnoreState :=
  let patterns := if useDefaults then DEFAULT_IGNORE_PATTERNS else [] in
  let patterns :=
    if ignoreNodeModules then patterns ++ [js "node_modules/**"] else patterns in
  let patterns :=
    match fileLines with
    | Some ls =>
        patterns ++
        filter (fun line => truthy line && negb (startsWith line (js "#")))
               (map trim ls)
    | None => patterns
    end in
  let patterns :=
    match additionalPatterns with
    | Some ps => patterns ++ ps
    | None => patterns
    end in
  MkIgnoreState (compilePatterns patterns) patterns ignoreDirs.

Definition negationReason (p : str) : str :=
  js "Negation pattern " ++ [dquote] ++ p ++ [dquote] ++ js " matched".

Definition patternReason (p : str) : str :=
  js "Pattern " ++ [dquote] ++ p ++ [dquote] ++ js " matched".

(** The [for] loop of [shouldIgnore] from index [i] on, [ps] being
    [state.patterns] from [i] on.  [None] is the [TypeError] of calling
    [startsWith] on [undefined], when [originalPatterns] is the shorter
    list. *)
Fixpoint ignoreLoop (ps : list RegExp) (originals : list str) (i : nat)
  (cleanPath : str) (lastMatch : option IgnoreCheckResult)
  : option (option IgnoreCheckResult) :=
  match ps with
  | [] => Some lastMatch
  | pattern :: ps' =>
      match nth_error originals i with
      | None => None
      | Some originalPattern =>
          let isNegation := startsWith originalPattern (js "!") in
          let lastMatch :=
            if test pattern cleanPath then
              if isNegation then
                Some (MkIgnoreCheckResult false (Some originalPattern)
                        (Some (negationReason originalPattern)))
              else
                Some (MkIgnoreCheckResult true (Some originalPattern)
                        (Some (patternReason originalPattern)))
            else lastMatch in
          ignoreLoop ps' originals (S i) cleanPath lastMatch
      end
  end.

Definition cleanPathOf (filePath : str) : str :=
  let normalizedPath := replaceAll (globalRe (Lit "\")) filePath (js "/") in
  if startsWith normalizedPath (js "/") then sliceFrom normalizedPath 1
  else normalizedPath.

Definition shouldIgnore (state : IgnoreState) (filePath : str)
  : option IgnoreCheckResult :=
  let cleanPath := cleanPathOf filePath in
  match ignoreLoop (patterns state) (originalPatterns state) 0 cleanPath None with
  | None => None
  | Some (Some lastMatch) => Some lastMatch
  | Some None =>
      Some (MkIgnoreCheckResult false None (Some (js "No ignore patterns matched")))
  end.

Definition shouldIgnoreDirectory (state : IgnoreState) (dirPath : str)
  : option bool :=
  let normalizedDir := replaceAll (globalRe (Lit "\")) dirPath (js "/") in
  let dirWithSlash :=
    if endsWith normalizedDir (js "/") then normalizedDir
    else normalizedDir ++ js "/" in
  option_map shouldIgnore_ (shouldIgnore state dirWithSlash).

(** [filePaths.filter(filePath => !shouldIgnore(state, filePath).shouldIgnore)];
    [None] when a call of [shouldIgnore] throws. *)
Fixpoint filterIgnoredFiles (state : IgnoreState) (filePaths : list str)
  : option (list str) :=
  match filePaths with
  | [] => Some []
  | filePath :: others =>
      match shouldIgnore state filePath with
      | None => None
      | Some r =>
          match filterIgnoredFiles state others with
          | None => None
          | Some kept => Some (if shouldIgnore_ r then kept else filePath :: kept)
          end
      end
  end.

End IgnoreManager.

(** ** Arrays *)

(** [Array.prototype.sort] with a comparator: ECMAScript requires the sort
    to be stable, so for a consistent comparator the result is the stable
    sorted permutation, which insertion sort computes.  [le a b] stands for
    [compare(a, b) <= 0]. *)
Section Sort.
Variable A : Type.
Variable le : A -> A -> bool.

Fixpoint insertSorted (x : A) (l : list A) : list A :=
  match l with
  | [] => [x]
  | y :: l' => if le x y then x :: l else y :: insertSorted x l'
  end.

Fixpoint sortStable (l : list A) : list A :=
  match l with
  | [] => []
  | x :: l' => insertSorted x (sortStable l')
  end.

End Sort.

(** * import-parser.ts *)

Module ImportParser.

Inductive ImportType : Type := es6 | commonjs | dynamic.

(** [importBinding] is declared optional and never assigned. *)
Record ImportMatch : Type := MkImportMatch {
  fullMatch : str;
  importPath : str;
  startIndex : nat;
  endIndex : nat;
  type : ImportType
}.

Record ImportParsingOptions : Type := MkOptions {
  includeES6 : bool;
  includeCommonJS : bool;
  includeDynamic : bool;
  skipMalformed : bool
}.

Definition DEFAULT_OPTIONS : ImportParsingOptions := MkOptions true true true true.

(** The pieces the patterns share: [\s+], [\s*], [\w+], [['"`]],
    [([^'"`]+)] and [\{[^}]*\}]. *)
Definition ws1 : re := Plus (Set_ false [CsSpace]).
Definition ws0 : re := Star (Set_ false [CsSpace]).
Definition word1 : re := Plus (Set_ false [CsWord]).
Definition quotes : list cset := [CsChar "'"; CsChar dquote; CsChar "`"]%char.
Definition quote : re := Set_ false quotes.
Definition pathGroup : re := Group 1 (Plus (Set_ true quotes)).
Definition braces : re := seqs [Lit "{"; Star (Set_ true [CsChar "}"%char]); Lit "}"].
Definition quoted : list re := [quote; pathGroup; quote].

(** [IMPORT_PATTERNS].  [ES6_IMPORT] is declared there too and used by no
    parse function. *)
Definition ES6_IMPORT_SIDE_EFFECT : RegExp :=
  MkRegExp (seqs ([lits (js "import"); ws1] ++ quoted)) false.

Definition COMMONJS_REQUIRE : RegExp :=
  MkRegExp (seqs ([lits (js "require"); ws0; Lit "("; ws0] ++ quoted ++ [ws0; Lit ")"])) false.

Definition DYNAMIC_IMPORT : RegExp :=
  MkRegExp (seqs ([lits (js "import"); ws0; Lit "("; ws0] ++ quoted ++ [ws0; Lit ")"])) false.

Definition ES6_NAMED_IMPORT : RegExp :=
  MkRegExp (seqs ([lits (js "import"); ws1; braces; ws1; lits (js "from"); ws1] ++ quoted)) false.

Definition ES6_DEFAULT_IMPORT : RegExp :=
  MkRegExp (seqs ([lits (js "import"); ws1; word1; ws1; lits (js "from"); ws1] ++ quoted)) false.

Definition ES6_NAMESPACE_IMPORT : RegExp :=
  MkRegExp (seqs ([lits (js "import"); ws1; Lit "*"; ws1; lits (js "as"); ws1; word1; ws1;
                   lits (js "from"); ws1] ++ quoted)) false.

Definition ES6_MIXED_IMPORT : RegExp :=
  MkRegExp (seqs ([lits (js "import"); ws1; word1; ws0; Lit ","; ws0; braces; ws1;
                   lits (js "from"); ws1] ++ quoted)) false.

Definition isRelative (importPath : str) : bool :=
  startsWith importPath (js "./") || startsWith importPath (js "../").

(** The body of a [while ((match = pattern.exec(content)) !== null)] loop
    for the matches found: [None] is the [TypeError] of [match[1].startsWith]
    when group 1 took no part in a match. *)
Fixpoint collect (ty : ImportType) (content : str) (rs : list execResult)
  : option (list ImportMatch) :=
  match rs with
  | [] => Some []
  | r :: rs' =>
      match capture content r 1 with
      | None => None
      | Some importPath =>
          match collect ty content rs' with
          | None => None
          | Some ms =>
              if isRelative importPath then
                Some (MkImportMatch (matched content r) importPath (mIndex r)
                        (mIndex r + length (matched content r)) ty :: ms)
              else Some ms
          end
      end
  end.

(** One pattern pass: [lastIndex] is reset to 0 before the loop and is 0
    again when [exec] returns [null], so no scan position is carried from
    one call to the next. *)
Definition pass (ty : ImportType) (pattern : RegExp) (content : str)
  : option (list ImportMatch) :=
  collect ty content (execLoop (S (length content)) pattern content 0).

Fixpoint passes (ty : ImportType) (patterns : list RegExp) (content : str)
  : option (list ImportMatch) :=
  match patterns with
  | [] => Some []
  | p :: ps =>
      match pass ty p content with
      | None => None
      | Some ms =>
          match passes ty ps content with
          | None => None
          | Some ms' => Some (ms ++ ms')
          end
      end
  end.

Definition es6Patterns : list RegExp :=
  [ES6_NAMED_IMPORT; ES6_DEFAULT_IMPORT; ES6_NAMESPACE_IMPORT; ES6_MIXED_IMPORT;
   ES6_IMPORT_SIDE_EFFECT].

Definition parseES6Imports (content : str) : option (list ImportMatch) :=
  passes es6 es6Patterns content.

Definition parseCommonJSImports (content : str) : option (list ImportMatch) :=
  pass commonjs COMMONJS_REQUIRE content.

Definition parseDynamicImports (content : str) : option (list ImportMatch) :=
  pass dynamic DYNAMIC_IMPORT content.

(** [/\/\*[\s\S]*?\*\//g] and [/\/\/.*$/gm] *)
Definition reBlockComment : RegExp :=
  MkRegExp (seqs [Lit "/"; Lit "*"; StarLazy (Set_ false [CsSpace; CsNotSpace]);
                  Lit "*"; Lit "/"]) false.

Definition reLineComment : RegExp :=
  MkRegExp (seqs [Lit "/"; Lit "/"; Star Dot; EolM]) false.

Definition safeParseImports (parseFunction : str -> option (list ImportMatch))
  (content : str) : list ImportMatch :=
  match parseFunction content with
  | Some ms => ms
  | None =>
      let cleanContent :=
        replaceAll reLineComment (replaceAll reBlockComment content []) [] in
      match parseFunction cleanContent with
      | Some ms => ms
      | None => []
      end
  end.

Definition validateImportPath (importPath : str) : option str :=
  if negb (truthy importPath) then None
  else
    let trimmed := trim importPath in
    if (length trimmed =? 0) || includes trimmed [ascii_of_nat 10]
       || includes trimmed [ascii_of_nat 13]
    then None
    else Some trimmed.

(** [.map(match => validPath ? {...match, importPath: validPath} : null)
    .filter(match => match !== null)] *)
Fixpoint validMatchesOf (ms : list ImportMatch) : list ImportMatch :=
  match ms with
  | [] => []
  | m :: ms' =>
      match validateImportPath (importPath m) with
      | Some validPath =>
          if truthy validPath then
            MkImportMatch (fullMatch m) validPath (startIndex m) (endIndex m) (type m)
            :: validMatchesOf ms'
          else validMatchesOf ms'
      | None => validMatchesOf ms'
      end
  end.

Definition sameKey (a b : ImportMatch) : bool :=
  (startIndex a =? startIndex b) && str_eqb (importPath a) (importPath b).

(** [validMatches.filter((match, index) => ...)] from index 1 on, [prev]
    being the element before. *)
Fixpoint uniqueAfter (prev : ImportMatch) (ms : list ImportMatch) : list ImportMatch :=
  match ms with
  | [] => []
  | m :: ms' =>
      if sameKey m prev then uniqueAfter m ms' else m :: uniqueAfter m ms'
  end.

Definition uniqueMatchesOf (ms : list ImportMatch) : list ImportMatch :=
  match ms with
  | [] => []
  | m :: ms' => m :: uniqueAfter m ms'
  end.

Definition byStartAscending (a b : ImportMatch) : bool :=
  startIndex a <=? startIndex b.

(** [findImports(content, options)].  Nothing in the body of the outer
    [try] throws (the parse functions are called through
    [safeParseImports]), so its [catch] branch, the only reader of
    [skipMalformed], has no counterpart here. *)
Definition findImportsWith (content : str) (opts : ImportParsingOptions)
  : list ImportMatch :=
  if negb (truthy content) then []
  else
    let allMatches :=
      (if includeES6 opts then safeParseImports parseES6Imports content else [])
      ++ (if includeCommonJS opts then safeParseImports parseCommonJSImports content else [])
      ++ (if includeDynamic opts then safeParseImports parseDynamicImports content else []) in
    let validMatches := validMatchesOf allMatches in
    let validMatches := sortStable byStartAscending validMatches in
    uniqueMatchesOf validMatches.

Definition findImports (content : str) : list ImportMatch :=
  findImportsWith content DEFAULT_OPTIONS.

End ImportParser.

(** ** [Map] objects

    A [Map] with string keys, as the list of its entries in insertion
    order; [set] on a key that is present keeps the key's place. *)
Section JsMap.
Variable V : Type.

Definition JsMap : Type := list (str * V).

Fixpoint mapGet (k : str) (m : JsMap) : option V :=
  match m with
  | [] => None
  | (k', v) :: m' => if str_eqb k' k then Some v else mapGet k m'
  end.

Fixpoint mapSet (k : str) (v : V) (m : JsMap) : JsMap :=
  match m with
  | [] => [(k, v)]
  | (k', v') :: m' =>
      if str_eqb k' k then (k', v) :: m' else (k', v') :: mapSet k v m'
  end.

Fixpoint mapDelete (k : str) (m : JsMap) : JsMap :=
  match m with
  | [] => []
  | (k', v') :: m' => if str_eqb k' k then m' else (k', v') :: mapDelete k m'
  end.

End JsMap.

(** * Node's [path] module (POSIX) *)

Module Path.

Definition isSep (c : ascii) : bool := Ascii.eqb c "/".

Record nstate : Type := MkN {
  res : str;
  lastSegmentLength : nat;
  lastSlash : option nat;   (* [None] is -1 *)
  dots : option nat         (* [None] is -1 *)
}.

Definition charFromEnd (s : str) (k : nat) : option ascii :=
  if length s <? k then None else nth_error s (length s - k).

Definition isDot (c : option ascii) : bool :=
  match c with Some a => Ascii.eqb a "." | None => false end.

Definition afterSlash (o : option nat) : nat :=
  match o with Some j => S j | None => 0 end.

(** One round of the loop of [normalizeString] for a code unit [c] at
    index [i]. *)
Definition normStep (path : str) (allowAboveRoot : bool) (st : nstate)
  (i : nat) (c : ascii) : nstate :=
  let r := res st in
  let above :=
    if allowAboveRoot
    then MkN (r ++ (if 0 <? length r then js "/.." else js "..")) 2 (Some i) (Some 0)
    else MkN r (lastSegmentLength st) (Some i) (Some 0) in
  if isSep c then
    if (afterSlash (lastSlash st) =? i)
       || (match dots st with Some 1 => true | _ => false end)
    then MkN r (lastSegmentLength st) (Some i) (Some 0)
    else if (match dots st with Some 2 => true | _ => false end) then
      if (length r <? 2) || negb (lastSegmentLength st =? 2)
         || negb (isDot (charFromEnd r 1)) || negb (isDot (charFromEnd r 2))
      then
        if 2 <? length r then
          match lastIndexOfChar r "/" with
          | None => MkN [] 0 (Some i) (Some 0)
          | Some j =>
              let r' := slice r 0 j in
              MkN r' (length r' - afterSlash (lastIndexOfChar r' "/")) (Some i) (Some 0)
          end
        else if negb (length r =? 0) then MkN [] 0 (Some i) (Some 0)
        else above
      else above
    else
      let seg := slice path (afterSlash (lastSlash st)) i in
      MkN (if 0 <? length r then r ++ js "/" ++ seg else seg)
          (i - afterSlash (lastSlash st)) (Some i) (Some 0)
  else if Ascii.eqb c "." && (match dots st with None => false | Some _ => true end)
  then MkN r (lastSegmentLength st) (lastSlash st) (option_map S (dots st))
  else MkN r (lastSegmentLength st) (lastSlash st) None.

(** The loop over [i <= path.length]: after the last code unit a separator
    is supplied unless the last code unit was one. *)
Fixpoint normLoop (path : str) (allowAboveRoot : bool) (cs : str) (i : nat)
  (st : nstate) (prev : ascii) : nstate :=
  match cs with
  | [] => if isSep prev then st else normStep path allowAboveRoot st i "/"
  | c :: cs' =>
      normLoop path allowAboveRoot cs' (S i) (normStep path allowAboveRoot st i c) c
  end.

Definition normalizeString (path : str) (allowAboveRoot : bool) : str :=
  res (normLoop path allowAboveRoot path 0 (MkN [] 0 None (Some 0)) (ascii_of_nat 0)).

(** [path.normalize] *)
Definition normalize (path : str) : str :=
  if length path =? 0 then js "."
  else
    let isAbsolute := startsWith path (js "/") in
    let trailingSeparator := endsWith path (js "/") in
    let p := normalizeString path (negb isAbsolute) in
    if length p =? 0 then
      if isAbsolute then js "/"
      else if trailingSeparator then js "./" else js "."
    else
      let p := if trailingSeparator then p ++ js "/" else p in
      if isAbsolute then js "/" ++ p else p.

(** The loop of [path.resolve] over the arguments from the last to the
    first and then the working directory. *)
Fixpoint resolveLoop (revArgs : list str) (cwd : str) (resolvedPath : str)
  : str * bool :=
  match revArgs with
  | [] =>
      if length cwd =? 0 then (resolvedPath, false)
      else (cwd ++ js "/" ++ resolvedPath, startsWith cwd (js "/"))
  | p :: others =>
      if length p =? 0 then resolveLoop others cwd resolvedPath
      else
        let resolvedPath := p ++ js "/" ++ resolvedPath in
        if startsWith p (js "/") then (resolvedPath, true)
        else resolveLoop others cwd resolvedPath
  end.

(** [path.resolve(...args)], [cwd] being [process.cwd()] *)
Definition resolve (cwd : str) (args : list str) : str :=
  let '(resolvedPath, resolvedAbsolute) := resolveLoop (rev args) cwd [] in
  let resolvedPath := normalizeString resolvedPath (negb resolvedAbsolute) in
  if resolvedAbsolute then js "/" ++ resolvedPath
  else if 0 <? length resolvedPath then resolvedPath else js ".".

(** The loop of [path.dirname] from index [i] down to 1; [s] is the path
    reversed from index [i] down.  The result is [end]. *)
Fixpoint dirnameLoop (s : str) (i : nat) (matchedSlash : bool) : option nat :=
  match i, s with
  | 0, _ => None
  | _, [] => None
  | S i', c :: s' =>
      if isSep c then
        if negb matchedSlash then Some i else dirnameLoop s' i' matchedSlash
      else dirnameLoop s' i' false
  end.

(** [path.dirname] *)
Definition dirname (path : str) : str :=
  if length path =? 0 then js "."
  else
    let hasRoot := startsWith path (js "/") in
    match dirnameLoop (rev path) (length path - 1) true with
    | None => if hasRoot then js "/" else js "."
    | Some e => if hasRoot && (e =? 1) then js "//" else slice path 0 e
    end.

(** [path.join(a, b)] *)
Definition join (a b : str) : str :=
  let joined :=
    if 0 <? length a then
      if 0 <? length b then a ++ js "/" ++ b else a
    else b in
  if length joined =? 0 then js "." else normalize joined.

(** The state of the loop of [path.extname]: [-1] is [None] for
    [startDot] and [end]; [preDotState] is 0, 1 or -1. *)
Inductive preDot : Type := PreStart | PreDots | PreOther.

Record extState : Type := MkExt {
  startDot : option nat;
  startPart : nat;
  extEnd : option nat;
  extMatchedSlash : bool;
  preDotState : preDot
}.

(** The loop of [path.extname] from index [n - 1] down to 0; [s] is the
    path reversed from that index down. *)
Fixpoint extnameLoop (s : str) (n : nat) (st : extState) : extState :=
  match n, s with
  | S i, c :: s' =>
      if isSep c then
        if negb (extMatchedSlash st)
        then MkExt (startDot st) (i + 1) (extEnd st) (extMatchedSlash st)
                   (preDotState st)
        else extnameLoop s' i st
      else
        let st :=
          match extEnd st with
          | None => MkExt (startDot st) (startPart st) (Some (i + 1)) false
                      (preDotState st)
          | Some _ => st
          end in
        let st :=
          if Ascii.eqb c "." then
            match startDot st with
            | None => MkExt (Some i) (startPart st) (extEnd st)
                        (extMatchedSlash st) (preDotState st)
            | Some _ =>
                MkExt (startDot st) (startPart st) (extEnd st)
                  (extMatchedSlash st) PreDots
            end
          else
            match startDot st with
            | Some _ =>
                MkExt (startDot st) (startPart st) (extEnd st)
                  (extMatchedSlash st) PreOther
            | None => st
            end in
        extnameLoop s' i st
  | _, _ => st
  end.

(** [path.extname] *)
Definition extname (path : str) : str :=
  let st := extnameLoop (rev path) (length path) (MkExt None 0 None true PreStart) in
  match startDot st, extEnd st with
  | Some sd, Some e =>
      match preDotState st with
      | PreStart => []
      | PreDots =>
          if (sd =? e - 1) && (sd =? startPart st + 1) then [] else slice path sd e
      | PreOther => slice path sd e
      end
  | _, _ => []
  end.

End Path.

(** * performance: [LRUCache]

    The cache keeps a [Map] from keys to list nodes and a doubly-linked
    list from [head] (most recently used) to [tail]; it is modelled by the
    list of its entries in that order. *)

Section LRU.
Variable V : Type.

Record LRUCache : Type := MkLRU {
  capacity : nat;
  entries : list (str * V)
}.

Definition lruNew (cap : nat) : LRUCache := MkLRU cap [].

(** [get]: a hit moves the entry to the front. *)
Definition lruGet (key : str) (c : LRUCache) : option V * LRUCache :=
  match mapGet key (entries c) with
  | None => (None, c)
  | Some v => (Some v, MkLRU (capacity c) ((key, v) :: mapDelete key (entries c)))
  end.

(** [evictLRU]: the entry at the tail is dropped. *)
Definition evictLRU (c : LRUCache) : LRUCache :=
  MkLRU (capacity c) (removelast (entries c)).

(** [set] *)
Definition lruSet (key : str) (value : V) (c : LRUCache) : LRUCache :=
  match mapGet key (entries c) with
  | Some _ => MkLRU (capacity c) ((key, value) :: mapDelete key (entries c))
  | None =>
      let c' := if capacity c <=? length (entries c) then evictLRU c else c in
      MkLRU (capacity c') ((key, value) :: entries c')
  end.

End LRU.

(** * path-resolver.ts *)

Module PathResolver.

Record PathMapping : Type := MkPathMapping {
  alias : str;
  basePath : str;
  resolvedBase : str
}.

Record ParsedConfig : Type := MkParsedConfig {
  baseUrl : str;
  configMappings : JsMap (list PathMapping);
  rootDir : str
}.

Record PathResolverState : Type := MkState {
  pathMappings : JsMap (list PathMapping);
  aliasLookup : JsMap str
}.

Record ConversionResult : Type := MkConversion {
  originalImport : str;
  convertedImport : option str;
  reason : option str
}.

(** [s.replace(/\/\*$/, '')] *)
Definition reTrailingWildcard : RegExp :=
  MkRegExp (seqs [Lit "/"; Lit "*"; Eol]) false.

Definition stripWildcard (s : str) : str := replaceFirst reTrailingWildcard s [].

(** [x || ''] for [x] a string or [undefined] *)
Definition orEmpty (x : option str) : str :=
  match x with Some s => s | None => [] end.

(** The body of the inner loop of [createPathResolver]. *)
Definition addAlias (aliasLookup : JsMap str) (mapping : PathMapping) : JsMap str :=
  let cleanResolvedBase := stripWildcard (resolvedBase mapping) in
  let cleanAlias := stripWildcard (alias mapping) in
  let existingAlias := mapGet cleanResolvedBase aliasLookup in
  if negb (truthy (orEmpty existingAlias))
     || (length (orEmpty (mapGet (orEmpty existingAlias) aliasLookup))
         <? length cleanResolvedBase)
  then mapSet cleanResolvedBase cleanAlias aliasLookup
  else aliasLookup.

(** All mappings in the order the nested [for ... of] loops visit them. *)
Definition allMappings (m : JsMap (list PathMapping)) : list PathMapping :=
  flat_map snd m.

Definition createPathResolver (config : ParsedConfig) : PathResolverState :=
  let pathMappings := configMappings config in
  MkState pathMappings (fold_left addAlias (allMappings pathMappings) []).

(** The body of the inner loop of [findBestMatch] on the pair
    [(bestMatch, bestMatchLength)]. *)
Definition betterMatch (normalizedPath : str)
  (best : option PathMapping * nat) (mapping : PathMapping)
  : option PathMapping * nat :=
  let resolvedBase := Path.normalize (stripWildcard (resolvedBase mapping)) in
  if startsWith normalizedPath resolvedBase then
    if snd best <? length resolvedBase then (Some mapping, length resolvedBase)
    else best
  else best.

Definition findBestMatch (state : PathResolverState) (absolutePath : str)
  : option PathMapping :=
  let normalizedPath := Path.normalize absolutePath in
  fst (fold_left (betterMatch normalizedPath) (allMappings (pathMappings state))
         (None, 0)).

Definition convertToAlias (absolutePath : str) (mapping : PathMapping) : option str :=
  let normalizedPath := Path.normalize absolutePath in
  let resolvedBase := Path.normalize (stripWildcard (resolvedBase mapping)) in
  if negb (startsWith normalizedPath resolvedBase) then None
  else
    let relativePart := sliceFrom normalizedPath (length resolvedBase) in
    let cleanRelativePart :=
      if startsWith relativePart (js "/") then sliceFrom relativePart 1
      else relativePart in
    let aliasBase := stripWildcard (alias mapping) in
    if negb (truthy cleanRelativePart) then Some aliasBase
    else Some (aliasBase ++ js "/" ++ cleanRelativePart).

Definition cacheKeyOf (fromFile importPath : str) : str :=
  fromFile ++ js ":" ++ importPath.

(** [const resolveCache = new LRUCache<string, ConversionResult>(1000)] *)
Definition resolveCache0 : LRUCache ConversionResult := lruNew _ 1000.

(** [resolveImport], with the module's [resolveCache] passed in and out.
    [cwd] is [process.cwd()], which [path.resolve] reads when [fromFile] is
    not absolute. *)
Definition resolveImport (cwd : str) (resolveCache : LRUCache ConversionResult)
  (state : PathResolverState) (importPath fromFile : str)
  : ConversionResult * LRUCache ConversionResult :=
  if negb (startsWith importPath (js "./")) && negb (startsWith importPath (js "../"))
  then (MkConversion importPath None (Some (js "Not a relative import")), resolveCache)
  else
    let cacheKey := cacheKeyOf fromFile importPath in
    match lruGet cacheKey resolveCache with
    | (Some cached, resolveCache) => (cached, resolveCache)
    | (None, resolveCache) =>
        if negb (truthy fromFile) || negb (truthy (trim fromFile)) then
          let result :=
            MkConversion importPath None
              (Some (js "Error during conversion: fromFile parameter cannot be empty")) in
          (result, lruSet cacheKey result resolveCache)
        else
          let fromDir := Path.dirname fromFile in
          let absolutePath := Path.resolve cwd [fromDir; importPath] in
          match findBestMatch state absolutePath with
          | None =>
              (MkConversion importPath None (Some (js "No matching path alias found")),
               resolveCache)
          | Some bestMatch =>
              match convertToAlias absolutePath bestMatch with
              | Some (c :: converted) =>
                  let result :=
                    MkConversion importPath (Some (c :: converted))
                      (Some (js "Converted using alias '" ++ alias bestMatch ++ js "'")) in
                  (result, lruSet cacheKey result resolveCache)
              | _ =>
                  (MkConversion importPath None
                     (Some (js "Failed to convert to alias format")),
                   resolveCache)
              end
          end
    end.

End PathResolver.

(** * file-processor.ts *)

Module FileProcessor.
Import ImportParser PathResolver.

Definition replaceImportPathInStatement (fullMatch originalPath newPath : str) : str :=
  let quoteChar :=
    if includes fullMatch (js "'" ++ originalPath ++ js "'") then js "'"
    else if includes fullMatch ([dquote] ++ originalPath ++ [dquote]) then [dquote]
    else if includes fullMatch (js "`" ++ originalPath ++ js "`") then js "`"
    else [dquote] in
  let quotedOriginal := quoteChar ++ originalPath ++ quoteChar in
  let quotedNew := quoteChar ++ newPath ++ quoteChar in
  replaceString fullMatch quotedOriginal quotedNew.

(** The first loop of [replaceImports]. *)
Fixpoint conversionMapOf (conversions : list ConversionResult) (m : JsMap str)
  : JsMap str :=
  match conversions with
  | [] => m
  | conversion :: cs =>
      match convertedImport conversion with
      | Some (c :: converted) =>
          conversionMapOf cs (mapSet (originalImport conversion) (c :: converted) m)
      | _ => conversionMapOf cs m
      end
  end.

Definition byStartDescending (a b : ImportMatch) : bool :=
  startIndex b <=? startIndex a.

(** The second loop of [replaceImports]. *)
Fixpoint applyReplacements (conversionMap : JsMap str)
  (sortedImports : list ImportMatch) (modifiedContent : str) : str :=
  match sortedImports with
  | [] => modifiedContent
  | importMatch :: others =>
      match mapGet (importPath importMatch) conversionMap with
      | Some (c :: converted) =>
          let newFullMatch :=
            replaceImportPathInStatement (fullMatch importMatch)
              (importPath importMatch) (c :: converted) in
          applyReplacements conversionMap others
            (slice modifiedContent 0 (startIndex importMatch)
             ++ newFullMatch
             ++ sliceFrom modifiedContent (endIndex importMatch))
      | _ => applyReplacements conversionMap others modifiedContent
      end
  end.

Definition replaceImports (content : str) (imports : list ImportMatch)
  (conversions : list ConversionResult) : str :=
  let conversionMap := conversionMapOf conversions [] in
  if length conversionMap =? 0 then content
  else
    let sortedImports := sortStable byStartDescending imports in
    applyReplacements conversionMap sortedImports content.

(** [batchReplaceImports], with the [Map] of replacements as its entries *)
Definition batchReplaceImports (content : str) (replacements : JsMap str) : str :=
  if length replacements =? 0 then content
  else
    let imports := findImports content in
    let importsToReplace :=
      filter (fun imp => match mapGet (importPath imp) replacements with
                         | Some _ => true | None => false end) imports in
    if length importsToReplace =? 0 then content
    else
      applyReplacements replacements
        (sortStable byStartDescending importsToReplace) content.

Record ProcessingResult : Type := MkProcessingResult {
  filePath : str;
  conversions : list ConversionResult;
  modified : bool;
  errors : option (list str)
}.

Record ProcessingStats : Type := MkStats {
  totalFiles : nat;
  modifiedFiles : nat;
  totalConversions : nat;
  successfulConversions : nat;
  errorFiles : nat    (* the field [errors] of the statistics *)
}.

(** [c.convertedImport !== null] *)
Definition notNull (c : ConversionResult) : bool :=
  match convertedImport c with Some _ => true | None => false end.

(** The body of the loop of [getProcessingStats]. *)
Definition addResult (stats : ProcessingStats) (result : ProcessingResult)
  : ProcessingStats :=
  MkStats (totalFiles stats)
    (if modified result then S (modifiedFiles stats) else modifiedFiles stats)
    (totalConversions stats + length (conversions result))
    (successfulConversions stats + length (filter notNull (conversions result)))
    (match errors result with
     | Some (_ :: _) => S (errorFiles stats)
     | _ => errorFiles stats
     end).

Definition getProcessingStats (results : list ProcessingResult) : ProcessingStats :=
  fold_left addResult results (MkStats (length results) 0 0 0 0).

End FileProcessor.

(** * config-parser.ts *)

Module ConfigParser.
Import PathResolver.

(** [s.split(sep)[0]]: the text before the first occurrence of [sep]. *)
Definition beforeFirst (s sep : str) : str :=
  match indexOf s sep with
  | Some i => firstn i s
  | None => s
  end.

Definition aliasPrefixOf (alias : str) : str :=
  let aliasPrefix := alias in
  let aliasPrefix :=
    if includes alias (js "*") then beforeFirst alias (js "*") else aliasPrefix in
  if includes alias (js "/") then beforeFirst alias (js "/") else aliasPrefix.

(** The mappings of one entry of [paths]. *)
Definition mappingsOf (cwd baseUrl rootDir alias : str) (pathList : list str)
  : list PathMapping :=
  map (fun basePath =>
         MkPathMapping alias basePath
           (Path.resolve cwd [rootDir; baseUrl; replaceString basePath (js "/*") []]))
      pathList.

(** The body of the loop of [buildPathMappingLookup]: the list of the
    prefix is created when it is missing, and the mappings are pushed onto
    it. *)
Definition addEntry (cwd baseUrl rootDir : str)
  (pathMappings : JsMap (list PathMapping)) (entry : str * list str)
  : JsMap (list PathMapping) :=
  let '(alias, pathList) := entry in
  let aliasPrefix := aliasPrefixOf alias in
  let mappings := mappingsOf cwd baseUrl rootDir alias pathList in
  let pathMappings :=
    match mapGet aliasPrefix pathMappings with
    | Some _ => pathMappings
    | None => mapSet aliasPrefix [] pathMappings
    end in
  match mapGet aliasPrefix pathMappings with
  | Some l => mapSet aliasPrefix (l ++ mappings) pathMappings
  | None => pathMappings
  end.

(** [buildPathMappingLookup(paths, baseUrl, rootDir)], [paths] being
    [Object.entries(paths)] and [cwd] being [process.cwd()]. *)
Definition buildPathMappingLookup (cwd : str) (paths : list (str * list str))
  (baseUrl rootDir : str) : JsMap (list PathMapping) :=
  fold_left (addEntry cwd baseUrl rootDir) paths [].

End ConfigParser.

(** * performance: [Trie] *)

Module Trie.
Section WithValues.
Variable V : Type.

(** [TrieNode]: [children] is a [Map] keyed by the characters, [value] is
    [undefined] until a value is stored. *)
#[local] Unset Elimination Schemes.
Inductive TrieNode : Type :=
| Node (children : JsMap TrieNode) (isEndOfWord : bool) (value : option V).
#[local] Set Elimination Schemes.

Definition children (n : TrieNode) : JsMap TrieNode :=
  match n with Node c _ _ => c end.

Definition isEndOfWord (n : TrieNode) : bool :=
  match n with Node _ e _ => e end.

Definition value (n : TrieNode) : option V :=
  match n with Node _ _ v => v end.

(** [new TrieNode()] *)
Definition newTrieNode : TrieNode := Node [] false None.

(** [insert(word, value)] from the node [current] on; the nodes are
    updated in place, so the result is the trie after the call.  A [value]
    of [undefined] leaves the stored value as it is. *)
Fixpoint insert (word : str) (v : option V) (current : TrieNode) {struct word}
  : TrieNode :=
  match word with
  | [] =>
      Node (children current) true
        (match v with Some x => Some x | None => value current end)
  | char :: word' =>
      let kids :=
        match mapGet [char] (children current) with
        | Some _ => children current
        | None => mapSet [char] newTrieNode (children current)
        end in
      match mapGet [char] kids with
      | Some next =>
          Node (mapSet [char] (insert word' v next) kids)
            (isEndOfWord current) (value current)
      | None => Node kids (isEndOfWord current) (value current)
      end
  end.

Record SearchResult : Type := MkSearchResult {
  found : bool;
  foundValue : option V
}.

Fixpoint search (word : str) (current : TrieNode) {struct word} : SearchResult :=
  match word with
  | [] => MkSearchResult (isEndOfWord current) (value current)
  | char :: word' =>
      match mapGet [char] (children current) with
      | None => MkSearchResult false None
      | Some next => search word' next
      end
  end.

Fixpoint startsWith (prefix : str) (current : TrieNode) {struct prefix} : bool :=
  match prefix with
  | [] => true
  | char :: prefix' =>
      match mapGet [char] (children current) with
      | None => false
      | Some next => startsWith prefix' next
      end
  end.




End WithValues.
End Trie.

(** * performance: [FastMap]

    A [Map] with a cached array of its keys.  [getKeysArray] hands out the
    cached array itself; what a caller does to that array is outside the
    class and is not followed here. *)

Module FastMap.
Section WithValues.
Variable V : Type.

Record FastMap : Type := MkFastMap {
  mapEntries : JsMap V;
  keyCache : list str;
  cacheValid : bool
}.

Definition empty : FastMap := MkFastMap [] [] false.

Definition set (key : str) (value : V) (m : FastMap) : FastMap :=
  MkFastMap (mapSet key value (mapEntries m)) (keyCache m) false.

(** [super.delete(key)] answers whether the key was present. *)
Definition delete (key : str) (m : FastMap) : bool * FastMap :=
  let result := match mapGet key (mapEntries m) with Some _ => true | None => false end in
  (result,
   MkFastMap (mapDelete key (mapEntries m)) (keyCache m)
     (if result then false else cacheValid m)).

Definition clear (m : FastMap) : FastMap := MkFastMap [] [] false.

Definition getKeysArray (m : FastMap) : list str * FastMap :=
  if negb (cacheValid m) then
    let keys := map fst (mapEntries m) in
    (keys, MkFastMap (mapEntries m) keys true)
  else (keyCache m, m).

Definition findKey (predicate : str -> V -> bool) (m : FastMap) : option str :=
  option_map fst (find (fun kv => predicate (fst kv) (snd kv)) (mapEntries m)).

Definition setMany (entries : list (str * V)) (m : FastMap) : FastMap :=
  MkFastMap
    (fold_left (fun acc kv => mapSet (fst kv) (snd kv) acc) entries (mapEntries m))
    (keyCache m) false.

End WithValues.
End FastMap.

(** * performance: [StringMatcher] *)

From Stdlib Require Import NArith.

Module StringMatcher.

(** [buildBadCharTable]: the loop over [i < pattern.length - 1], [rest]
    being the pattern from [i] on. *)
Fixpoint badCharLoop (patternLength : nat) (rest : str) (i : nat)
  (table : JsMap nat) : JsMap nat :=
  match rest with
  | c :: rest' =>
      if S i <? patternLength
      then badCharLoop patternLength rest' (S i)
             (mapSet [c] (patternLength - 1 - i) table)
      else table
  | [] => table
  end.

Definition buildBadCharTable (pattern : str) : JsMap nat :=
  badCharLoop (length pattern) pattern 0 [].

(** The inner loop [while (j >= 0 && pattern[j] === text[shift + j]) j--]
    entered with [j = n - 1]: [None] stands for [j < 0] at its end,
    [Some j] for a mismatch at [j]. *)
Fixpoint matchDown (pattern text : str) (shift n : nat) : option nat :=
  match n with
  | 0 => None
  | S j =>
      match nth_error pattern j, nth_error text (shift + j) with
      | Some a, Some b =>
          if Ascii.eqb a b then matchDown pattern text shift j else Some j
      | None, None => matchDown pattern text shift j
      | _, _ => Some j
      end
  end.

(** [this.badCharTable.get(badChar) || patternLength] *)
Definition badCharShiftOf (table : JsMap nat) (badChar : option ascii)
  (patternLength : nat) : nat :=
  match badChar with
  | Some c =>
      match mapGet [c] table with
      | Some n => if n =? 0 then patternLength else n
      | None => patternLength
      end
  | None => patternLength
  end.

(** How a call of [search] ends: it returns its matches, or [matches.push]
    throws a [RangeError]; [OutOfFuel] is not an end of the call, it says
    that the iterations given to the loop did not suffice. *)
Inductive outcome : Type :=
| Returned (matches : list nat)
| RangeError
| OutOfFuel.

(** The largest length of an array, $2^{32} - 1$: [push] on an array of
    that length throws a [RangeError] when it sets the new length. *)
Definition maxArrayLength : N := 4294967295%N.

(** The outer loop of [search], given [fuel] iterations. *)
Fixpoint searchLoop (fuel : nat) (pattern : str) (table : JsMap nat) (text : str)
  (shift : nat) (matches : list nat) : outcome :=
  match fuel with
  | 0 => OutOfFuel
  | S f =>
      if shift + length pattern <=? length text then
        match matchDown pattern text shift (length pattern) with
        | None =>
            if N.eqb (N.of_nat (length matches)) maxArrayLength then RangeError
            else
              searchLoop f pattern table text (shift + length pattern)
                (matches ++ [shift])
        | Some j =>
            let badChar := nth_error text (shift + j) in
            let badCharShift := badCharShiftOf table badChar (length pattern) in
            searchLoop f pattern table text (shift + Nat.max 1 (j - badCharShift))
              matches
        end
      else Returned matches
  end.

(** [new StringMatcher(pattern).search(text)] *)
Definition search (fuel : nat) (pattern text : str) : outcome :=
  searchLoop fuel pattern (buildBadCharTable pattern) text 0 [].

End StringMatcher.

(** * performance: [BloomFilter] *)

From Stdlib Require Import ZArith.

Module BloomFilter.

(** The filter after its constructor has run: [size] and the number of
    hash functions are the two numbers the constructor computes from
    [expectedItems] and [falsePositiveRate], and [bitArray] has [size]
    entries, all false. *)
Record BloomFilter : Type := MkBloomFilter {
  bitArray : list bool;
  hashCount : nat;
  size : nat
}.

Definition create (size hashCount : nat) : BloomFilter :=
  MkBloomFilter (repeat false size) hashCount size.

(** [ToInt32] *)
Definition toInt32 (z : Z) : Z :=
  let m := Z.modulo z (2 ^ 32) in
  if Z.leb (2 ^ 31) m then Z.sub m (2 ^ 32) else m.

(** [((hash << 5) - hash + item.charCodeAt(j) + i) & 0xffffffff]: the
    shift and the mask work on 32-bit integers, the subtraction and the
    additions are exact. *)
Definition hashStep (i : nat) (hash : Z) (c : ascii) : Z :=
  toInt32 (Z.add (Z.add (Z.sub (toInt32 (Z.shiftl (toInt32 hash) 5)) hash)
                        (Z.of_nat (code c)))
                 (Z.of_nat i)).

(** The hash function number [i] *)
Definition hashFn (i : nat) (item : str) : Z :=
  Z.abs (fold_left (hashStep i) item 0%Z).

(** [hashFn(item) % this.size], for a [size] that is not 0 *)
Definition indexFor (f : BloomFilter) (i : nat) (item : str) : nat :=
  Z.to_nat (Z.rem (hashFn i item) (Z.of_nat (size f))).

(** [array[index] = true]; an index past the end extends the array, the
    holes reading as [undefined]. *)
Definition setBit (index : nat) (bits : list bool) : list bool :=
  if index <? length bits
  then firstn index bits ++ true :: skipn (S index) bits
  else bits ++ repeat false (index - length bits) ++ [true].

Definition add (item : str) (f : BloomFilter) : BloomFilter :=
  MkBloomFilter
    (fold_left (fun bits i => setBit (indexFor f i item) bits)
               (seq 0 (hashCount f)) (bitArray f))
    (hashCount f) (size f).

Definition mightContain (item : str) (f : BloomFilter) : bool :=
  forallb (fun i => nth (indexFor f i item) (bitArray f) false)
          (seq 0 (hashCount f)).

End BloomFilter.

(** * file-processor.ts: [processFile]

    The files are a map from the path strings the calls are given to
    the size [fs.stat] reports, the text [fs.readFile] returns and, for a
    file that cannot be read or cannot be written, the message of the error
    with which [fs.readFile] or [fs.writeFile] rejects.  A path that is not
    in the map makes [fs.stat] reject with [ENOENT]; a write that is
    refused leaves the file as it is.  What is printed on the console under
    [verbose] is not followed. *)

From Stdlib Require Import NArith DecimalString.

Module ProcessFile.
Import ImportParser PathResolver FileProcessor.

Record File : Type := MkFile {
  fileSize : N;
  fileText : str;
  readError : option str;
  writeError : option str
}.

Definition FileSystem : Type := JsMap File.

(** The number of bytes of a text in UTF-8, for code units up to 255. *)
Definition utf8Length (s : str) : N :=
  fold_left (fun n c => if code c <? 128 then N.add n 1 else N.add n 2) s 0%N.

(** The files after a write that is not refused. *)
Definition writeFile (fs : FileSystem) (path content : str) : FileSystem :=
  match mapGet path fs with
  | Some old =>
      mapSet path (MkFile (utf8Length content) content (readError old) (writeError old))
        fs
  | None => mapSet path (MkFile (utf8Length content) content None None) fs
  end.

(** A number in a template string, for an integer below $10^{21}$. *)
Definition numberToString (n : N) : str :=
  list_ascii_of_string (NilZero.string_of_uint (N.to_uint n)).

(** The options [processFile] reads, each absent ([None]) or given. *)
Record ProcessingOptions : Type := MkProcessingOptions {
  dryRun : option bool;
  verbose : option bool;
  extensions : option (list str);
  maxFileSize : option N
}.

Definition orDefault {A} (x : option A) (d : A) : A :=
  match x with Some v => v | None => d end.

(** [DEFAULT_OPTIONS] *)
Definition defaultExtensions : list str := map js [".ts"; ".tsx"; ".js"; ".jsx"]%string.
Definition defaultMaxFileSize : N := (10 * 1024 * 1024)%N.

(** [extensions.includes(ext)] *)
Definition includesString (l : list str) (s : str) : bool := existsb (str_eqb s) l.

Definition shouldProcessFile (filePath : str) (extensions : list str) : bool :=
  includesString extensions (Path.extname filePath).

(** The loop over the imports, with the module's cache passed along. *)
Fixpoint resolveAll (cwd : str) (resolveCache : LRUCache ConversionResult)
  (resolverState : PathResolverState) (filePath : str) (imports : list ImportMatch)
  : list ConversionResult * LRUCache ConversionResult :=
  match imports with
  | [] => ([], resolveCache)
  | importMatch :: others =>
      let '(conversion, resolveCache) :=
        resolveImport cwd resolveCache resolverState (importPath importMatch) filePath in
      let '(conversions, resolveCache) :=
        resolveAll cwd resolveCache resolverState filePath others in
      (conversion :: conversions, resolveCache)
  end.

(** [processFile(filePath, resolverState, options)]: the result, the files
    and the cache after the call.  An error thrown inside the [try] block
    leaves the result as it is at that point, with the message added to its
    errors: [conversions] and [modified] are set after the write only. *)
Definition processFile (cwd : str) (fs : FileSystem)
  (resolveCache : LRUCache ConversionResult) (filePath : str)
  (resolverState : PathResolverState) (options : ProcessingOptions)
  : ProcessingResult * FileSystem * LRUCache ConversionResult :=
  let optDryRun := orDefault (dryRun options) false in
  let optExtensions := orDefault (extensions options) defaultExtensions in
  let optMaxFileSize := orDefault (maxFileSize options) defaultMaxFileSize in
  let ext := Path.extname filePath in
  if negb (includesString optExtensions ext) then
    (MkProcessingResult filePath [] false
       (Some [js "Unsupported file extension: " ++ ext]), fs, resolveCache)
  else
    match mapGet filePath fs with
    | None =>
        (MkProcessingResult filePath [] false
           (Some [js "Error processing file: "
                  ++ js "ENOENT: no such file or directory, stat '" ++ filePath
                  ++ js "'"]), fs, resolveCache)
    | Some file =>
        if N.ltb optMaxFileSize (fileSize file) then
          (MkProcessingResult filePath [] false
             (Some [js "File too large: " ++ numberToString (fileSize file)
                    ++ js " bytes (max: " ++ numberToString optMaxFileSize
                    ++ js ")"]), fs, resolveCache)
        else
          match readError file with
          | Some message =>
              (MkProcessingResult filePath [] false
                 (Some [js "Error processing file: " ++ message]), fs, resolveCache)
          | None =>
              let content := fileText file in
              let imports := findImports content in
              if length imports =? 0 then
                (MkProcessingResult filePath [] false (Some []), fs, resolveCache)
              else
                let '(conversions, resolveCache) :=
                  resolveAll cwd resolveCache resolverState filePath imports in
                let successfulConversions := filter notNull conversions in
                if length successfulConversions =? 0 then
                  (MkProcessingResult filePath conversions false (Some []), fs,
                   resolveCache)
                else
                  let modifiedContent :=
                    replaceImports content imports successfulConversions in
                  if negb optDryRun && negb (str_eqb modifiedContent content) then
                    match writeError file with
                    | Some message =>
                        (MkProcessingResult filePath [] false
                           (Some [js "Error processing file: " ++ message]), fs,
                         resolveCache)
                    | None =>
                        (MkProcessingResult filePath conversions true (Some []),
                         writeFile fs filePath modifiedContent, resolveCache)
                    end
                  else if negb (str_eqb modifiedContent content) then
                    (MkProcessingResult filePath conversions true (Some []), fs,
                     resolveCache)
                  else
                    (MkProcessingResult filePath conversions false (Some []), fs,
                     resolveCache)
          end
    end.

End ProcessFile.

Unset Implicit Arguments.


(** * Basic facts on strings *)

Lemma str_eqb_eq (a b : str) : str_eqb a b = true <-> a = b.
Proof.
  revert b; induction a as [|x a IH]; intros [|y b]; simpl; split; intro H;
    try reflexivity; try discriminate.
  - apply andb_true_iff in H as [H1 H2]. apply Ascii.eqb_eq in H1.
    apply IH in H2. now subst.
  - injection H as -> ->. apply andb_true_iff. split.
    + apply Ascii.eqb_refl.
    + now apply IH.
Qed.

Lemma str_eqb_refl (a : str) : str_eqb a a = true.
Proof. now apply str_eqb_eq. Qed.

Lemma str_eqb_neq (a b : str) : str_eqb a b = false <-> a <> b.
Proof.
  split; intro H.
  - intros E. apply str_eqb_eq in E. congruence.
  - destruct (str_eqb a b) eqn:E; [|reflexivity].
    apply str_eqb_eq in E. contradiction.
Qed.

Lemma startsWith_app (s p : str) : startsWith s p = true <-> exists t, s = p ++ t.
Proof.
  revert s; induction p as [|c p IH]; intros s; simpl.
  - split; [intros _; now exists s | intros _; destruct s; reflexivity].
  - destruct s as [|d s].
    + split; [discriminate | intros [t H]; discriminate].
    + split.
      * intros H. apply andb_true_iff in H as [H1 H2].
        apply Ascii.eqb_eq in H1. apply IH in H2 as [t ->]. subst. now exists t.
      * intros [t H]. injection H as -> ->. apply andb_true_iff. split.
        -- apply Ascii.eqb_refl.
        -- apply IH. now exists t.
Qed.

(** * The ignore matcher *)

Section Ignore.
Import IgnoreManager.

(** [$.^] matches at no index of no input. *)
Lemma never_matchAt (i : nat) (s : str) : matchAt neverRegExp i s = None.
Proof. unfold matchAt; simpl. destruct s; reflexivity. Qed.

Lemma never_searchFrom (s : str) (i : nat) : searchFrom neverRegExp i s = None.
Proof.
  revert i; induction s as [|c s IH]; intros i; simpl.
  - reflexivity.
  - apply IH.
Qed.

Lemma never_test (s : str) : test neverRegExp s = false.
Proof.
  unfold test, exec. simpl. now rewrite never_searchFrom.
Qed.

(** The pattern lines [compilePatterns] gives the never-matching expression
    to by its first test. *)
Definition degenerate (pattern : str) : bool :=
  let cleanPattern :=
    if startsWith pattern (js "!") then sliceFrom pattern 1 else pattern in
  negb (truthy (trim cleanPattern))
  || str_eqb cleanPattern (js "**") || str_eqb cleanPattern (js "***").

Lemma degenerate_compile (pattern : str) :
  degenerate pattern = true -> compilePattern pattern = neverRegExp.
Proof.
  unfold degenerate, compilePattern. cbv zeta. intros ->. reflexivity.
Qed.

(** The outcome a matching pattern line records. *)
Definition outcomeOf (originalPattern : str) : IgnoreCheckResult :=
  if startsWith originalPattern (js "!")
  then MkIgnoreCheckResult false (Some originalPattern)
         (Some (negationReason originalPattern))
  else MkIgnoreCheckResult true (Some originalPattern)
         (Some (patternReason originalPattern)).

(** The last pattern line, in declaration order, whose compiled predicate
    matches the path. *)
Definition lastMatching (lines : list str) (cleanPath : str) : option str :=
  find (fun p => test (compilePattern p) cleanPath) (rev lines).

Lemma find_snoc {A} (f : A -> bool) (l : list A) (x : A) :
  find f (l ++ [x]) =
  match find f l with
  | Some y => Some y
  | None => if f x then Some x else None
  end.
Proof.
  induction l as [|y l IH]; simpl.
  - reflexivity.
  - destruct (f y); [reflexivity | exact IH].
Qed.

Lemma nth_error_middle {A} (pre : list A) (x : A) (suf : list A) :
  nth_error (pre ++ x :: suf) (length pre) = Some x.
Proof. induction pre; simpl; auto. Qed.

Lemma ignoreLoop_spec (suf pre : list str) (cleanPath : str)
  (lastMatch : option IgnoreCheckResult) :
  ignoreLoop (compilePatterns suf) (pre ++ suf) (length pre) cleanPath lastMatch
  = Some match lastMatching suf cleanPath with
         | Some p => Some (outcomeOf p)
         | None => lastMatch
         end.
Proof.
  revert pre lastMatch; induction suf as [|p suf IH]; intros pre lastMatch.
  - reflexivity.
  - cbn [compilePatterns map ignoreLoop]. rewrite nth_error_middle.
    replace (pre ++ p :: suf) with ((pre ++ [p]) ++ suf) by now rewrite <- app_assoc.
    replace (S (length pre)) with (length (pre ++ [p]))
      by (rewrite length_app; simpl; lia).
    fold (compilePatterns suf). rewrite IH.
    unfold lastMatching. cbn [rev]. rewrite find_snoc.
    destruct (find _ (rev suf)); [reflexivity|].
    unfold outcomeOf.
    destruct (test (compilePattern p) cleanPath); [|reflexivity].
    destruct (startsWith p (js "!")); reflexivity.
Qed.

Lemma shouldIgnore_spec (lines : list str) (dirs : option bool) (filePath : str) :
  shouldIgnore (MkIgnoreState (compilePatterns lines) lines dirs) filePath
  = Some match lastMatching lines (cleanPathOf filePath) with
         | Some p => outcomeOf p
         | None => MkIgnoreCheckResult false None
                     (Some (js "No ignore patterns matched"))
         end.
Proof.
  unfold shouldIgnore. cbn [patterns originalPatterns].
  pose proof (ignoreLoop_spec lines [] (cleanPathOf filePath) None) as H.
  cbn [app length] in H. rewrite H.
  destruct (lastMatching lines (cleanPathOf filePath)); reflexivity.
Qed.

End Ignore.


(** * Maps *)

Section MapFacts.
Variable V : Type.

Lemma mapGet_mapSet_same (k : str) (v : V) (m : JsMap V) :
  mapGet k (mapSet k v m) = Some v.
Proof.
  induction m as [|[k' v'] m IH]; simpl.
  - now rewrite str_eqb_refl.
  - destruct (str_eqb k' k) eqn:E; simpl; rewrite E; [reflexivity | exact IH].
Qed.

Lemma mapGet_mapSet_other (k k0 : str) (v : V) (m : JsMap V) :
  k0 <> k -> mapGet k0 (mapSet k v m) = mapGet k0 m.
Proof.
  intros N. induction m as [|[k' v'] m IH]; simpl.
  - apply str_eqb_neq in N.
    destruct (str_eqb k k0) eqn:E; [|reflexivity].
    apply str_eqb_eq in E. subst. now rewrite str_eqb_refl in N.
  - destruct (str_eqb k' k) eqn:E; simpl.
    + apply str_eqb_eq in E. subst k'.
      destruct (str_eqb k k0) eqn:E0; [|reflexivity].
      apply str_eqb_eq in E0. congruence.
    + destruct (str_eqb k' k0); [reflexivity | exact IH].
Qed.

End MapFacts.

(** * Node's [path.normalize] never returns the empty string *)

Lemma length_zero_iff (s : str) : (length s =? 0) = false -> s <> [].
Proof. destruct s; simpl; [discriminate | intros _; discriminate]. Qed.

Lemma normalize_nonempty (p : str) : Path.normalize p <> [].
Proof.
  unfold Path.normalize.
  destruct (length p =? 0); [discriminate|].
  destruct (length (Path.normalizeString p (negb (startsWith p (js "/")))) =? 0) eqn:E.
  - destruct (startsWith p (js "/")); [discriminate|].
    destruct (endsWith p (js "/")); discriminate.
  - apply length_zero_iff in E.
    destruct (startsWith p (js "/")); [discriminate|].
    destruct (endsWith p (js "/")).
    + intros H. apply app_eq_nil in H as [H _]. contradiction.
    + exact E.
Qed.

(** * The path resolver *)

Section Resolver.
Import PathResolver.

(** The directory string [findBestMatch] compares: the resolved base
    directory without a trailing [/*], normalized. *)
Definition baseDirectory (m : PathMapping) : str :=
  Path.normalize (stripWildcard (resolvedBase m)).

Definition qualifies (normalizedPath : str) (m : PathMapping) : Prop :=
  startsWith normalizedPath (baseDirectory m) = true.

Lemma baseDirectory_length (m : PathMapping) : 0 < length (baseDirectory m).
Proof.
  pose proof (normalize_nonempty (stripWildcard (resolvedBase m))) as H.
  unfold baseDirectory. destruct (Path.normalize _); [contradiction | simpl; lia].
Qed.

(** What the loop of [findBestMatch] has established after the mappings
    [seen]. *)
Definition bestOf (np : str) (seen : list PathMapping)
  (best : option PathMapping * nat) : Prop :=
  match fst best with
  | None =>
      snd best = 0 /\ forall m, In m seen -> startsWith np (baseDirectory m) = false
  | Some b =>
      snd best = length (baseDirectory b) /\
      exists pre post, seen = pre ++ b :: post /\ qualifies np b /\
        (forall m, In m pre -> qualifies np m ->
                   length (baseDirectory m) < length (baseDirectory b)) /\
        (forall m, In m post -> qualifies np m ->
                   length (baseDirectory m) <= length (baseDirectory b))
  end.

Lemma betterMatch_bestOf (np : str) (seen : list PathMapping)
  (best : option PathMapping * nat) (m : PathMapping) :
  bestOf np seen best -> bestOf np (seen ++ [m]) (betterMatch np best m).
Proof.
  unfold bestOf, betterMatch. fold (baseDirectory m).
  destruct best as [[b|] n]; cbn [fst snd]; intros H.
  - destruct H as (-> & pre & post & -> & Q & Hpre & Hpost).
    destruct (startsWith np (baseDirectory m)) eqn:Em.
    + destruct (length (baseDirectory b) <? length (baseDirectory m)) eqn:El; cbn [fst snd].
      * apply Nat.ltb_lt in El. split; [reflexivity|].
        exists (pre ++ b :: post), []. repeat split.
        -- exact Em.
        -- intros x Hx Qx. apply in_app_or in Hx as [Hx | [<- | Hx]].
           ++ specialize (Hpre x Hx Qx). lia.
           ++ exact El.
           ++ specialize (Hpost x Hx Qx). lia.
        -- intros x [].
      * apply Nat.ltb_ge in El. split; [reflexivity|].
        exists pre, (post ++ [m]). repeat split.
        -- now rewrite <- app_assoc.
        -- exact Q.
        -- exact Hpre.
        -- intros x Hx Qx. apply in_app_or in Hx as [Hx | [<- | []]].
           ++ now apply Hpost.
           ++ exact El.
    + cbn [fst snd]. split; [reflexivity|].
      exists pre, (post ++ [m]). repeat split.
      * now rewrite <- app_assoc.
      * exact Q.
      * exact Hpre.
      * intros x Hx Qx. apply in_app_or in Hx as [Hx | [<- | []]].
        -- now apply Hpost.
        -- unfold qualifies in Qx. congruence.
  - destruct H as (-> & Hnone).
    destruct (startsWith np (baseDirectory m)) eqn:Em.
    + pose proof (baseDirectory_length m) as L.
      apply Nat.ltb_lt in L. rewrite L. cbn [fst snd]. split; [reflexivity|].
      exists seen, []. repeat split.
      * exact Em.
      * intros x Hx Qx. unfold qualifies in Qx. rewrite (Hnone x Hx) in Qx. discriminate.
      * intros x [].
    + cbn [fst snd]. split; [reflexivity|].
      intros x Hx. apply in_app_or in Hx as [Hx | [<- | []]]; auto.
Qed.

Lemma fold_bestOf (np : str) (todo seen : list PathMapping)
  (best : option PathMapping * nat) :
  bestOf np seen best ->
  bestOf np (seen ++ todo) (fold_left (betterMatch np) todo best).
Proof.
  revert seen best; induction todo as [|m todo IH]; intros seen best H; simpl.
  - now rewrite app_nil_r.
  - replace (seen ++ m :: todo) with ((seen ++ [m]) ++ todo)
      by now rewrite <- app_assoc.
    apply IH. now apply betterMatch_bestOf.
Qed.

Lemma findBestMatch_bestOf (state : PathResolverState) (p : str) :
  exists n,
    bestOf (Path.normalize p) (allMappings (pathMappings state))
      (findBestMatch state p, n).
Proof.
  unfold findBestMatch.
  pose proof (fold_bestOf (Path.normalize p) (allMappings (pathMappings state)) []
                (None, 0)) as H.
  cbn [app] in H.
  destruct (fold_left _ _ _) as [b n] eqn:E. exists n. cbn [fst].
  apply H. unfold bestOf; cbn. split; [reflexivity | intros m []].
Qed.

(** * The reverse lookup *)

Definition cleanDirectory (m : PathMapping) : str := stripWildcard (resolvedBase m).
Definition cleanAliasOf (m : PathMapping) : str := stripWildcard (alias m).

(** Every directory seen is a key, and every key holds the alias of a
    mapping seen with exactly that directory. *)
Definition reverseOk (seen : list PathMapping) (lookup : JsMap str) : Prop :=
  (forall m, In m seen ->
     exists m', In m' seen /\ cleanDirectory m' = cleanDirectory m /\
                mapGet (cleanDirectory m) lookup = Some (cleanAliasOf m'))
  /\ (forall d a, mapGet d lookup = Some a ->
        exists m', In m' seen /\ cleanDirectory m' = d /\ cleanAliasOf m' = a).

Lemma addAlias_cases (lookup : JsMap str) (m : PathMapping) :
  addAlias lookup m = mapSet (cleanDirectory m) (cleanAliasOf m) lookup
  \/ (addAlias lookup m = lookup /\
      exists a, mapGet (cleanDirectory m) lookup = Some a /\ a <> []).
Proof.
  unfold addAlias. fold (cleanDirectory m) (cleanAliasOf m).
  destruct (mapGet (cleanDirectory m) lookup) as [a|] eqn:E; cbn [orEmpty].
  - destruct a as [|c a]; cbn [truthy negb orb].
    + now left.
    + destruct (_ <? _); [now left|].
      right. split; [reflexivity|]. exists (c :: a). split; [reflexivity | discriminate].
  - now left.
Qed.

Lemma addAlias_reverseOk (seen : list PathMapping) (lookup : JsMap str)
  (m : PathMapping) :
  reverseOk seen lookup -> reverseOk (seen ++ [m]) (addAlias lookup m).
Proof.
  intros [H1 H2].
  destruct (addAlias_cases lookup m) as [-> | [-> (a & Ha & _)]].
  - split.
    + intros x Hx.
      destruct (list_eq_dec ascii_dec (cleanDirectory x) (cleanDirectory m)) as [E|N].
      * exists m. split; [apply in_or_app; right; now left|].
        split; [now symmetry|]. rewrite E. apply mapGet_mapSet_same.
      * apply in_app_or in Hx as [Hx | [<- | []]]; [|contradiction].
        destruct (H1 x Hx) as (m' & Hin & Hd & Hg).
        exists m'. split; [apply in_or_app; now left|]. split; [exact Hd|].
        now rewrite mapGet_mapSet_other.
    + intros d a Hg.
      destruct (list_eq_dec ascii_dec d (cleanDirectory m)) as [E|N].
      * subst d. rewrite mapGet_mapSet_same in Hg. injection Hg as <-.
        exists m. split; [apply in_or_app; right; now left | now split].
      * rewrite mapGet_mapSet_other in Hg by exact N.
        destruct (H2 d a Hg) as (m' & Hin & Hd & Hal).
        exists m'. split; [apply in_or_app; now left | now split].
  - split.
    + intros x Hx. apply in_app_or in Hx as [Hx | [<- | []]].
      * destruct (H1 x Hx) as (m' & Hin & Hd & Hg).
        exists m'. split; [apply in_or_app; now left | now split].
      * destruct (H2 _ _ Ha) as (m' & Hin & Hd & Hal).
        exists m'. split; [apply in_or_app; now left|]. split; [exact Hd|].
        now rewrite Ha, Hal.
    + intros d a' Hg. destruct (H2 d a' Hg) as (m' & Hin & Hd & Hal).
      exists m'. split; [apply in_or_app; now left | now split].
Qed.

Lemma fold_reverseOk (todo seen : list PathMapping) (lookup : JsMap str) :
  reverseOk seen lookup ->
  reverseOk (seen ++ todo) (fold_left addAlias todo lookup).
Proof.
  revert seen lookup; induction todo as [|m todo IH]; intros seen lookup H; simpl.
  - now rewrite app_nil_r.
  - replace (seen ++ m :: todo) with ((seen ++ [m]) ++ todo)
      by now rewrite <- app_assoc.
    apply IH. now apply addAlias_reverseOk.
Qed.

Lemma createPathResolver_reverseOk (config : ParsedConfig) :
  reverseOk (allMappings (configMappings config))
    (aliasLookup (createPathResolver config)).
Proof.
  unfold createPathResolver. cbn [aliasLookup].
  apply (fold_reverseOk (allMappings (configMappings config)) [] []).
  split; [intros m [] | intros d a H; discriminate].
Qed.

End Resolver.


(** * What a match of an expression consumes

    [lang ic r w] says that [w] is a string the expression [r] can consume;
    anchors consume nothing.  The backtracking matcher only ever returns
    such a [w]. *)

Inductive starOf (P : str -> Prop) : str -> Prop :=
| starNil : starOf P []
| starApp (w1 w2 : str) : P w1 -> starOf P w2 -> starOf P (w1 ++ w2).

Fixpoint lang (ic : bool) (r : re) (w : str) : Prop :=
  match r with
  | Empty | Bol | Eol | EolM => w = []
  | Lit c => exists a, w = [a] /\ charEq ic c a = true
  | Dot => exists a, w = [a] /\ isLineTerminator a = false
  | Set_ neg cs => exists a, w = [a] /\ setMatches ic neg cs a = true
  | Seq r1 r2 => exists w1 w2, w = w1 ++ w2 /\ lang ic r1 w1 /\ lang ic r2 w2
  | Alt r1 r2 => lang ic r1 w \/ lang ic r2 w
  | Star r1 | StarLazy r1 => starOf (lang ic r1) w
  | Plus r1 => exists w1 w2, w = w1 ++ w2 /\ lang ic r1 w1 /\ starOf (lang ic r1) w2
  | Opt r1 => w = [] \/ lang ic r1 w
  | Group _ r1 => lang ic r1 w
  end.

(** The groups every match of [r] closes. *)
Fixpoint definesCap (n : nat) (r : re) : bool :=
  match r with
  | Group m r1 => (m =? n) || definesCap n r1
  | Seq r1 r2 => definesCap n r1 || definesCap n r2
  | Alt r1 r2 => definesCap n r1 && definesCap n r2
  | Plus r1 => definesCap n r1
  | _ => false
  end.

Definition hasCap (n : nat) (cs : list (nat * (nat * nat))) : Prop :=
  lookupCap n cs <> None.

(** [st'] is [st] after [w] has been consumed. *)
Definition consumed (w : str) (st st' : mstate) : Prop :=
  rest st = w ++ rest st' /\ idx st' = idx st + length w
  /\ forall n, hasCap n (caps st) -> hasCap n (caps st').

Definition reaches (ic : bool) (r : re) (st st' : mstate) : Prop :=
  exists w, consumed w st st' /\ lang ic r w
            /\ forall n, definesCap n r = true -> hasCap n (caps st').

Lemma consumed_refl (st : mstate) : consumed [] st st.
Proof. unfold consumed; simpl. repeat split; auto. Qed.

Lemma consumed_trans (w1 w2 : str) (a b c : mstate) :
  consumed w1 a b -> consumed w2 b c -> consumed (w1 ++ w2) a c.
Proof.
  intros (R1 & I1 & C1) (R2 & I2 & C2). repeat split.
  - rewrite R1, R2. now rewrite app_assoc.
  - rewrite I2, I1, length_app. lia.
  - auto.
Qed.

Lemma consumed_advance (st : mstate) (a : ascii) (t : str) :
  rest st = a :: t -> consumed [a] st (advance st t).
Proof.
  intros H. unfold consumed, advance; simpl. repeat split; auto. lia.
Qed.

Section Soundness.
Variable ic : bool.

Definition soundBody (body : mstate -> cont -> option mstate) (r : re) : Prop :=
  forall st k res, body st k = Some res ->
    exists st', reaches ic r st st' /\ k st' = Some res.

Definition reachesStar (r : re) (st st' : mstate) : Prop :=
  exists w, consumed w st st' /\ starOf (lang ic r) w.

Lemma starLoop_sound (body : mstate -> cont -> option mstate) (r : re) :
  soundBody body r ->
  forall fuel st k res, starLoop body fuel st k = Some res ->
    exists st', reachesStar r st st' /\ k st' = Some res.
Proof.
  intros Hb. induction fuel as [|f IH]; intros st k res H; simpl in H.
  - exists st. split; [|exact H]. exists []. split; [apply consumed_refl | constructor].
  - destruct (body st _) as [x|] eqn:E.
    + injection H as ->.
      apply Hb in E as (st1 & (w1 & C1 & L1 & _) & K1).
      destruct (idx st1 =? idx st); [discriminate|].
      apply IH in K1 as (st2 & (w2 & C2 & L2) & K2).
      exists st2. split; [|exact K2].
      exists (w1 ++ w2). split; [eapply consumed_trans; eassumption|].
      now constructor.
    + exists st. split; [|exact H]. exists []. split; [apply consumed_refl | constructor].
Qed.

Lemma lazyLoop_sound (body : mstate -> cont -> option mstate) (r : re) :
  soundBody body r ->
  forall fuel st k res, lazyLoop body fuel st k = Some res ->
    exists st', reachesStar r st st' /\ k st' = Some res.
Proof.
  intros Hb. induction fuel as [|f IH]; intros st k res H; simpl in H.
  - exists st. split; [|exact H]. exists []. split; [apply consumed_refl | constructor].
  - destruct (k st) as [x|] eqn:E.
    + injection H as ->. exists st. split; [|exact E].
      exists []. split; [apply consumed_refl | constructor].
    + apply Hb in H as (st1 & (w1 & C1 & L1 & _) & K1).
      destruct (idx st1 =? idx st); [discriminate|].
      apply IH in K1 as (st2 & (w2 & C2 & L2) & K2).
      exists st2. split; [|exact K2].
      exists (w1 ++ w2). split; [eapply consumed_trans; eassumption|].
      now constructor.
Qed.

Lemma oneChar_sound (r : re) (ok : ascii -> bool) (st : mstate) (k : cont)
  (res : mstate) :
  (forall a, ok a = true -> lang ic r [a]) ->
  (forall n, definesCap n r = false) ->
  match rest st with
  | a :: t => if ok a then k (advance st t) else None
  | [] => None
  end = Some res ->
  exists st', reaches ic r st st' /\ k st' = Some res.
Proof.
  intros Hl Hc H. destruct (rest st) as [|a t] eqn:E; [discriminate|].
  destruct (ok a) eqn:O; [|discriminate].
  exists (advance st t). split; [|exact H].
  exists [a]. split; [now apply consumed_advance|]. split; [now apply Hl|].
  intros n Hn. rewrite Hc in Hn. discriminate.
Qed.

Lemma noChar_sound (r : re) (st : mstate) (k : cont) (res : mstate) :
  lang ic r [] -> (forall n, definesCap n r = false) ->
  k st = Some res ->
  exists st', reaches ic r st st' /\ k st' = Some res.
Proof.
  intros Hl Hc H. exists st. split; [|exact H].
  exists []. split; [apply consumed_refl|]. split; [exact Hl|].
  intros n Hn. rewrite Hc in Hn. discriminate.
Qed.

Lemma matchRe_sound (r : re) : soundBody (matchRe ic r) r.
Proof.
  induction r as [ | c | | neg cs | | | | r1 IH1 r2 IH2 | r1 IH1 r2 IH2
                 | r1 IH1 | r1 IH1 | r1 IH1 | r1 IH1 | g r1 IH1 ];
    intros st k res H; cbn [matchRe] in H.
  - (* Empty *) now apply noChar_sound.
  - (* Lit *)
    apply (oneChar_sound (Lit c) (charEq ic c)); auto.
    intros a Ha. simpl. now exists a.
  - (* Dot *)
    apply (oneChar_sound Dot (fun a => negb (isLineTerminator a))); auto.
    + intros a Ha. simpl. exists a. split; [reflexivity|].
      now apply negb_true_iff.
    + destruct (rest st) as [|a t]; [discriminate|].
      destruct (isLineTerminator a); [discriminate | exact H].
  - (* Set_ *)
    apply (oneChar_sound (Set_ neg cs) (setMatches ic neg cs)); auto.
    intros a Ha. simpl. now exists a.
  - (* Bol *)
    destruct (idx st =? 0); [|discriminate]. now apply noChar_sound.
  - (* Eol *)
    destruct (rest st); [|discriminate]. now apply noChar_sound.
  - (* EolM *)
    destruct (rest st) as [|a t]; [now apply noChar_sound|].
    destruct (isLineTerminator a); [|discriminate]. now apply noChar_sound.
  - (* Seq *)
    apply IH1 in H as (st1 & (w1 & C1 & L1 & D1) & K1).
    apply IH2 in K1 as (st2 & (w2 & C2 & L2 & D2) & K2).
    exists st2. split; [|exact K2].
    exists (w1 ++ w2). split; [eapply consumed_trans; eassumption|].
    split; [simpl; now exists w1, w2|].
    intros n Hn. cbn [definesCap] in Hn. apply orb_true_iff in Hn as [Hn|Hn].
    + destruct C2 as (_ & _ & M). apply M. now apply D1.
    + now apply D2.
  - (* Alt *)
    destruct (matchRe ic r1 st k) as [x|] eqn:E.
    + injection H as ->. apply IH1 in E as (st1 & (w1 & C1 & L1 & D1) & K1).
      exists st1. split; [|exact K1]. exists w1. split; [exact C1|].
      split; [simpl; now left|].
      intros n Hn. cbn [definesCap] in Hn. apply andb_true_iff in Hn as [Hn _]. auto.
    + apply IH2 in H as (st1 & (w1 & C1 & L1 & D1) & K1).
      exists st1. split; [|exact K1]. exists w1. split; [exact C1|].
      split; [simpl; now right|].
      intros n Hn. cbn [definesCap] in Hn. apply andb_true_iff in Hn as [_ Hn]. auto.
  - (* Star *)
    apply (starLoop_sound _ _ IH1) in H as (st1 & (w & C & L) & K).
    exists st1. split; [|exact K]. exists w. split; [exact C|].
    split; [exact L | intros n Hn; discriminate].
  - (* StarLazy *)
    apply (lazyLoop_sound _ _ IH1) in H as (st1 & (w & C & L) & K).
    exists st1. split; [|exact K]. exists w. split; [exact C|].
    split; [exact L | intros n Hn; discriminate].
  - (* Plus *)
    apply IH1 in H as (st1 & (w1 & C1 & L1 & D1) & K1).
    apply (starLoop_sound _ _ IH1) in K1 as (st2 & (w2 & C2 & L2) & K2).
    exists st2. split; [|exact K2].
    exists (w1 ++ w2). split; [eapply consumed_trans; eassumption|].
    split; [simpl; now exists w1, w2|].
    intros n Hn. cbn [definesCap] in Hn.
    destruct C2 as (_ & _ & M). apply M. now apply D1.
  - (* Opt *)
    destruct (matchRe ic r1 st _) as [x|] eqn:E.
    + injection H as ->. apply IH1 in E as (st1 & (w1 & C1 & L1 & D1) & K1).
      destruct (idx st1 =? idx st); [discriminate|].
      exists st1. split; [|exact K1]. exists w1. split; [exact C1|].
      split; [simpl; now right | intros n Hn; discriminate].
    + apply noChar_sound; auto. simpl. now left.
  - (* Group *)
    apply IH1 in H as (st1 & (w1 & C1 & L1 & D1) & K1).
    exists (setCap g (idx st) (idx st1) st1). split; [|exact K1].
    exists w1. split.
    + destruct C1 as (R & I & M). unfold consumed, setCap; cbn [rest idx caps].
      repeat split; auto.
      intros n Hn. unfold hasCap. cbn [lookupCap].
      destruct (g =? n); [discriminate | now apply M].
    + split; [exact L1|].
      intros n Hn. unfold setCap, hasCap; cbn [caps lookupCap definesCap] in *.
      destruct (g =? n); [discriminate|]. now apply D1.
Qed.

End Soundness.

(** ** [exec] *)

(** What [exec] promises of a result [r] for the input [content] searched
    from [lastIndex]. *)
Definition execOk (rx : RegExp) (content : str) (lastIndex : nat)
  (r : execResult) : Prop :=
  lastIndex <= mIndex r /\ mIndex r <= length content /\
  exists w tail,
    skipn (mIndex r) content = w ++ tail /\ mEnd r = mIndex r + length w
    /\ lang (reIgnoreCase rx) (reTree rx) w
    /\ forall n, definesCap n (reTree rx) = true -> hasCap n (mCaps r).

Lemma matchAt_sound (rx : RegExp) (i : nat) (s : str) (st : mstate) :
  matchAt rx i s = Some st ->
  exists w, s = w ++ rest st /\ idx st = i + length w
    /\ lang (reIgnoreCase rx) (reTree rx) w
    /\ forall n, definesCap n (reTree rx) = true -> hasCap n (caps st).
Proof.
  unfold matchAt. intros H.
  apply matchRe_sound in H as (st' & (w & (R & I & _) & L & Dc) & K).
  injection K as ->. cbn [rest idx] in *. now exists w.
Qed.

Lemma searchFrom_sound (rx : RegExp) (s : str) (i : nat) (r : execResult) :
  searchFrom rx i s = Some r ->
  i <= mIndex r /\ mIndex r <= i + length s /\
  exists w tail,
    skipn (mIndex r - i) s = w ++ tail /\ mEnd r = mIndex r + length w
    /\ lang (reIgnoreCase rx) (reTree rx) w
    /\ forall n, definesCap n (reTree rx) = true -> hasCap n (mCaps r).
Proof.
  revert i; induction s as [|c s IH]; intros i H; cbn [searchFrom] in H.
  - destruct (matchAt rx i []) as [st|] eqn:E; [|discriminate].
    injection H as <-. cbn [mIndex mEnd mCaps].
    apply matchAt_sound in E as (w & R & I & L & Dc).
    split; [lia|]. split; [lia|]. exists w, (rest st).
    rewrite Nat.sub_diag. cbn [skipn]. auto.
  - destruct (matchAt rx i (c :: s)) as [st|] eqn:E.
    + injection H as <-. cbn [mIndex mEnd mCaps].
      apply matchAt_sound in E as (w & R & I & L & Dc).
      split; [lia|]. split; [simpl; lia|]. exists w, (rest st).
      rewrite Nat.sub_diag. cbn [skipn]. auto.
    + apply IH in H as (Hi & Hl & w & tail & Hs & He & L & Dc).
      split; [lia|]. split; [simpl; lia|]. exists w, tail.
      replace (mIndex r - i) with (S (mIndex r - S i)) by lia.
      cbn [skipn]. auto.
Qed.

Lemma exec_sound (rx : RegExp) (content : str) (lastIndex : nat) (r : execResult) :
  exec rx content lastIndex = Some r -> execOk rx content lastIndex r.
Proof.
  unfold exec. destruct (length content <? lastIndex) eqn:E; [discriminate|].
  apply Nat.ltb_ge in E. intros H.
  apply searchFrom_sound in H as (Hi & Hl & w & tail & Hs & He & L & Dc).
  rewrite length_skipn in Hl.
  split; [exact Hi|]. split; [lia|]. exists w, tail.
  rewrite skipn_skipn in Hs.
  replace (mIndex r - lastIndex + lastIndex) with (mIndex r) in Hs by lia. auto.
Qed.

(** An expression all of whose matches consume something. *)
Definition consuming (rx : RegExp) : Prop :=
  forall w, lang (reIgnoreCase rx) (reTree rx) w -> w <> [].

Lemma execOk_end (rx : RegExp) (content : str) (i : nat) (r : execResult) :
  execOk rx content i r -> mEnd r <= length content.
Proof.
  intros (_ & Hl & w & tail & Hs & He & _).
  pose proof (f_equal (@length _) Hs) as E.
  rewrite length_skipn, length_app in E. lia.
Qed.

Lemma execOk_progress (rx : RegExp) (content : str) (i : nat) (r : execResult) :
  consuming rx -> execOk rx content i r -> mIndex r < mEnd r.
Proof.
  intros Hc (_ & _ & w & tail & _ & He & L & _).
  apply Hc in L. destruct w; [contradiction | simpl in He; lia].
Qed.

(** With a consuming expression the loop ends because [exec] returns
    [null]: more fuel than code units left changes nothing. *)
Lemma execLoop_fuel (rx : RegExp) (content : str) :
  consuming rx ->
  forall f1 f2 i, length content < f1 + i -> length content < f2 + i ->
    execLoop f1 rx content i = execLoop f2 rx content i.
Proof.
  intros Hc. induction f1 as [|f1 IH]; intros f2 i H1 H2.
  - destruct f2 as [|f2]; [reflexivity|]. cbn [execLoop].
    unfold exec. replace (length content <? i) with true; [reflexivity|].
    symmetry. apply Nat.ltb_lt. lia.
  - destruct f2 as [|f2]; cbn [execLoop].
    + unfold exec. replace (length content <? i) with true; [reflexivity|].
      symmetry. apply Nat.ltb_lt. lia.
    + destruct (exec rx content i) as [r|] eqn:E; [|reflexivity].
      apply exec_sound in E.
      pose proof (execOk_progress _ _ _ _ Hc E) as P.
      destruct E as (Hi & _). f_equal. apply IH; lia.
Qed.

(** The matches of a loop, in order: each satisfies [execOk] from index 0,
    and each starts at or after the end of the one before. *)
Lemma execLoop_sound (rx : RegExp) (content : str) :
  consuming rx ->
  forall fuel i,
    Forall (fun r => execOk rx content i r) (execLoop fuel rx content i)
    /\ StronglySorted (fun a b => mIndex a < mIndex b) (execLoop fuel rx content i).
Proof.
  intros Hc. induction fuel as [|f IH]; intros i; cbn [execLoop].
  - split; constructor.
  - destruct (exec rx content i) as [r|] eqn:E; [|split; constructor].
    apply exec_sound in E. pose proof (execOk_progress _ _ _ _ Hc E) as P.
    destruct (IH (mEnd r)) as [F S]. split.
    + constructor; [exact E|].
      eapply Forall_impl; [|exact F]. intros x (H1 & H2 & H3).
      destruct E as (Hi & _). split; [lia|]. now split.
    + constructor; [exact S|].
      eapply Forall_impl; [|exact F]. intros x (H1 & _). lia.
Qed.


(** * Code units *)

Lemma code_inj (a b : ascii) : code a = code b -> a = b.
Proof.
  unfold code. intros H.
  rewrite <- (ascii_nat_embedding a), <- (ascii_nat_embedding b). now rewrite H.
Qed.

Lemma charEq_exact (c a : ascii) : charEq false c a = true -> a = c.
Proof.
  unfold charEq, canonicalize. intros H. apply Nat.eqb_eq in H.
  symmetry. now apply code_inj.
Qed.

Ltac all_ascii a := destruct a as [[] [] [] [] [] [] [] []].

Lemma space_not_word (a : ascii) : isSpace a = true -> isWord a = false.
Proof. all_ascii a; vm_compute; congruence. Qed.

Lemma word_not_space (a : ascii) : isWord a = true -> isSpace a = false.
Proof. all_ascii a; vm_compute; congruence. Qed.

(** * The import patterns *)

Section Patterns.
Import ImportParser.

Definition isQuote (c : ascii) : bool := setMatches false false quotes c.

Lemma quote_not_space (a : ascii) : isQuote a = true -> isSpace a = false.
Proof. all_ascii a; vm_compute; congruence. Qed.

Fixpoint dropWhile (f : ascii -> bool) (s : str) : str :=
  match s with
  | c :: s' => if f c then dropWhile f s' else s
  | [] => []
  end.

Definition stopsAt (f : ascii -> bool) (s : str) : Prop :=
  match s with c :: _ => f c = false | [] => True end.

Lemma dropWhile_app (f : ascii -> bool) (ws s : str) :
  Forall (fun c => f c = true) ws -> stopsAt f s -> dropWhile f (ws ++ s) = s.
Proof.
  intros H S. induction H as [|c ws Hc _ IH]; simpl.
  - destruct s as [|d s]; [reflexivity|]. simpl in *. now rewrite S.
  - now rewrite Hc.
Qed.

(** The syntax a statement that starts at the head of [s] can belong to,
    read off the first tokens. *)
Inductive syntaxKind : Type :=
| KNamed | KDefault | KNamespace | KMixed | KSide | KRequire | KDynamic.

Definition classify (s : str) : option syntaxKind :=
  if startsWith s (js "require") then Some KRequire
  else if startsWith s (js "import") then
    match dropWhile isSpace (skipn 6 s) with
    | c :: s1 =>
        if Ascii.eqb c "{" then Some KNamed
        else if Ascii.eqb c "*" then Some KNamespace
        else if Ascii.eqb c "(" then Some KDynamic
        else if isQuote c then Some KSide
        else if isWord c then
          match dropWhile isSpace (dropWhile isWord s1) with
          | d :: _ => if Ascii.eqb d "," then Some KMixed else Some KDefault
          | [] => Some KDefault
          end
        else None
    | [] => None
    end
  else None.

Lemma word_head (a : ascii) :
  isWord a = true ->
  Ascii.eqb a "{" = false /\ Ascii.eqb a "*" = false /\ Ascii.eqb a "(" = false
  /\ isQuote a = false.
Proof. all_ascii a; vm_compute; intros; repeat split; congruence. Qed.

Lemma quote_head (a : ascii) :
  isQuote a = true ->
  Ascii.eqb a "{" = false /\ Ascii.eqb a "*" = false /\ Ascii.eqb a "(" = false.
Proof. all_ascii a; vm_compute; intros; repeat split; congruence. Qed.

(** ** The strings the pieces consume *)

Lemma lang_lits (s w : str) : lang false (lits s) w -> w = s.
Proof.
  revert w; induction s as [|c s IH]; intros w H.
  - exact H.
  - destruct s as [|d s].
    + destruct H as (a & -> & H). apply charEq_exact in H. now subst.
    + destruct H as (w1 & w2 & -> & (a & -> & H1) & H2).
      apply charEq_exact in H1. apply IH in H2. now subst.
Qed.

Lemma starOf_chars (ic neg : bool) (cs : list cset) (w : str) :
  starOf (lang ic (Set_ neg cs)) w ->
  Forall (fun a => setMatches ic neg cs a = true) w.
Proof.
  induction 1 as [|w1 w2 (a & -> & Ha) _ IH]; [constructor|].
  simpl. now constructor.
Qed.

Lemma plus_chars (ic neg : bool) (cs : list cset) (w : str) :
  lang ic (Plus (Set_ neg cs)) w ->
  exists a t, w = a :: t /\ setMatches ic neg cs a = true
              /\ Forall (fun a => setMatches ic neg cs a = true) t.
Proof.
  intros (w1 & w2 & -> & (a & -> & Ha) & H). apply starOf_chars in H.
  now exists a, w2.
Qed.

Lemma spaces_set (ic : bool) (a : ascii) :
  setMatches ic false [CsSpace] a = isSpace a.
Proof. unfold setMatches; simpl. now rewrite orb_false_r. Qed.

Lemma words_set (ic : bool) (a : ascii) :
  setMatches ic false [CsWord] a = isWord a.
Proof. unfold setMatches; simpl. now rewrite orb_false_r. Qed.

Lemma Forall_ext_eq {A} (P Q : A -> Prop) (l : list A) :
  (forall x, P x -> Q x) -> Forall P l -> Forall Q l.
Proof. intros H F. eapply Forall_impl; eauto. Qed.

Lemma lang_ws0 (ic : bool) (w : str) :
  lang ic ws0 w -> Forall (fun c => isSpace c = true) w.
Proof.
  intros H. apply starOf_chars in H.
  eapply Forall_ext_eq; [|exact H]. intros x Hx. cbv beta in Hx. now rewrite spaces_set in Hx.
Qed.

Lemma lang_ws1 (ic : bool) (w : str) :
  lang ic ws1 w ->
  exists a t, w = a :: t /\ isSpace a = true /\ Forall (fun c => isSpace c = true) t.
Proof.
  intros H. apply plus_chars in H as (a & t & -> & Ha & Ht).
  exists a, t. rewrite spaces_set in Ha. repeat split; auto.
  eapply Forall_ext_eq; [|exact Ht]. intros x Hx. cbv beta in Hx. now rewrite spaces_set in Hx.
Qed.

Lemma lang_ws1_all (ic : bool) (w : str) :
  lang ic ws1 w -> Forall (fun c => isSpace c = true) w.
Proof.
  intros H. apply lang_ws1 in H as (a & t & -> & Ha & Ht). now constructor.
Qed.

Lemma lang_word1 (ic : bool) (w : str) :
  lang ic word1 w ->
  exists a t, w = a :: t /\ isWord a = true /\ Forall (fun c => isWord c = true) t.
Proof.
  intros H. apply plus_chars in H as (a & t & -> & Ha & Ht).
  exists a, t. rewrite words_set in Ha. repeat split; auto.
  eapply Forall_ext_eq; [|exact Ht]. intros x Hx. cbv beta in Hx. now rewrite words_set in Hx.
Qed.

Lemma lang_quote (w : str) :
  lang false quote w -> exists a, w = [a] /\ isQuote a = true.
Proof. intros (a & -> & H). now exists a. Qed.

Lemma lang_braces (w : str) :
  lang false braces w -> exists t, w = "{"%char :: t.
Proof.
  unfold braces. cbn [seqs].
  intros (w1 & w2 & -> & (a & -> & Ha) & _).
  apply charEq_exact in Ha. subst. now exists w2.
Qed.

Lemma lang_lit (c : ascii) (w : str) : lang false (Lit c) w -> w = [c].
Proof. intros (a & -> & Ha). apply charEq_exact in Ha. now subst. Qed.

(** ** Each pattern matches statements of one syntax only *)

Definition kindOf (rx : RegExp) (k : syntaxKind) : Prop :=
  forall w tail, lang false (reTree rx) w -> classify (w ++ tail) = Some k.

Ltac seq_split H w1 L1 :=
  destruct H as (w1 & ?w & -> & L1 & H).

Lemma classify_import (ws s : str) :
  Forall (fun c => isSpace c = true) ws -> stopsAt isSpace s ->
  classify (js "import" ++ ws ++ s) =
  match s with
  | c :: s1 =>
      if Ascii.eqb c "{" then Some KNamed
      else if Ascii.eqb c "*" then Some KNamespace
      else if Ascii.eqb c "(" then Some KDynamic
      else if isQuote c then Some KSide
      else if isWord c then
        match dropWhile isSpace (dropWhile isWord s1) with
        | d :: _ => if Ascii.eqb d "," then Some KMixed else Some KDefault
        | [] => Some KDefault
        end
      else None
  | [] => None
  end.
Proof.
  intros Hw Hs. unfold classify.
  change (js "import" ++ ws ++ s)
    with ("i"%char :: "m"%char :: "p"%char :: "o"%char :: "r"%char :: "t"%char :: ws ++ s).
  cbn [startsWith js list_ascii_of_string Ascii.eqb Bool.eqb andb skipn].
  now rewrite dropWhile_app.
Qed.

Lemma kind_named : kindOf ES6_NAMED_IMPORT KNamed.
Proof.
  intros w tail H. cbn [reTree ES6_NAMED_IMPORT seqs app quoted] in H.
  seq_split H w1 L1. seq_split H w2 L2. seq_split H w3 L3.
  apply lang_lits in L1. apply lang_ws1_all in L2.
  apply lang_braces in L3 as (t & ->). subst w1.
  repeat rewrite <- app_assoc. rewrite classify_import by (auto; reflexivity).
  reflexivity.
Qed.

Lemma kind_namespace : kindOf ES6_NAMESPACE_IMPORT KNamespace.
Proof.
  intros w tail H. cbn [reTree ES6_NAMESPACE_IMPORT seqs app quoted] in H.
  seq_split H w1 L1. seq_split H w2 L2. seq_split H w3 L3.
  apply lang_lits in L1. apply lang_ws1_all in L2. apply lang_lit in L3. subst w1 w3.
  repeat rewrite <- app_assoc. rewrite classify_import by (auto; reflexivity).
  reflexivity.
Qed.

Lemma kind_dynamic : kindOf DYNAMIC_IMPORT KDynamic.
Proof.
  intros w tail H. cbn [reTree DYNAMIC_IMPORT seqs app quoted] in H.
  seq_split H w1 L1. seq_split H w2 L2. seq_split H w3 L3.
  apply lang_lits in L1. apply lang_ws0 in L2. apply lang_lit in L3. subst w1 w3.
  repeat rewrite <- app_assoc. rewrite classify_import by (auto; reflexivity).
  reflexivity.
Qed.

Lemma kind_side : kindOf ES6_IMPORT_SIDE_EFFECT KSide.
Proof.
  intros w tail H. cbn [reTree ES6_IMPORT_SIDE_EFFECT seqs app quoted] in H.
  seq_split H w1 L1. seq_split H w2 L2. seq_split H w3 L3.
  apply lang_lits in L1. apply lang_ws1_all in L2.
  apply lang_quote in L3 as (a & -> & Ha). subst w1.
  repeat rewrite <- app_assoc.
  rewrite classify_import by (auto; simpl; now apply quote_not_space).
  cbn [app]. destruct (quote_head a Ha) as (-> & -> & ->). now rewrite Ha.
Qed.

Lemma kind_require : kindOf COMMONJS_REQUIRE KRequire.
Proof.
  intros w tail H. cbn [reTree COMMONJS_REQUIRE seqs app quoted] in H.
  seq_split H w1 L1. apply lang_lits in L1. subst w1.
  reflexivity.
Qed.

Lemma after_word (a : ascii) (t s : str) :
  isWord a = true -> Forall (fun c => isWord c = true) t -> stopsAt isWord s ->
  forall ws, Forall (fun c => isSpace c = true) ws ->
  classify (js "import" ++ ws ++ (a :: t) ++ s) =
  match dropWhile isSpace s with
  | d :: _ => if Ascii.eqb d "," then Some KMixed else Some KDefault
  | [] => Some KDefault
  end.
Proof.
  intros Ha Ht Hs ws Hws.
  rewrite classify_import by (auto; simpl; now apply word_not_space).
  cbn [app]. destruct (word_head a Ha) as (-> & -> & -> & ->). rewrite Ha.
  now rewrite dropWhile_app.
Qed.

Lemma kind_default : kindOf ES6_DEFAULT_IMPORT KDefault.
Proof.
  intros w tail H. cbn [reTree ES6_DEFAULT_IMPORT seqs app quoted] in H.
  seq_split H w1 L1. seq_split H w2 L2. seq_split H w3 L3.
  seq_split H w4 L4. seq_split H w5 L5.
  apply lang_lits in L1. apply lang_ws1_all in L2.
  apply lang_word1 in L3 as (a & t & -> & Ha & Ht).
  apply lang_ws1 in L4 as (b & u & -> & Hb & Hu).
  apply lang_lits in L5. subst w1 w5.
  repeat rewrite <- app_assoc.
  rewrite after_word; auto.
  - cbn [app dropWhile]. rewrite Hb. rewrite dropWhile_app; auto; reflexivity.
  - simpl. now apply space_not_word.
Qed.

Lemma kind_mixed : kindOf ES6_MIXED_IMPORT KMixed.
Proof.
  intros w tail H. cbn [reTree ES6_MIXED_IMPORT seqs app quoted] in H.
  seq_split H w1 L1. seq_split H w2 L2. seq_split H w3 L3.
  seq_split H w4 L4. seq_split H w5 L5.
  apply lang_lits in L1. apply lang_ws1_all in L2.
  apply lang_word1 in L3 as (a & t & -> & Ha & Ht).
  apply lang_ws0 in L4. apply lang_lit in L5. subst w1 w5.
  repeat rewrite <- app_assoc.
  rewrite after_word; auto.
  - rewrite dropWhile_app; auto; reflexivity.
  - destruct L4 as [|b u Hb _]; simpl; [reflexivity | now apply space_not_word].
Qed.

Lemma classify_nil : classify [] = None.
Proof. reflexivity. Qed.

Lemma kindOf_consuming (rx : RegExp) (k : syntaxKind) :
  reIgnoreCase rx = false -> kindOf rx k -> consuming rx.
Proof.
  intros Hi Hk w L ->. rewrite Hi in L.
  specialize (Hk [] [] L). discriminate.
Qed.

(** The patterns in the order of the passes, with their syntax. *)
Definition patternTable : list (ImportType * RegExp * syntaxKind) :=
  [(es6, ES6_NAMED_IMPORT, KNamed); (es6, ES6_DEFAULT_IMPORT, KDefault);
   (es6, ES6_NAMESPACE_IMPORT, KNamespace); (es6, ES6_MIXED_IMPORT, KMixed);
   (es6, ES6_IMPORT_SIDE_EFFECT, KSide); (commonjs, COMMONJS_REQUIRE, KRequire);
   (dynamic, DYNAMIC_IMPORT, KDynamic)].

Definition goodPattern (rx : RegExp) (k : syntaxKind) : Prop :=
  reIgnoreCase rx = false /\ kindOf rx k /\ definesCap 1 (reTree rx) = true.

Lemma patternTable_good :
  Forall (fun e => goodPattern (snd (fst e)) (snd e)) patternTable.
Proof.
  unfold patternTable, goodPattern.
  repeat constructor; cbn [fst snd];
    first [ reflexivity | apply kind_named | apply kind_default
          | apply kind_namespace | apply kind_mixed | apply kind_side
          | apply kind_require | apply kind_dynamic ].
Qed.

End Patterns.


(** * The stable sort *)

Section SortFacts.
Variable A : Type.
Variable le : A -> A -> bool.
Hypothesis le_total : forall a b, le a b = true \/ le b a = true.
Hypothesis le_trans : forall a b c, le a b = true -> le b c = true -> le a c = true.

Lemma insertSorted_perm (x : A) (l : list A) :
  Permutation (insertSorted le x l) (x :: l).
Proof.
  induction l as [|y l IH]; simpl.
  - apply Permutation_refl.
  - destruct (le x y).
    + apply Permutation_refl.
    + eapply Permutation_trans; [apply perm_skip, IH | apply perm_swap].
Qed.

Lemma sortStable_perm (l : list A) : Permutation (sortStable le l) l.
Proof.
  induction l as [|x l IH]; simpl.
  - apply Permutation_refl.
  - eapply Permutation_trans; [apply insertSorted_perm | now apply perm_skip].
Qed.

Lemma insertSorted_sorted (x : A) (l : list A) :
  StronglySorted (fun a b => le a b = true) l ->
  StronglySorted (fun a b => le a b = true) (insertSorted le x l).
Proof.
  induction 1 as [|y l S IH F]; simpl.
  - constructor; constructor.
  - destruct (le x y) eqn:E.
    + constructor; [now constructor|]. constructor; [exact E|].
      eapply Forall_impl; [|exact F]. intros z Hz. eapply le_trans; eauto.
    + constructor; [exact IH|].
      assert (Hyx : le y x = true) by (destruct (le_total x y); congruence).
      eapply Permutation_Forall; [apply Permutation_sym, insertSorted_perm|].
      now constructor.
Qed.

Lemma sortStable_sorted (l : list A) :
  StronglySorted (fun a b => le a b = true) (sortStable le l).
Proof.
  induction l as [|x l IH]; simpl; [constructor | now apply insertSorted_sorted].
Qed.

End SortFacts.

(** A list sorted by a key without repeated keys is strictly sorted. *)
Lemma sorted_nodup_strict {A} (key : A -> nat) (l : list A) :
  StronglySorted (fun a b => key a <= key b) l -> NoDup (map key l) ->
  StronglySorted (fun a b => key a < key b) l.
Proof.
  induction 1 as [|x l S IH F]; intros N; [constructor|].
  simpl in N. inversion N as [|? ? Hn N']; subst.
  constructor; [now apply IH|].
  rewrite Forall_forall in *. intros y Hy.
  specialize (F y Hy).
  assert (key x <> key y) by (intros E; apply Hn; rewrite E; now apply in_map).
  lia.
Qed.

Lemma strict_nodup {A} (key : A -> nat) (l : list A) :
  StronglySorted (fun a b => key a < key b) l -> NoDup (map key l).
Proof.
  induction 1 as [|x l S IH F]; simpl; constructor; [|exact IH].
  intros Hin. apply in_map_iff in Hin as (y & E & Hy).
  rewrite Forall_forall in F. specialize (F y Hy). lia.
Qed.

Lemma NoDup_map_fst {A B C} (f : A -> B) (g : A -> B * C) (l : list A) :
  (forall x, fst (g x) = f x) -> NoDup (map f l) -> NoDup (map g l).
Proof.
  intros H. induction l as [|x l IH]; simpl; intros N; [constructor|].
  inversion N as [|? ? Hn N']; subst. constructor; [|now apply IH].
  intros Hin. apply Hn. apply in_map_iff in Hin as (y & E & Hy).
  apply in_map_iff. exists y. split; [|exact Hy].
  now rewrite <- (H y), <- (H x), E.
Qed.

(** * [trim] keeps a leading code unit that is not white space *)

Lemma trimStart_snoc (s : str) (c : ascii) :
  isSpace c = false -> trimStart (s ++ [c]) = trimStart s ++ [c].
Proof.
  intros Hc. induction s as [|d s IH]; simpl.
  - now rewrite Hc.
  - destruct (isSpace d); [exact IH | reflexivity].
Qed.

Lemma trimEnd_cons (c : ascii) (s : str) :
  isSpace c = false -> trimEnd (c :: s) = c :: trimEnd s.
Proof.
  intros Hc. unfold trimEnd. simpl. rewrite trimStart_snoc by exact Hc.
  now rewrite rev_app_distr.
Qed.

Lemma trim_cons2 (c d : ascii) (s : str) :
  isSpace c = false -> isSpace d = false ->
  trim (c :: d :: s) = c :: d :: trimEnd s.
Proof.
  intros Hc Hd. unfold trim. simpl. rewrite Hc.
  now rewrite !trimEnd_cons.
Qed.

Lemma trim_cons3 (c d e : ascii) (s : str) :
  isSpace c = false -> isSpace d = false -> isSpace e = false ->
  trim (c :: d :: e :: s) = c :: d :: e :: trimEnd s.
Proof.
  intros Hc Hd He. unfold trim. simpl. rewrite Hc.
  now rewrite !trimEnd_cons.
Qed.

Section FindImports.
Import ImportParser.

Lemma isRelative_cases (l : str) :
  isRelative l = true ->
  (exists t, l = "."%char :: "/"%char :: t)
  \/ (exists t, l = "."%char :: "."%char :: "/"%char :: t).
Proof.
  unfold isRelative. intros H. apply orb_true_iff in H as [H|H];
    apply startsWith_app in H as [t ->]; [left | right]; now exists t.
Qed.

Lemma isRelative_trim (l : str) : isRelative l = true -> isRelative (trim l) = true.
Proof.
  intros H. apply isRelative_cases in H as [[t ->] | [t ->]].
  - now rewrite trim_cons2.
  - now rewrite trim_cons3.
Qed.

Lemma validateImportPath_some (l p : str) :
  validateImportPath l = Some p ->
  p = trim l /\ p <> [] /\ includes p [ascii_of_nat 10] = false
  /\ includes p [ascii_of_nat 13] = false.
Proof.
  unfold validateImportPath. destruct (truthy l); [|discriminate]. cbn [negb].
  destruct (length (trim l) =? 0) eqn:E1; [discriminate|].
  destruct (includes (trim l) [ascii_of_nat 10]) eqn:E2; [discriminate|].
  destruct (includes (trim l) [ascii_of_nat 13]) eqn:E3; [discriminate|].
  cbn [orb]. intros H. injection H as <-. repeat split; auto.
  destruct (trim l); [discriminate | discriminate].
Qed.

Lemma validateImportPath_relative (l : str) :
  isRelative l = true ->
  includes (trim l) [ascii_of_nat 10] = false ->
  includes (trim l) [ascii_of_nat 13] = false ->
  validateImportPath l = Some (trim l).
Proof.
  intros R H1 H2. unfold validateImportPath. rewrite H1, H2.
  pose proof (isRelative_trim l R) as T.
  apply isRelative_cases in R as [[t ->] | [t ->]];
    (destruct (trim _) eqn:E; [discriminate T | reflexivity]).
Qed.

(** ** One pass *)

Definition keyOf (m : ImportMatch) : nat * str := (startIndex m, importPath m).

Definition entryOf (ty : ImportType) (content : str) (r : execResult) (l : str)
  : ImportMatch :=
  MkImportMatch (matched content r) l (mIndex r)
    (mIndex r + length (matched content r)) ty.

(** The literal a match captured, with the offset of the match. *)
Definition literalOf (content : str) (r : execResult) : list (nat * str) :=
  match capture content r 1 with
  | Some l => [(mIndex r, l)]
  | None => []
  end.

(** The entries a loop pushes for the matches [rs]. *)
Fixpoint collected (ty : ImportType) (content : str) (rs : list execResult)
  : list ImportMatch :=
  match rs with
  | [] => []
  | r :: rs' =>
      match capture content r 1 with
      | Some l =>
          if isRelative l then entryOf ty content r l :: collected ty content rs'
          else collected ty content rs'
      | None => collected ty content rs'
      end
  end.

Lemma hasCap_capture (content : str) (r : execResult) :
  hasCap 1 (mCaps r) -> exists l, capture content r 1 = Some l.
Proof.
  unfold hasCap, capture. destruct (lookupCap 1 (mCaps r)) as [[a b]|]; [|contradiction].
  intros _. now eexists.
Qed.

Lemma collect_collected (ty : ImportType) (content : str) (rs : list execResult) :
  Forall (fun r => hasCap 1 (mCaps r)) rs ->
  collect ty content rs = Some (collected ty content rs).
Proof.
  induction 1 as [|r rs Hr _ IH]; cbn [collect collected]; [reflexivity|].
  destruct (hasCap_capture content r Hr) as [l ->]. rewrite IH.
  destruct (isRelative l); reflexivity.
Qed.

Lemma collected_keys (ty : ImportType) (content : str) (rs : list execResult) :
  map keyOf (collected ty content rs)
  = filter (fun e => isRelative (snd e)) (flat_map (literalOf content) rs).
Proof.
  induction rs as [|r rs IH]; cbn [collected flat_map]; [reflexivity|].
  rewrite filter_app. unfold literalOf at 1.
  destruct (capture content r 1) as [l|]; cbn [filter snd app]; [|exact IH].
  destruct (isRelative l); cbn [map app]; now rewrite IH.
Qed.

Lemma collected_In (ty : ImportType) (content : str) (rs : list execResult)
  (m : ImportMatch) :
  In m (collected ty content rs) ->
  exists r, In r rs /\ startIndex m = mIndex r.
Proof.
  induction rs as [|r rs IH]; cbn [collected]; [intros []|].
  intros H.
  assert (In m (collected ty content rs) -> exists r0, In r0 (r :: rs) /\ startIndex m = mIndex r0).
  { intros H'. destruct (IH H') as (r0 & Hr0 & E). exists r0. split; [now right | exact E]. }
  destruct (capture content r 1) as [l|]; [|now auto].
  destruct (isRelative l); [|now auto].
  destruct H as [<- | H]; [|now auto].
  exists r. split; [now left | reflexivity].
Qed.

Lemma collected_sorted (ty : ImportType) (content : str) (rs : list execResult) :
  StronglySorted (fun a b => mIndex a < mIndex b) rs ->
  StronglySorted (fun a b => startIndex a < startIndex b) (collected ty content rs).
Proof.
  induction 1 as [|r rs S IH F]; cbn [collected]; [constructor|].
  destruct (capture content r 1) as [l|]; [|exact IH].
  destruct (isRelative l); [|exact IH].
  constructor; [exact IH|].
  rewrite Forall_forall in *. intros m Hm.
  apply collected_In in Hm as (r0 & Hr0 & ->). cbn [entryOf startIndex].
  now apply F.
Qed.

(** ** All passes *)

Definition loopOf (rx : RegExp) (content : str) : list execResult :=
  execLoop (S (length content)) rx content 0.

Definition matchesOfTable (table : list (ImportType * RegExp * syntaxKind))
  (content : str) : list ImportMatch :=
  flat_map (fun e => collected (fst (fst e)) content (loopOf (snd (fst e)) content))
           table.

Definition allMatchesOf (content : str) : list ImportMatch :=
  matchesOfTable patternTable content.

Definition literalsOf (rx : RegExp) (content : str) : list (nat * str) :=
  flat_map (literalOf content) (loopOf rx content).

(** Every literal the seven patterns find in [content], relative or not,
    with the offset of its statement. *)
Definition rawLiterals (content : str) : list (nat * str) :=
  flat_map (fun e => literalsOf (snd (fst e)) content) patternTable.

Lemma loopOf_sound (rx : RegExp) (k : syntaxKind) (content : str) :
  goodPattern rx k ->
  Forall (fun r => hasCap 1 (mCaps r)
                   /\ classify (skipn (mIndex r) content) = Some k)
         (loopOf rx content)
  /\ StronglySorted (fun a b => mIndex a < mIndex b) (loopOf rx content).
Proof.
  intros (Hi & Hk & Hc).
  pose proof (kindOf_consuming rx k Hi Hk) as Hcons.
  destruct (execLoop_sound rx content Hcons (S (length content)) 0) as [F S].
  split; [|exact S].
  eapply Forall_impl; [|exact F].
  intros r (_ & _ & w & tail & Hs & _ & L & Dc). split; [now apply Dc|].
  rewrite Hs. apply Hk. now rewrite Hi in L.
Qed.

(** The fuel given to the loop is enough: any larger amount gives the same
    matches. *)
Lemma loopOf_fuel (rx : RegExp) (k : syntaxKind) (content : str) (fuel : nat) :
  goodPattern rx k -> length content < fuel ->
  execLoop fuel rx content 0 = loopOf rx content.
Proof.
  intros (Hi & Hk & _) Hf. unfold loopOf.
  apply execLoop_fuel; [eapply kindOf_consuming; eassumption | lia | lia].
Qed.

Lemma pass_collected (ty : ImportType) (rx : RegExp) (k : syntaxKind) (content : str) :
  goodPattern rx k ->
  pass ty rx content = Some (collected ty content (loopOf rx content)).
Proof.
  intros G. unfold pass. apply collect_collected.
  destruct (loopOf_sound rx k content G) as [F _].
  eapply Forall_impl; [|exact F]. now intros r [H _].
Qed.

Lemma good_at (n : nat) :
  match nth_error patternTable n with
  | Some e => goodPattern (snd (fst e)) (snd e)
  | None => True
  end.
Proof.
  pose proof patternTable_good as G. rewrite Forall_forall in G.
  destruct (nth_error patternTable n) eqn:E; [|exact I].
  apply G. eapply nth_error_In; eassumption.
Qed.

Lemma parseES6Imports_eq (content : str) :
  parseES6Imports content
  = Some (matchesOfTable (firstn 5 patternTable) content).
Proof.
  unfold parseES6Imports, es6Patterns. cbn [passes].
  rewrite (pass_collected es6 ES6_NAMED_IMPORT KNamed content (good_at 0)).
  rewrite (pass_collected es6 ES6_DEFAULT_IMPORT KDefault content (good_at 1)).
  rewrite (pass_collected es6 ES6_NAMESPACE_IMPORT KNamespace content (good_at 2)).
  rewrite (pass_collected es6 ES6_MIXED_IMPORT KMixed content (good_at 3)).
  rewrite (pass_collected es6 ES6_IMPORT_SIDE_EFFECT KSide content (good_at 4)).
  cbn [matchesOfTable patternTable firstn flat_map fst snd].
  rewrite ?app_nil_r, <- ?app_assoc; reflexivity.
Qed.

Lemma allMatches_eq (content : str) :
  safeParseImports parseES6Imports content
  ++ safeParseImports parseCommonJSImports content
  ++ safeParseImports parseDynamicImports content
  = allMatchesOf content.
Proof.
  unfold safeParseImports. rewrite parseES6Imports_eq.
  unfold parseCommonJSImports, parseDynamicImports.
  rewrite (pass_collected commonjs COMMONJS_REQUIRE KRequire content (good_at 5)).
  rewrite (pass_collected dynamic DYNAMIC_IMPORT KDynamic content (good_at 6)).
  unfold allMatchesOf.
  cbn [matchesOfTable patternTable firstn flat_map fst snd].
  rewrite ?app_nil_r, <- ?app_assoc; reflexivity.
Qed.

Lemma findImports_eq (content : str) :
  truthy content = true ->
  findImports content
  = uniqueMatchesOf
      (sortStable byStartAscending (validMatchesOf (allMatchesOf content))).
Proof.
  intros T. unfold findImports, findImportsWith. rewrite T.
  cbn [negb DEFAULT_OPTIONS includeES6 includeCommonJS includeDynamic].
  now rewrite allMatches_eq.
Qed.

Lemma findImports_empty : findImports [] = [].
Proof. reflexivity. Qed.

Lemma rawLiterals_empty : rawLiterals [] = [].
Proof. vm_compute. reflexivity. Qed.

(** ** No two matches start at the same offset *)

Lemma matchesOfTable_starts (table : list (ImportType * RegExp * syntaxKind))
  (content : str) :
  Forall (fun e => goodPattern (snd (fst e)) (snd e)) table ->
  NoDup (map snd table) ->
  NoDup (map startIndex (matchesOfTable table content))
  /\ Forall (fun m => exists k, In k (map snd table)
                      /\ classify (skipn (startIndex m) content) = Some k)
            (matchesOfTable table content).
Proof.
  induction 1 as [|[[ty rx] k] table G _ IH]; cbn [matchesOfTable flat_map map].
  - intros _. split; constructor.
  - intros N. inversion N as [|? ? Hk N']; subst.
    destruct (IH N') as [IH1 IH2]. cbn [fst snd] in *.
    destruct (loopOf_sound rx k content G) as [F S].
    assert (Hhere : Forall (fun m => classify (skipn (startIndex m) content) = Some k)
                      (collected ty content (loopOf rx content))).
    { rewrite Forall_forall in *. intros m Hm.
      apply collected_In in Hm as (r & Hr & ->). now apply F. }
    split.
    + rewrite map_app. apply NoDup_app.
      * apply strict_nodup. now apply collected_sorted.
      * exact IH1.
      * intros s H1 H2.
        apply in_map_iff in H1 as (m1 & <- & H1).
        apply in_map_iff in H2 as (m2 & E & H2).
        rewrite Forall_forall in Hhere, IH2.
        specialize (Hhere m1 H1). destruct (IH2 m2 H2) as (k' & Hk' & C).
        fold (matchesOfTable table content) in *.
        rewrite E, Hhere in C. injection C as <-. contradiction.
    + apply Forall_app. split.
      * eapply Forall_impl; [|exact Hhere]. intros m Hm. exists k. split; [now left | exact Hm].
      * eapply Forall_impl; [|exact IH2]. intros m (k' & Hk' & C).
        exists k'. split; [now right | exact C].
Qed.

Lemma patternTable_kinds : NoDup (map snd patternTable).
Proof.
  cbn. repeat constructor; cbn; intuition discriminate.
Qed.

Lemma allMatches_starts (content : str) :
  NoDup (map startIndex (allMatchesOf content)).
Proof.
  apply matchesOfTable_starts; [apply patternTable_good | apply patternTable_kinds].
Qed.

End FindImports.


Section FindImportsFacts.
Import ImportParser.

(** ** Validation *)

Lemma validMatchesOf_In (ms : list ImportMatch) (m : ImportMatch) :
  In m (validMatchesOf ms) <->
  exists m0, In m0 ms /\ validateImportPath (importPath m0) = Some (importPath m)
             /\ startIndex m = startIndex m0 /\ fullMatch m = fullMatch m0
             /\ endIndex m = endIndex m0 /\ type m = type m0.
Proof.
  induction ms as [|x ms IH]; cbn [validMatchesOf].
  - split; [intros [] | intros (m0 & [] & _)].
  - destruct (validateImportPath (importPath x)) as [p|] eqn:E.
    + assert (T : truthy p = true).
      { apply validateImportPath_some in E as (_ & N & _). destruct p; [contradiction | reflexivity]. }
      rewrite T. split.
      * intros [<- | H].
        -- exists x. cbn. split; [now left|]. repeat split; auto.
        -- apply IH in H as (m0 & H0 & R). exists m0. split; [now right | exact R].
      * intros (m0 & [<- | H0] & V & S & F & En & Ty).
        -- left. destruct m as [f p' s e t]. cbn in *. rewrite E in V. injection V as <-.
           now subst.
        -- right. apply IH. exists m0. auto 10.
    + split.
      * intros H. apply IH in H as (m0 & H0 & R). exists m0. split; [now right | exact R].
      * intros (m0 & [<- | H0] & V & R).
        -- rewrite E in V. discriminate.
        -- apply IH. exists m0. auto 10.
Qed.

Lemma validMatchesOf_starts (ms : list ImportMatch) :
  NoDup (map startIndex ms) -> NoDup (map startIndex (validMatchesOf ms)).
Proof.
  induction ms as [|x ms IH]; cbn [validMatchesOf map]; intros N; [constructor|].
  inversion N as [|? ? Hn N']; subst.
  destruct (validateImportPath (importPath x)) as [p|]; [|now apply IH].
  destruct (truthy p); [|now apply IH].
  cbn [map startIndex]. constructor; [|now apply IH].
  intros Hin. apply Hn. apply in_map_iff in Hin as (m & E & Hm).
  apply validMatchesOf_In in Hm as (m0 & H0 & _ & S & _).
  apply in_map_iff. exists m0. split; [congruence | exact H0].
Qed.

(** ** Removal of repeated neighbours *)

Lemma sameKey_eq (a b : ImportMatch) : sameKey a b = true <-> keyOf a = keyOf b.
Proof.
  unfold sameKey, keyOf. rewrite andb_true_iff, Nat.eqb_eq, str_eqb_eq.
  split; [intros [-> ->]; reflexivity | intros H; now injection H].
Qed.

Lemma uniqueAfter_In (p : ImportMatch) (ms : list ImportMatch) (m : ImportMatch) :
  In m (uniqueAfter p ms) -> In m ms.
Proof.
  revert p; induction ms as [|x ms IH]; intros p; cbn [uniqueAfter]; [intros []|].
  destruct (sameKey x p).
  - intros H. right. eapply IH; eassumption.
  - intros [<- | H]; [now left | right; eapply IH; eassumption].
Qed.

Lemma uniqueMatchesOf_In (ms : list ImportMatch) (m : ImportMatch) :
  In m (uniqueMatchesOf ms) -> In m ms.
Proof.
  destruct ms as [|x ms]; cbn [uniqueMatchesOf]; [intros []|].
  intros [<- | H]; [now left | right; eapply uniqueAfter_In; eassumption].
Qed.

Lemma uniqueAfter_sorted (R : ImportMatch -> ImportMatch -> Prop) (p : ImportMatch)
  (ms : list ImportMatch) :
  StronglySorted R ms -> StronglySorted R (uniqueAfter p ms).
Proof.
  intros S. revert p. induction S as [|x ms S IH F]; intros p; cbn [uniqueAfter];
    [constructor|].
  destruct (sameKey x p); [apply IH|].
  constructor; [apply IH|].
  rewrite Forall_forall in *. intros y Hy. apply F. eapply uniqueAfter_In; eassumption.
Qed.

Lemma uniqueMatchesOf_sorted (R : ImportMatch -> ImportMatch -> Prop)
  (ms : list ImportMatch) :
  StronglySorted R ms -> StronglySorted R (uniqueMatchesOf ms).
Proof.
  intros S. destruct S as [|x ms S F]; cbn [uniqueMatchesOf]; [constructor|].
  constructor; [now apply uniqueAfter_sorted|].
  rewrite Forall_forall in *. intros y Hy. apply F. eapply uniqueAfter_In; eassumption.
Qed.

(** The first entry with a given key is kept. *)
Lemma uniqueAfter_first (p : ImportMatch) (pre : list ImportMatch)
  (m : ImportMatch) (post : list ImportMatch) :
  (forall x, In x (p :: pre) -> keyOf x <> keyOf m) ->
  In m (uniqueAfter p (pre ++ m :: post)).
Proof.
  revert p; induction pre as [|x pre IH]; intros p H; cbn [app uniqueAfter].
  - destruct (sameKey m p) eqn:E.
    + apply sameKey_eq in E. exfalso. apply (H p); [now left | now symmetry].
    + now left.
  - assert (In m (uniqueAfter x (pre ++ m :: post))).
    { apply IH. intros y Hy. apply H. now right. }
    destruct (sameKey x p); [assumption | now right].
Qed.

Lemma uniqueMatchesOf_first (pre : list ImportMatch) (m : ImportMatch)
  (post : list ImportMatch) :
  (forall x, In x pre -> keyOf x <> keyOf m) ->
  In m (uniqueMatchesOf (pre ++ m :: post)).
Proof.
  destruct pre as [|p pre]; cbn [app uniqueMatchesOf]; intros H.
  - now left.
  - right. now apply uniqueAfter_first.
Qed.

Lemma first_with_key (ms : list ImportMatch) (k : nat * str) :
  In k (map keyOf ms) ->
  exists pre m post, ms = pre ++ m :: post /\ keyOf m = k
                     /\ forall x, In x pre -> keyOf x <> k.
Proof.
  induction ms as [|x ms IH]; cbn [map]; [intros []|].
  intros H.
  destruct (list_eq_dec ascii_dec (snd (keyOf x)) (snd k)) as [E2|N2];
    [destruct (Nat.eq_dec (fst (keyOf x)) (fst k)) as [E1|N1]|].
  - exists [], x, ms. repeat split; [|intros y []].
    destruct (keyOf x), k; cbn in *; congruence.
  - destruct H as [H|H]; [rewrite H in N1; contradiction|].
    destruct (IH H) as (pre & m & post & -> & Hk & Hpre).
    exists (x :: pre), m, post. repeat split; auto.
    intros y [<- | Hy]; [congruence | now apply Hpre].
  - destruct H as [H|H]; [rewrite H in N2; contradiction|].
    destruct (IH H) as (pre & m & post & -> & Hk & Hpre).
    exists (x :: pre), m, post. repeat split; auto.
    intros y [<- | Hy]; [congruence | now apply Hpre].
Qed.

Lemma uniqueMatchesOf_keys (ms : list ImportMatch) (k : nat * str) :
  In k (map keyOf (uniqueMatchesOf ms)) <-> In k (map keyOf ms).
Proof.
  split; intros H.
  - apply in_map_iff in H as (m & <- & Hm). apply in_map.
    now apply uniqueMatchesOf_In.
  - apply first_with_key in H as (pre & m & post & -> & <- & Hpre).
    apply in_map. now apply uniqueMatchesOf_first.
Qed.

(** ** The order of the result *)

Lemma byStart_total (a b : ImportMatch) :
  byStartAscending a b = true \/ byStartAscending b a = true.
Proof. unfold byStartAscending. rewrite !Nat.leb_le. lia. Qed.

Lemma byStart_trans (a b c : ImportMatch) :
  byStartAscending a b = true -> byStartAscending b c = true ->
  byStartAscending a c = true.
Proof. unfold byStartAscending. rewrite !Nat.leb_le. lia. Qed.

Definition sortedValid (content : str) : list ImportMatch :=
  sortStable byStartAscending (validMatchesOf (allMatchesOf content)).

Lemma sortedValid_sorted (content : str) :
  StronglySorted (fun a b => startIndex a <= startIndex b) (sortedValid content).
Proof.
  pose proof (sortStable_sorted _ byStartAscending byStart_total byStart_trans
                (validMatchesOf (allMatchesOf content))) as S.
  unfold sortedValid.
  induction S as [|x l S IH F]; constructor; [exact IH|].
  eapply Forall_impl; [|exact F]. intros y Hy. now apply Nat.leb_le.
Qed.

Lemma sortedValid_starts (content : str) :
  NoDup (map startIndex (sortedValid content)).
Proof.
  unfold sortedValid.
  eapply Permutation_NoDup.
  - apply Permutation_map, Permutation_sym, sortStable_perm.
  - apply validMatchesOf_starts, allMatches_starts.
Qed.

Lemma findImports_sortedValid (content : str) :
  findImports content = uniqueMatchesOf (sortedValid content).
Proof.
  destruct content as [|c content]; [reflexivity|].
  now apply findImports_eq.
Qed.

Lemma allMatches_keys (content : str) (s : nat) (l : str) :
  In (s, l) (map keyOf (allMatchesOf content)) <->
  In (s, l) (rawLiterals content) /\ isRelative l = true.
Proof.
  unfold allMatchesOf, matchesOfTable, rawLiterals.
  induction patternTable as [|e table IH]; cbn [flat_map map].
  - split; [intros [] | intros [[] _]].
  - rewrite map_app, !in_app_iff, IH, collected_keys, filter_In.
    unfold literalsOf. cbn [snd]. tauto.
Qed.

Lemma findImports_keys (content : str) (s : nat) (p : str) :
  In (s, p) (map keyOf (findImports content)) <->
  exists l, In (s, l) (rawLiterals content) /\ isRelative l = true
            /\ validateImportPath l = Some p.
Proof.
  rewrite findImports_sortedValid, uniqueMatchesOf_keys. unfold sortedValid.
  split.
  - intros H. apply in_map_iff in H as (m & E & Hm).
    eapply Permutation_in in Hm; [|apply sortStable_perm].
    apply validMatchesOf_In in Hm as (m0 & H0 & V & S & _).
    exists (importPath m0).
    injection E as <- <-. rewrite S.
    assert (K : In (startIndex m0, importPath m0) (map keyOf (allMatchesOf content))).
    { apply in_map_iff. exists m0. split; [reflexivity | exact H0]. }
    apply allMatches_keys in K as [K1 K2]. auto.
  - intros (l & Hl & R & V).
    assert (K : In (s, l) (map keyOf (allMatchesOf content))) by now apply allMatches_keys.
    apply in_map_iff in K as (m0 & E & H0). injection E as <- <-.
    apply in_map_iff.
    exists (MkImportMatch (fullMatch m0) p (startIndex m0) (endIndex m0) (type m0)).
    split; [reflexivity|].
    eapply Permutation_in; [apply Permutation_sym, sortStable_perm|].
    apply validMatchesOf_In. exists m0. cbn. auto 10.
Qed.

End FindImportsFacts.


(** * Sorted lists *)

Lemma StronglySorted_app {A} (R : A -> A -> Prop) (l1 l2 : list A) :
  StronglySorted R l1 -> StronglySorted R l2 ->
  (forall a b, In a l1 -> In b l2 -> R a b) ->
  StronglySorted R (l1 ++ l2).
Proof.
  induction 1 as [|x l1 S IH F]; intros S2 H; cbn [app]; [exact S2|].
  constructor.
  - apply IH; [exact S2|]. intros a b Ha Hb. apply H; [now right | exact Hb].
  - apply Forall_app. split; [exact F|].
    rewrite Forall_forall. intros b Hb. apply H; [now left | exact Hb].
Qed.

Lemma StronglySorted_rev {A} (R : A -> A -> Prop) (l : list A) :
  StronglySorted R l -> StronglySorted (fun a b => R b a) (rev l).
Proof.
  induction 1 as [|x l S IH F]; cbn [rev]; [constructor|].
  apply StronglySorted_app; [exact IH | repeat constructor |].
  intros a b Ha [<- | []]. rewrite Forall_forall in F. apply F. now apply in_rev.
Qed.

(** Two sorted arrangements of the same entries are equal when one of them
    is strictly sorted. *)
Lemma sorted_unique {A} (key : A -> nat) (l1 : list A) :
  forall l2,
    StronglySorted (fun a b => key a <= key b) l1 ->
    StronglySorted (fun a b => key a < key b) l2 ->
    Permutation l1 l2 -> l1 = l2.
Proof.
  induction l1 as [|x l1 IH]; intros l2 S1 S2 P.
  - apply Permutation_nil in P. now subst.
  - destruct l2 as [|y l2]; [apply Permutation_sym, Permutation_nil in P; discriminate|].
    inversion S1 as [|? ? S1' F1]; subst. inversion S2 as [|? ? S2' F2]; subst.
    rewrite Forall_forall in F1, F2.
    assert (E : x = y).
    { assert (Hx : In x (y :: l2)) by (eapply Permutation_in; [exact P | now left]).
      assert (Hy : In y (x :: l1))
        by (eapply Permutation_in; [apply Permutation_sym; exact P | now left]).
      destruct Hx as [Hx | Hx]; [now symmetry|].
      destruct Hy as [Hy | Hy]; [exact Hy|].
      specialize (F1 y Hy). specialize (F2 x Hx). lia. }
    subst y. f_equal. apply IH; auto. eapply Permutation_cons_inv; eassumption.
Qed.

(** * The rewrite engine *)

Section Rewrite.
Import ImportParser PathResolver FileProcessor.

(** ** Replacement texts without dollar signs *)

Definition noDollar (s : str) : Prop := ~ In "$"%char s.

Lemma getSubstitution_plain (m b a repl : str) :
  noDollar repl -> getSubstitution m b a repl = repl.
Proof.
  unfold noDollar. induction repl as [|c r IH]; intros H; cbn [getSubstitution];
    [reflexivity|].
  destruct (Ascii.eqb c "$") eqn:E.
  - apply Ascii.eqb_eq in E. subst. exfalso. apply H. now left.
  - f_equal. apply IH. intros Hin. apply H. now right.
Qed.

(** ** The conversion of a path *)

Definition convertsPath (path : str) (c : ConversionResult) : bool :=
  str_eqb (originalImport c) path && truthy (orEmpty (convertedImport c)).

(** The converted path of the last conversion of [path] that has one. *)
Definition conversionFor (conversions : list ConversionResult) (path : str)
  : option str :=
  match find (convertsPath path) (rev conversions) with
  | Some c => convertedImport c
  | None => None
  end.

Lemma conversionMapOf_get (conversions : list ConversionResult) (m : JsMap str)
  (path : str) :
  mapGet path (conversionMapOf conversions m) =
  match conversionFor conversions path with
  | Some v => Some v
  | None => mapGet path m
  end.
Proof.
  unfold conversionFor. revert m.
  induction conversions as [|c cs IH]; intros m; cbn [conversionMapOf rev];
    [reflexivity|].
  rewrite find_snoc.
  destruct (find (convertsPath path) (rev cs)) as [c0|] eqn:F.
  - assert (Hv : exists v0, convertedImport c0 = Some v0).
    { apply find_some in F as [_ F]. unfold convertsPath in F.
      apply andb_true_iff in F as [_ F].
      destruct (convertedImport c0) as [v0|]; [now exists v0 | discriminate]. }
    destruct Hv as [v0 Ev0]. rewrite Ev0 in *.
    destruct (convertedImport c) as [[|ch v]|]; now rewrite IH.
  - unfold convertsPath.
    destruct (convertedImport c) as [[|ch v]|] eqn:E; cbn [orEmpty truthy];
      rewrite ?andb_false_r, ?andb_true_r, IH; try reflexivity.
    destruct (str_eqb (originalImport c) path) eqn:K.
    + rewrite E. apply str_eqb_eq in K. subst path. apply mapGet_mapSet_same.
    + apply str_eqb_neq in K. apply mapGet_mapSet_other. congruence.
Qed.

Lemma conversionFor_In (conversions : list ConversionResult) (path v : str) :
  conversionFor conversions path = Some v ->
  v <> [] /\ exists c, In c conversions /\ convertedImport c = Some v.
Proof.
  unfold conversionFor. destruct (find _ _) as [c|] eqn:F; [|discriminate].
  apply find_some in F as [Hin F]. intros E. unfold convertsPath in F.
  apply andb_true_iff in F as [_ F]. rewrite E in F. split.
  - destruct v; [discriminate | discriminate].
  - exists c. split; [now apply in_rev | exact E].
Qed.

(** ** The order of the replacements *)

Lemma byStartDesc_total (a b : ImportMatch) :
  byStartDescending a b = true \/ byStartDescending b a = true.
Proof. unfold byStartDescending. rewrite !Nat.leb_le. lia. Qed.

Lemma byStartDesc_trans (a b c : ImportMatch) :
  byStartDescending a b = true -> byStartDescending b c = true ->
  byStartDescending a c = true.
Proof. unfold byStartDescending. rewrite !Nat.leb_le. lia. Qed.

End Rewrite.


(** * The claims *)

Section ResolverClaims.
Import PathResolver.

Definition mapping (a b r : string) : PathMapping :=
  MkPathMapping (js a) (js b) (js r).

(** The aliases [@] for [/p/src] and [@components] for [/p/src/components]. *)
Definition twoAliases : PathResolverState :=
  createPathResolver
    (MkParsedConfig (js ".")
       [(js "@", [mapping "@/*" "./src/*" "/p/src"]);
        (js "@components",
         [mapping "@components/*" "./src/components/*" "/p/src/components"])]
       (js "/p")).

(** C1. For every resolver state and candidate path, [findBestMatch]
    returns null exactly when the base directory (normalized, without a
    trailing [/*]) of no mapping is a string prefix of the normalized path.
    Otherwise it returns a mapping that qualifies, whose base directory
    string is strictly longer than that of every qualifying mapping visited
    before it and at least as long as that of every one visited after it:
    the longest, the first found winning a tie.  With [@] for [/p/src] and
    [@components] for [/p/src/components], the path
    [/p/src/components/Button.ts] gets the [@components] mapping. *)
Theorem C1_findBestMatch_longest_prefix :
  (forall (state : PathResolverState) (absolutePath : str),
     let np := Path.normalize absolutePath in
     let ms := allMappings (pathMappings state) in
     (findBestMatch state absolutePath = None <->
      forall m, In m ms -> startsWith np (baseDirectory m) = false)
     /\ forall best, findBestMatch state absolutePath = Some best ->
          exists pre post,
            ms = pre ++ best :: post /\ qualifies np best
            /\ (forall m, In m pre -> qualifies np m ->
                  length (baseDirectory m) < length (baseDirectory best))
            /\ (forall m, In m post -> qualifies np m ->
                  length (baseDirectory m) <= length (baseDirectory best)))
  /\ findBestMatch twoAliases (js "/p/src/components/Button.ts")
     = Some (mapping "@components/*" "./src/components/*" "/p/src/components").
Proof.
  split; [|vm_compute; reflexivity].
  intros state absolutePath np ms.
  destruct (findBestMatch_bestOf state absolutePath) as [n H].
  fold np ms in H. unfold bestOf in H. cbn [fst snd] in H.
  destruct (findBestMatch state absolutePath) as [b|].
  - destruct H as (_ & pre & post & E & Q & Hpre & Hpost). split.
    + split; [discriminate|]. intros Hnone.
      unfold qualifies in Q. rewrite Hnone in Q; [discriminate|].
      rewrite E. apply in_or_app. right. now left.
    + intros best Hb. injection Hb as <-. now exists pre, post.
  - destruct H as [_ Hnone]. split.
    + split; [intros _; exact Hnone | reflexivity].
    + intros best Hb. discriminate.
Qed.

(** The alias [@] for [/p/src] alone. *)
Definition oneAlias : PathResolverState :=
  createPathResolver
    (MkParsedConfig (js ".") [(js "@", [mapping "@/*" "./src/*" "/p/src"])] (js "/p")).

(** No alias at all. *)
Definition noAlias : PathResolverState :=
  createPathResolver (MkParsedConfig (js ".") [] (js "/p")).

(** C2. The round trip fails where the base directory is a prefix of the
    path as a string but not as a path: the import [./b] of the file
    [/p/srcfoo/a.ts] is resolved to [/p/srcfoo/b], the mapping of [/p/src]
    is taken for it and the import becomes [@/foo/b], which stands for
    [/p/src/foo/b]. *)
Theorem C2_round_trip_breaks_inside_a_segment :
  let fromFile := js "/p/srcfoo/a.ts" in
  let original := Path.resolve (js "/") [Path.dirname fromFile; js "./b"] in
  let best := mapping "@/*" "./src/*" "/p/src" in
  original = js "/p/srcfoo/b"
  /\ findBestMatch oneAlias original = Some best
  /\ convertedImport
       (fst (resolveImport (js "/") resolveCache0 oneAlias (js "./b") fromFile))
     = Some (stripWildcard (alias best) ++ js "/" ++ js "foo/b")
  /\ Path.join (baseDirectory best) (js "foo/b") = js "/p/src/foo/b".
Proof.
  cbv zeta. split; [vm_compute; reflexivity|].
  split; [vm_compute; reflexivity|].
  split; vm_compute; reflexivity.
Qed.

(** C6. The result of [resolveImport] depends on the calls made before:
    the module's cache is keyed by the file and the literal only.  The same
    call with the state without aliases finds no alias at first and, once a
    call with another state has filled the cache, returns that state's
    conversion. *)
Theorem C6_resolveImport_answers_from_another_state :
  let importPath := js "./b" in
  let fromFile := js "/p/src/a.ts" in
  let first := resolveImport (js "/") resolveCache0 noAlias importPath fromFile in
  let second := resolveImport (js "/") (snd first) oneAlias importPath fromFile in
  let third := resolveImport (js "/") (snd second) noAlias importPath fromFile in
  fst first
  = MkConversion importPath None (Some (js "No matching path alias found"))
  /\ fst second
     = MkConversion importPath (Some (js "@/b"))
         (Some (js "Converted using alias '@/*'"))
  /\ fst third = fst second.
Proof.
  cbv zeta. split; [vm_compute; reflexivity|].
  split; vm_compute; reflexivity.
Qed.

(** C7. A result without alias is returned without being stored: after a
    call that misses the cache and finds no alias, the cache has no entry
    for the key. *)
Theorem C7_no_alias_result_is_not_cached :
  let importPath := js "./b" in
  let fromFile := js "/p/src/a.ts" in
  let call := resolveImport (js "/") resolveCache0 noAlias importPath fromFile in
  fst call = MkConversion importPath None (Some (js "No matching path alias found"))
  /\ fst (lruGet (cacheKeyOf fromFile importPath) (snd call)) = None
  /\ entries (snd call) = [].
Proof.
  cbv zeta. split; [vm_compute; reflexivity|].
  split; vm_compute; reflexivity.
Qed.














End ResolverClaims.

Section IgnoreClaims.
Import IgnoreManager.




(** The pattern lines of the claim: [**], [***], and the lines that are
    blank once a leading [!] is removed. *)
Definition degenerateLine (pattern : str) : Prop :=
  pattern = js "**" \/ pattern = js "***"
  \/ trim (if startsWith pattern (js "!") then sliceFrom pattern 1 else pattern) = [].

Lemma degenerateLine_degenerate (pattern : str) :
  degenerateLine pattern -> degenerate pattern = true.
Proof.
  unfold degenerate. intros [-> | [-> | H]]; [reflexivity | reflexivity |].
  cbv zeta. now rewrite H.
Qed.

(** C10. The expression compiled from a line that is [**] or [***], or
    blank after a leading [!] is removed, matches no path; such a line is
    never the matched pattern [shouldIgnore] reports, and a state of that
    line alone ignores no file. *)
Theorem C10_degenerate_line_matches_nothing (pattern : str) :
  degenerateLine pattern ->
  (forall path, test (compilePattern pattern) path = false)
  /\ (forall lines dirs filePath r,
        shouldIgnore (MkIgnoreState (compilePatterns lines) lines dirs) filePath
        = Some r ->
        matchedPattern r = Some pattern -> False)
  /\ (forall dirs filePath,
        option_map shouldIgnore_
          (shouldIgnore (MkIgnoreState (compilePatterns [pattern]) [pattern] dirs)
             filePath)
        = Some false).
Proof.
  intros D. apply degenerateLine_degenerate in D.
  assert (N : forall path, test (compilePattern pattern) path = false).
  { intros path. rewrite (degenerate_compile pattern D). apply never_test. }
  split; [exact N|]. split.
  - intros lines dirs filePath r H M. rewrite shouldIgnore_spec in H.
    destruct (lastMatching lines (cleanPathOf filePath)) as [p|] eqn:L.
    + injection H as <-. unfold outcomeOf in M.
      assert (p = pattern)
        by (destruct (startsWith p (js "!")); cbn [matchedPattern] in M; congruence).
      subst p. apply find_some in L as [_ T]. rewrite N in T. discriminate.
    + injection H as <-. discriminate.
  - intros dirs filePath. rewrite shouldIgnore_spec.
    unfold lastMatching. cbn [rev app find]. now rewrite N.
Qed.

Lemma C10_degenerate_line_witness :
  (forall path, test (compilePattern (js "**")) path = false)
  /\ (forall lines dirs filePath r,
        shouldIgnore (MkIgnoreState (compilePatterns lines) lines dirs) filePath
        = Some r ->
        matchedPattern r = Some (js "**") -> False)
  /\ (forall dirs filePath,
        option_map shouldIgnore_
          (shouldIgnore (MkIgnoreState (compilePatterns [js "**"]) [js "**"] dirs)
             filePath)
        = Some false).
Proof.
  apply (C10_degenerate_line_matches_nothing (js "**")).
  left. reflexivity.
Defined.

End IgnoreClaims.


Section ParserClaims.
Import ImportParser.

Definition LF : ascii := ascii_of_nat 10.
Definition CR : ascii := ascii_of_nat 13.

(** One statement of each syntax, and two bare specifiers. *)
Definition everySyntax : str :=
  js "import { a } from './named'; import b from '../default'; import * as c from './ns'; import d, { e } from './mixed'; import './side'; require('./cjs'); import('./dyn'); import React from 'react'; require('fs');".

(** C4. Every entry of [findImports] has an import path that
    starts with [./] or [../], so a bare specifier is never captured; and a
    literal that one of the seven patterns finds at an offset is captured
    there exactly when it starts with [./] or [../] and, trimmed of white
    space, holds no line feed and no carriage return, the captured path being
    the trimmed literal.  Each of the seven syntaxes captures its relative
    literal. *)
Theorem C4_findImports_captures_relative_literals :
  (forall (content : str),
     (forall m, In m (findImports content) -> isRelative (importPath m) = true)
     /\ forall (s : nat) (p : str),
          In (s, p) (map keyOf (findImports content)) <->
          exists l, In (s, l) (rawLiterals content) /\ isRelative l = true
                    /\ p = trim l /\ includes p [LF] = false
                    /\ includes p [CR] = false)
  /\ map importPath (findImports everySyntax)
     = map js ["./named"; "../default"; "./ns"; "./mixed"; "./side"; "./cjs";
               "./dyn"]%string.
Proof.
  split; [|vm_compute; reflexivity].
  intros content.
  assert (K : forall s p,
             In (s, p) (map keyOf (findImports content)) <->
             exists l, In (s, l) (rawLiterals content) /\ isRelative l = true
                       /\ p = trim l /\ includes p [LF] = false
                       /\ includes p [CR] = false).
  { intros s p. rewrite findImports_keys. split.
    - intros (l & Hl & R & V). exists l.
      apply validateImportPath_some in V as (-> & _ & N1 & N2). auto.
    - intros (l & Hl & R & -> & N1 & N2). exists l.
      repeat split; auto. now apply validateImportPath_relative. }
  split; [|exact K].
  intros m Hm.
  assert (Hk : In (startIndex m, importPath m) (map keyOf (findImports content)))
    by (apply in_map_iff; exists m; split; [reflexivity | exact Hm]).
  apply K in Hk as (l & _ & R & -> & _). now apply isRelative_trim.
Qed.

(** A relative literal with a line feed inside is found by the side-effect
    pattern and not captured. *)
Lemma C4_relative_literal_with_line_feed_is_dropped :
  let literal := js "./a" ++ [LF] ++ js "b" in
  let content := js "import '" ++ literal ++ js "'" in
  In (0, literal) (rawLiterals content)
  /\ isRelative literal = true
  /\ findImports content = [].
Proof.
  cbv zeta. split; [vm_compute; left; reflexivity|].
  split; vm_compute; reflexivity.
Qed.

(** C5. For every content the list [findImports] returns is sorted by
    start offset in ascending order and no two of its entries have the same
    start offset and import path; of the entries of the sorted list of valid
    matches that share a start offset and a path, the first is the one
    kept. *)
Theorem C5_findImports_sorted_without_repeats (content : str) :
  StronglySorted (fun a b => startIndex a <= startIndex b) (findImports content)
  /\ NoDup (map keyOf (findImports content))
  /\ forall pre m post,
       sortedValid content = pre ++ m :: post ->
       (forall x, In x pre -> keyOf x <> keyOf m) ->
       In m (findImports content).
Proof.
  rewrite findImports_sortedValid. split; [|split].
  - apply uniqueMatchesOf_sorted, sortedValid_sorted.
  - apply (NoDup_map_fst startIndex keyOf); [reflexivity|].
    apply strict_nodup. apply uniqueMatchesOf_sorted.
    apply sorted_nodup_strict; [apply sortedValid_sorted | apply sortedValid_starts].
  - intros pre m post E H. rewrite E. now apply uniqueMatchesOf_first.
Qed.

End ParserClaims.

Section RewriteClaims.
Import ImportParser PathResolver FileProcessor.

Definition conversion (original converted : string) : ConversionResult :=
  MkConversion (js original) (Some (js converted)) None.

(** A named import whose braces hold a commented-out import of another
    module, followed by a call. *)
Definition commentedImport : str :=
  js "import { x, /* import y from './b' */ } from './a'; z();".

(** A named import whose braces hold the path in a comment, in single
    quotes; the literal is in double quotes. *)
Definition commentedPath : str :=
  js "import { x /* './a' */ } from " ++ [dquote] ++ js "./a" ++ [dquote] ++ js ";".

(** C3. [replaceImports] does not keep to the quoted literals of the
    converted matches.  In [commentedImport] the named import and the import
    inside its braces are both found and both have a conversion; the span of
    the inner one lies inside the span of the outer one.  The inner
    replacement makes the text three characters longer, the outer one is
    then cut at the old end offset, and the result is the content up to the
    outer literal, the converted literal, the three stray characters [/a']
    and the text after the statement; the inner literal is not converted.
    In [commentedPath], with one match and nothing that overlaps, the path
    in the comment, in single quotes from offset 14 to 19, is replaced and
    the literal, in double quotes from offset 30 to 35, is left as it
    was. *)
Theorem C3_overlapping_imports_corrupt_the_text :
  let conversions := [conversion "./a" "@/a"; conversion "./b" "@lib/b"] in
  let imports := findImports commentedImport in
  let output := replaceImports commentedImport imports conversions in
  let output' :=
    replaceImports commentedPath (findImports commentedPath)
      [conversion "./a" "@/a"] in
  map (fun m => (startIndex m, endIndex m, importPath m)) imports
  = [(0, 50, js "./a"); (15, 34, js "./b")]
  /\ slice commentedImport 45 50 = js "'./a'"
  /\ slice commentedImport 29 34 = js "'./b'"
  /\ output
     = slice commentedImport 0 45 ++ js "'@/a'" ++ js "/a'"
       ++ sliceFrom commentedImport 50
  /\ output = js "import { x, /* import y from './b' */ } from '@/a'/a'; z();"
  /\ map (fun m => (startIndex m, endIndex m, importPath m))
       (findImports commentedPath)
     = [(0, 35, js "./a")]
  /\ slice commentedPath 14 19 = js "'./a'"
  /\ slice commentedPath 30 35 = [dquote] ++ js "./a" ++ [dquote]
  /\ output'
     = slice commentedPath 0 14 ++ js "'@/a'" ++ sliceFrom commentedPath 19
  /\ slice output' 30 35 = [dquote] ++ js "./a" ++ [dquote].
Proof.
  cbv zeta. repeat split; vm_compute; reflexivity.
Qed.

End RewriteClaims.


(** * Further properties: the path resolver and its cache *)

Section ResolverExtras.
Import PathResolver.

Lemma sliceFrom_app (a b : str) : sliceFrom (a ++ b) (length a) = b.
Proof.
  unfold sliceFrom. rewrite skipn_app, Nat.sub_diag, skipn_all. reflexivity.
Qed.

Lemma startsWith_prefix (a b : str) : startsWith (a ++ b) a = true.
Proof. apply startsWith_app. now exists b. Qed.

(** X1. [convertToAlias] returns null exactly when the base directory is
    not a string prefix of the normalized path.  Otherwise the path is the
    base directory followed by a rest, and the result is the alias alone
    when the rest is empty or a single [/], the alias, [/] and the rest
    without its leading [/] when it has one, and the alias, [/] and the whole
    rest when it has none. *)
Theorem X1_convertToAlias_by_cases (absolutePath : str) (m : PathMapping) :
  let np := Path.normalize absolutePath in
  let base := baseDirectory m in
  let aliasBase := cleanAliasOf m in
  (convertToAlias absolutePath m = None <-> startsWith np base = false)
  /\ (np = base -> convertToAlias absolutePath m = Some aliasBase)
  /\ (np = base ++ js "/" -> convertToAlias absolutePath m = Some aliasBase)
  /\ (forall c t, np = base ++ js "/" ++ c :: t ->
        convertToAlias absolutePath m = Some (aliasBase ++ js "/" ++ c :: t))
  /\ (forall c t, np = base ++ c :: t -> c <> "/"%char ->
        convertToAlias absolutePath m = Some (aliasBase ++ js "/" ++ c :: t)).
Proof.
  intros np base aliasBase.
  assert (G : forall rest, np = base ++ rest ->
            convertToAlias absolutePath m =
            Some (let clean := if startsWith rest (js "/") then sliceFrom rest 1 else rest in
                  if negb (truthy clean) then aliasBase
                  else aliasBase ++ js "/" ++ clean)).
  { intros rest E. unfold convertToAlias. fold (baseDirectory m) base np.
    rewrite E at 1. rewrite startsWith_prefix. cbn [negb].
    rewrite E. rewrite sliceFrom_app. cbv zeta. unfold aliasBase, cleanAliasOf.
    destruct (negb (truthy _)); reflexivity. }
  split; [|split; [|split; [|split]]].
  - unfold convertToAlias. fold (baseDirectory m) base np.
    destruct (startsWith np base) eqn:S; cbn [negb].
    + split; [|discriminate].
      destruct (negb (truthy _)); discriminate.
    + split; reflexivity.
  - intros E. rewrite (G []) by now rewrite app_nil_r. reflexivity.
  - intros E. rewrite (G (js "/") E). reflexivity.
  - intros c t E. rewrite (G (js "/" ++ c :: t) E). reflexivity.
  - intros c t E N. rewrite (G (c :: t) E).
    cbn [startsWith js list_ascii_of_string].
    destruct (Ascii.eqb "/" c) eqn:Q.
    + apply Ascii.eqb_eq in Q. congruence.
    + reflexivity.
Qed.

(** ** The cache *)

Section Cache.
Variable V : Type.

Lemma mapGet_In (k : str) (v : V) (m : JsMap V) :
  mapGet k m = Some v -> In k (map fst m).
Proof.
  induction m as [|[k' v'] m IH]; cbn [mapGet map fst]; [discriminate|].
  destruct (str_eqb k' k) eqn:E.
  - apply str_eqb_eq in E. now left.
  - intros H. right. now apply IH.
Qed.

Lemma mapGet_notIn (k : str) (m : JsMap V) :
  mapGet k m = None -> ~ In k (map fst m).
Proof.
  induction m as [|[k' v'] m IH]; cbn [mapGet map fst]; [intros _ []|].
  destruct (str_eqb k' k) eqn:E; [discriminate|].
  apply str_eqb_neq in E. intros H [F | F]; [contradiction | now apply IH].
Qed.

Lemma mapDelete_keys (k k0 : str) (m : JsMap V) :
  In k0 (map fst (mapDelete k m)) -> In k0 (map fst m).
Proof.
  induction m as [|[k' v'] m IH]; cbn [mapDelete map fst]; [intros []|].
  destruct (str_eqb k' k); cbn [map fst].
  - now right.
  - intros [H | H]; [now left | right; now apply IH].
Qed.

Lemma mapDelete_gone (k : str) (m : JsMap V) :
  NoDup (map fst m) -> ~ In k (map fst (mapDelete k m)).
Proof.
  induction m as [|[k' v'] m IH]; cbn [mapDelete map fst]; intros N; [intros []|].
  inversion N as [|? ? Hn N']; subst.
  destruct (str_eqb k' k) eqn:E.
  - apply str_eqb_eq in E. now subst.
  - apply str_eqb_neq in E. cbn [map fst]. intros [H | H]; [contradiction|].
    now apply IH in H.
Qed.

Lemma mapDelete_nodup (k : str) (m : JsMap V) :
  NoDup (map fst m) -> NoDup (map fst (mapDelete k m)).
Proof.
  induction m as [|[k' v'] m IH]; cbn [mapDelete map fst]; intros N; [constructor|].
  inversion N as [|? ? Hn N']; subst.
  destruct (str_eqb k' k); [exact N'|].
  cbn [map fst]. constructor; [|now apply IH].
  intros H. apply Hn. eapply mapDelete_keys; eassumption.
Qed.

Lemma mapDelete_length (k : str) (v : V) (m : JsMap V) :
  mapGet k m = Some v -> S (length (mapDelete k m)) = length m.
Proof.
  induction m as [|[k' v'] m IH]; cbn [mapGet mapDelete]; [discriminate|].
  destruct (str_eqb k' k); [reflexivity|].
  intros H. cbn [length]. now rewrite IH.
Qed.

Lemma removelast_keys (k : str) (m : JsMap V) :
  In k (map fst (removelast m)) -> In k (map fst m).
Proof.
  induction m as [|[k' v'] m IH]; [intros []|].
  destruct m as [|e m]; [intros []|].
  change (removelast ((k', v') :: e :: m)) with ((k', v') :: removelast (e :: m)).
  cbn [map fst]. intros [H | H]; [now left | right; now apply IH].
Qed.

Lemma removelast_nodup (m : JsMap V) :
  NoDup (map fst m) -> NoDup (map fst (removelast m)).
Proof.
  induction m as [|[k' v'] m IH]; intros N; [constructor|].
  destruct m as [|e m]; [constructor|].
  change (removelast ((k', v') :: e :: m)) with ((k', v') :: removelast (e :: m)).
  inversion N as [|? ? Hn N']; subst. cbn [map fst]. constructor; [|now apply IH].
  intros H. exact (Hn (removelast_keys k' (e :: m) H)).
Qed.

Lemma removelast_length (m : JsMap V) : length (removelast m) = length m - 1.
Proof.
  induction m as [|e m IH]; [reflexivity|].
  destruct m as [|e' m]; [reflexivity|].
  change (removelast (e :: e' :: m)) with (e :: removelast (e' :: m)).
  cbn [length] in *. rewrite IH. lia.
Qed.

(** The cache holds at most [capacity] entries, one for each key. *)
Definition cacheOk (c : LRUCache V) : Prop :=
  1 <= capacity c /\ length (entries c) <= capacity c
  /\ NoDup (map fst (entries c)).

Lemma lruGet_ok (k : str) (c : LRUCache V) : cacheOk c -> cacheOk (snd (lruGet k c)).
Proof.
  intros (H1 & H2 & H3). unfold lruGet.
  destruct (mapGet k (entries c)) as [v|] eqn:E; cbn [snd]; [|now repeat split].
  repeat split; cbn [capacity entries]; [exact H1 | |].
  - cbn [length]. rewrite (mapDelete_length k v _ E). exact H2.
  - cbn [map fst]. constructor; [now apply mapDelete_gone | now apply mapDelete_nodup].
Qed.

Lemma lruSet_ok (k : str) (v : V) (c : LRUCache V) : cacheOk c -> cacheOk (lruSet k v c).
Proof.
  intros (H1 & H2 & H3). unfold lruSet.
  destruct (mapGet k (entries c)) as [v0|] eqn:E.
  - repeat split; cbn [capacity entries]; [exact H1 | |].
    + cbn [length]. rewrite (mapDelete_length k v0 _ E). exact H2.
    + cbn [map fst]. constructor; [now apply mapDelete_gone | now apply mapDelete_nodup].
  - apply mapGet_notIn in E.
    destruct (capacity c <=? length (entries c)) eqn:F.
    + apply Nat.leb_le in F. unfold evictLRU, cacheOk.
      cbn [capacity entries length map fst].
      repeat split; [exact H1 | |].
      * rewrite removelast_length. lia.
      * constructor; [|now apply removelast_nodup].
        intros H. apply E. now apply removelast_keys.
    + apply Nat.leb_gt in F. unfold cacheOk. cbn [capacity entries length map fst].
      repeat split; [exact H1 | lia |]. now constructor.
Qed.

Lemma lruGet_lruSet (k : str) (v : V) (c : LRUCache V) :
  fst (lruGet k (lruSet k v c)) = Some v.
Proof.
  unfold lruGet, lruSet.
  destruct (mapGet k (entries c)); cbn [entries mapGet]; now rewrite str_eqb_refl.
Qed.

Lemma lruGet_again (k : str) (v : V) (c : LRUCache V) :
  fst (lruGet k c) = Some v -> fst (lruGet k (snd (lruGet k c))) = Some v.
Proof.
  unfold lruGet at 1 3. destruct (mapGet k (entries c)) as [v0|]; cbn [fst snd];
    [|discriminate].
  intros H. unfold lruGet. cbn [entries mapGet]. now rewrite str_eqb_refl.
Qed.

End Cache.

(** X5. Storing a new key in a full cache evicts the least recently
    used entry and nothing else: the key at the tail is gone, every other
    entry is still found with its value, and the size is unchanged. *)
Theorem X5_lruSet_evicts_least_recently_used
  (V : Type) (k : str) (v : V) (c : LRUCache V)
  (es : list (str * V)) (kl : str) (vl : V) :
  entries c = es ++ [(kl, vl)] ->
  NoDup (map fst (entries c)) ->
  capacity c <= length (entries c) ->
  mapGet k (entries c) = None ->
  fst (lruGet kl (lruSet k v c)) = None
  /\ (forall k' v', mapGet k' es = Some v' ->
        fst (lruGet k' (lruSet k v c)) = Some v')
  /\ length (entries (lruSet k v c)) = length (entries c).
Proof.
  intros E N F G. unfold lruSet. rewrite G.
  apply Nat.leb_le in F. rewrite F. unfold evictLRU. cbn [capacity entries].
  rewrite E, removelast_last.
  apply (mapGet_notIn V) in G. rewrite E, map_app, in_app_iff in G. cbn [map fst In] in G.
  rewrite E, map_app in N. cbn [map fst] in N.
  apply NoDup_remove_2 in N. rewrite app_nil_r in N.
  split; [|split].
  - unfold lruGet. cbn [entries mapGet].
    destruct (str_eqb k kl) eqn:Q;
      [apply str_eqb_eq in Q; exfalso; apply G; right; left; now symmetry|].
    destruct (mapGet kl es) as [x|] eqn:M; [|reflexivity].
    apply (mapGet_In V) in M. contradiction.
  - intros k' v' M. unfold lruGet. cbn [entries mapGet].
    destruct (str_eqb k k') eqn:Q.
    + apply str_eqb_eq in Q. subst k'. apply (mapGet_In V) in M.
      exfalso; apply G; now left.
    + rewrite M. reflexivity.
  - cbn [length]. rewrite length_app. cbn [length]. lia.
Qed.

Lemma X5_lruSet_eviction_witness :
  let c := MkLRU 2 [(js "b", 2); (js "a", 1)] in
  fst (lruGet (js "a") (lruSet (js "c") 3 c)) = None
  /\ (forall k' v', mapGet k' [(js "b", 2)] = Some v' ->
        fst (lruGet k' (lruSet (js "c") 3 c)) = Some v')
  /\ length (entries (lruSet (js "c") 3 c)) = length (entries c).
Proof.
  cbv zeta.
  apply (X5_lruSet_evicts_least_recently_used nat (js "c") 3
           (MkLRU 2 [(js "b", 2); (js "a", 1)]) [(js "b", 2)] (js "a") 1).
  - reflexivity.
  - simpl. repeat constructor; simpl; intuition discriminate.
  - simpl. lia.
  - reflexivity.
Defined.

Definition blankFileError : str :=
  js "Error during conversion: fromFile parameter cannot be empty".

(** The results [resolveImport] stores: conversions and the error of a
    blank file path. *)
Definition storedResult (r : ConversionResult) : Prop :=
  convertedImport r <> None \/ reason r = Some blankFileError.

(** The test that lets a literal through to the cache and the resolver. *)
Definition passesRelativeTest (p : str) : Prop :=
  negb (startsWith p (js "./")) && negb (startsWith p (js "../")) = false.

Lemma resolveImport_hit (cwd : str) (cache : LRUCache ConversionResult)
  (s : PathResolverState) (p f : str) (r : ConversionResult) :
  passesRelativeTest p ->
  fst (lruGet (cacheKeyOf f p) cache) = Some r ->
  fst (resolveImport cwd cache s p f) = r.
Proof.
  unfold passesRelativeTest, resolveImport. intros -> H.
  destruct (lruGet (cacheKeyOf f p) cache) as [[cached|] c1]; cbn [fst] in *;
    [congruence | discriminate].
Qed.

Lemma not_stored (p : str) (why : string) :
  why <> "Error during conversion: fromFile parameter cannot be empty"%string ->
  ~ storedResult (MkConversion p None (Some (js why))).
Proof.
  intros N [H | H]; cbn [convertedImport reason] in H; [now apply H|].
  injection H as H. apply N.
  rewrite <- (string_of_list_ascii_of_string why).
  unfold js in H. rewrite H. reflexivity.
Qed.

(** What a call leaves behind: a result that is not one of those stored,
    or a cache that holds the result under the call's key. *)
Lemma resolveImport_cases (cwd : str) (cache : LRUCache ConversionResult)
  (s : PathResolverState) (p f : str) :
  ~ storedResult (fst (resolveImport cwd cache s p f))
  \/ (passesRelativeTest p
      /\ fst (lruGet (cacheKeyOf f p) (snd (resolveImport cwd cache s p f)))
         = Some (fst (resolveImport cwd cache s p f))).
Proof.
  unfold resolveImport, passesRelativeTest.
  destruct (negb (startsWith p (js "./")) && negb (startsWith p (js "../"))) eqn:R.
  - left. cbn [fst]. apply not_stored. discriminate.
  - destruct (lruGet (cacheKeyOf f p) cache) as [[cached|] c1] eqn:G.
    + right. split; [reflexivity|]. cbn [fst snd].
      replace c1 with (snd (lruGet (cacheKeyOf f p) cache)) by now rewrite G.
      apply lruGet_again. now rewrite G.
    + destruct (negb (truthy f) || negb (truthy (trim f))).
      * right. split; [reflexivity|]. cbn [fst snd]. apply lruGet_lruSet.
      * destruct (findBestMatch s _) as [best|].
        -- destruct (convertToAlias _ best) as [[|c conv]|].
           ++ left. cbn [fst]. apply not_stored. discriminate.
           ++ right. split; [reflexivity|]. cbn [fst snd]. apply lruGet_lruSet.
           ++ left. cbn [fst]. apply not_stored. discriminate.
        -- left. cbn [fst]. apply not_stored. discriminate.
Qed.

(** X2. A conversion, or the error of a blank file path, is remembered:
    the next call for the same file and literal returns the same result,
    whatever resolver state it is given. *)
Theorem X2_resolveImport_remembers_stored_results
  (cwd : str) (cache : LRUCache ConversionResult) (s s' : PathResolverState)
  (p f : str) :
  storedResult (fst (resolveImport cwd cache s p f)) ->
  fst (resolveImport cwd (snd (resolveImport cwd cache s p f)) s' p f)
  = fst (resolveImport cwd cache s p f).
Proof.
  intros St. destruct (resolveImport_cases cwd cache s p f) as [N | [R G]];
    [contradiction|].
  now apply resolveImport_hit.
Qed.

Lemma X2_resolveImport_remembers_witness :
  fst (resolveImport (js "/")
         (snd (resolveImport (js "/") resolveCache0 oneAlias (js "./b") (js "/p/src/a.ts")))
         noAlias (js "./b") (js "/p/src/a.ts"))
  = fst (resolveImport (js "/") resolveCache0 oneAlias (js "./b") (js "/p/src/a.ts")).
Proof.
  apply (X2_resolveImport_remembers_stored_results (js "/") resolveCache0 oneAlias
           noAlias (js "./b") (js "/p/src/a.ts")).
  left. vm_compute. discriminate.
Defined.

(** X3. [resolveImport] keeps the cache within bounds: a cache with at
    most [capacity] entries, one for each key, is left in that condition by
    every call. *)
Theorem X3_resolveImport_keeps_cache_bounded
  (cwd : str) (cache : LRUCache ConversionResult) (s : PathResolverState)
  (p f : str) :
  cacheOk ConversionResult cache ->
  cacheOk ConversionResult (snd (resolveImport cwd cache s p f)).
Proof.
  intros Ok. unfold resolveImport.
  destruct (negb (startsWith p (js "./")) && negb (startsWith p (js "../")));
    [exact Ok|].
  pose proof (lruGet_ok ConversionResult (cacheKeyOf f p) cache Ok) as Og.
  destruct (lruGet (cacheKeyOf f p) cache) as [[cached|] c1]; cbn [snd] in *;
    [exact Og|].
  destruct (negb (truthy f) || negb (truthy (trim f))); cbn [snd];
    [now apply lruSet_ok|].
  destruct (findBestMatch s _) as [best|]; [|exact Og].
  destruct (convertToAlias _ best) as [[|c conv]|]; cbn [snd];
    [exact Og | now apply lruSet_ok | exact Og].
Qed.

Lemma X3_resolveImport_cache_witness :
  cacheOk ConversionResult
    (snd (resolveImport (js "/") resolveCache0 oneAlias (js "./b") (js "/p/src/a.ts"))).
Proof.
  apply (X3_resolveImport_keeps_cache_bounded (js "/") resolveCache0 oneAlias
           (js "./b") (js "/p/src/a.ts")).
  unfold cacheOk, resolveCache0, lruNew. simpl. repeat split; [lia | lia | constructor].
Defined.

(** X6. On a cache miss a conversion is returned only for a literal
    that starts with [./] or [../], and only under a mapping of the state
    whose base directory is a string prefix of the resolved path: the result
    is that mapping's alias followed by the rest of the path. *)
Theorem X6_resolveImport_converts_under_a_matching_alias
  (cwd : str) (cache : LRUCache ConversionResult) (s : PathResolverState)
  (p f c : str) :
  fst (lruGet (cacheKeyOf f p) cache) = None ->
  convertedImport (fst (resolveImport cwd cache s p f)) = Some c ->
  ImportParser.isRelative p = true
  /\ exists m rest,
       In m (allMappings (pathMappings s))
       /\ Path.normalize (Path.resolve cwd [Path.dirname f; p]) = baseDirectory m ++ rest
       /\ convertToAlias (Path.resolve cwd [Path.dirname f; p]) m = Some c
       /\ c <> []
       /\ reason (fst (resolveImport cwd cache s p f))
          = Some (js "Converted using alias '" ++ alias m ++ js "'").
Proof.
  unfold resolveImport, ImportParser.isRelative. intros G.
  destruct (startsWith p (js "./")) eqn:R1; [|destruct (startsWith p (js "../")) eqn:R2];
    cbn [negb andb orb]; try (cbn [fst convertedImport]; discriminate).
  all: destruct (lruGet (cacheKeyOf f p) cache) as [[cached|] c1];
    cbn [fst] in G; [discriminate|].
  all: destruct (negb (truthy f) || negb (truthy (trim f)));
    [cbn [fst convertedImport]; discriminate|].
  all: pose proof (findBestMatch_bestOf s (Path.resolve cwd [Path.dirname f; p])) as [n B].
  all: destruct (findBestMatch s _) as [best|];
    [|cbn [fst convertedImport]; discriminate].
  all: unfold bestOf in B; cbn [fst snd] in B;
    destruct B as (_ & pre & post & E & Q & _).
  all: destruct (convertToAlias _ best) as [[|c0 conv]|] eqn:A;
    cbn [fst convertedImport reason]; try discriminate.
  all: intros H; injection H as <-; split; [reflexivity|].
  all: apply startsWith_app in Q as [rest Q].
  all: exists best, rest; split; [rewrite E; apply in_or_app; right; now left|].
  all: split; [exact Q|]; split; [exact A|]; split; [discriminate | reflexivity].
Qed.

Lemma X6_resolveImport_converts_witness :
  ImportParser.isRelative (js "./b") = true
  /\ exists m rest,
       In m (allMappings (pathMappings oneAlias))
       /\ Path.normalize (Path.resolve (js "/") [Path.dirname (js "/p/src/a.ts"); js "./b"])
          = baseDirectory m ++ rest
       /\ convertToAlias (Path.resolve (js "/") [Path.dirname (js "/p/src/a.ts"); js "./b"]) m
          = Some (js "@/b")
       /\ js "@/b" <> []
       /\ reason (fst (resolveImport (js "/") resolveCache0 oneAlias (js "./b")
                         (js "/p/src/a.ts")))
          = Some (js "Converted using alias '" ++ alias m ++ js "'").
Proof.
  apply (X6_resolveImport_converts_under_a_matching_alias (js "/") resolveCache0
           oneAlias (js "./b") (js "/p/src/a.ts") (js "@/b")); reflexivity.
Defined.

(** ** The reverse lookup when aliases share a directory *)

Lemma addAlias_other (lookup : JsMap str) (x : PathMapping) (d : str) :
  cleanDirectory x <> d -> mapGet d (addAlias lookup x) = mapGet d lookup.
Proof.
  intros N. destruct (addAlias_cases lookup x) as [-> | [-> _]]; [|reflexivity].
  apply mapGet_mapSet_other. congruence.
Qed.

Lemma addAlias_sets (seen : list PathMapping) (lookup : JsMap str) (m : PathMapping) :
  reverseOk seen lookup ->
  cleanDirectory m <> [] ->
  (forall a b, In a seen -> In b seen -> cleanAliasOf a <> cleanDirectory b) ->
  mapGet (cleanDirectory m) (addAlias lookup m) = Some (cleanAliasOf m).
Proof.
  intros [_ H2] Hd Hno. unfold addAlias. fold (cleanDirectory m) (cleanAliasOf m).
  destruct (mapGet (cleanDirectory m) lookup) as [a|] eqn:E; cbn [orEmpty].
  - destruct a as [|c a]; cbn [truthy negb orb]; [apply mapGet_mapSet_same|].
    destruct (mapGet (c :: a) lookup) as [x|] eqn:E'.
    + exfalso. destruct (H2 _ _ E) as (ma & Hma & _ & Ha).
      destruct (H2 _ _ E') as (mb & Hmb & Hb & _).
      apply (Hno ma mb Hma Hmb). congruence.
    + cbn [orEmpty length].
      destruct (cleanDirectory m) as [|c0 d0] eqn:D; [contradiction|].
      cbn [length Nat.ltb Nat.leb]. apply mapGet_mapSet_same.
  - cbn [truthy negb orb]. apply mapGet_mapSet_same.
Qed.

Lemma fold_addAlias_other (post : list PathMapping) (lookup : JsMap str) (d : str) :
  (forall x, In x post -> cleanDirectory x <> d) ->
  mapGet d (fold_left addAlias post lookup) = mapGet d lookup.
Proof.
  revert lookup; induction post as [|x post IH]; intros lookup H; cbn [fold_left];
    [reflexivity|].
  rewrite IH by (intros y Hy; apply H; now right).
  apply addAlias_other. apply H. now left.
Qed.

(** X4. When no directory is empty and no alias is spelled like a
    directory of the configuration, the reverse lookup holds, for every
    directory, the alias of the last mapping with that directory. *)
Theorem X4_reverse_lookup_last_alias_wins
  (config : ParsedConfig) (pre : list PathMapping) (last : PathMapping)
  (post : list PathMapping) :
  allMappings (configMappings config) = pre ++ last :: post ->
  (forall x, In x post -> cleanDirectory x <> cleanDirectory last) ->
  (forall x, In x (pre ++ last :: post) -> cleanDirectory x <> []) ->
  (forall a b, In a (pre ++ last :: post) -> In b (pre ++ last :: post) ->
     cleanAliasOf a <> cleanDirectory b) ->
  mapGet (cleanDirectory last) (aliasLookup (createPathResolver config))
  = Some (cleanAliasOf last).
Proof.
  intros E Hpost Hd Hno. unfold createPathResolver. cbn [aliasLookup]. rewrite E.
  rewrite fold_left_app. cbn [fold_left].
  rewrite fold_addAlias_other by exact Hpost.
  apply (addAlias_sets pre).
  - apply (fold_reverseOk pre [] []). split; [intros m [] | intros d a H; discriminate].
  - apply Hd. apply in_or_app. right. now left.
  - intros a b Ha Hb. apply Hno; apply in_or_app; now left.
Qed.

(** Two aliases of one directory. *)
Definition sharedDirectory : ParsedConfig :=
  MkParsedConfig (js ".")
    [(js "@", [mapping "@/*" "./src/*" "/p/src"]);
     (js "~", [mapping "~/*" "./src/*" "/p/src"])]
    (js "/p").

Lemma X4_reverse_lookup_witness :
  mapGet (cleanDirectory (mapping "~/*" "./src/*" "/p/src"))
    (aliasLookup (createPathResolver sharedDirectory))
  = Some (cleanAliasOf (mapping "~/*" "./src/*" "/p/src")).
Proof.
  apply (X4_reverse_lookup_last_alias_wins sharedDirectory
           [mapping "@/*" "./src/*" "/p/src"] (mapping "~/*" "./src/*" "/p/src") []).
  - reflexivity.
  - intros x [].
  - intros x [<- | [<- | []]]; vm_compute; discriminate.
  - intros a b [<- | [<- | []]] [<- | [<- | []]]; vm_compute; discriminate.
Defined.

End ResolverExtras.


(** * Further properties: the import parser *)

Section ParserExtras.
Import ImportParser.

Lemma filter_perm {A} (f : A -> bool) (l l' : list A) :
  Permutation l l' -> Permutation (filter f l) (filter f l').
Proof.
  induction 1 as [| x l l' _ IH | x y l | l l' l'' _ IH1 _ IH2]; cbn [filter].
  - constructor.
  - destruct (f x); [now constructor | exact IH].
  - destruct (f x), (f y); try apply Permutation_refl. apply perm_swap.
  - eapply Permutation_trans; eassumption.
Qed.

Lemma filter_sorted {A} (R : A -> A -> Prop) (f : A -> bool) (l : list A) :
  StronglySorted R l -> StronglySorted R (filter f l).
Proof.
  induction 1 as [|x l S IH F]; cbn [filter]; [constructor|].
  destruct (f x); [|exact IH].
  constructor; [exact IH|].
  rewrite Forall_forall in *. intros y Hy. apply F. now apply filter_In in Hy.
Qed.

Lemma filter_same {A} (f : A -> bool) (b : bool) (l : list A) :
  Forall (fun x => f x = b) l -> filter f l = if b then l else [].
Proof.
  induction 1 as [|x l Hx _ IH]; cbn [filter]; [now destruct b|].
  rewrite Hx, IH. now destruct b.
Qed.

Lemma strict_weak {A} (key : A -> nat) (l : list A) :
  StronglySorted (fun a b => key a < key b) l ->
  StronglySorted (fun a b => key a <= key b) l.
Proof.
  induction 1 as [|x l S IH F]; constructor; [exact IH|].
  eapply Forall_impl; [|exact F]. intros y Hy. cbv beta in Hy. lia.
Qed.

(** The removal of repeated neighbours changes nothing in a list whose
    start offsets increase strictly. *)
Lemma uniqueAfter_strict (p : ImportMatch) (ms : list ImportMatch) :
  StronglySorted (fun a b => startIndex a < startIndex b) (p :: ms) ->
  uniqueAfter p ms = ms.
Proof.
  revert p; induction ms as [|m ms IH]; intros p S; cbn [uniqueAfter]; [reflexivity|].
  inversion S as [|? ? S' F]; subst. inversion F as [|? ? Hm _]; subst.
  unfold sameKey. replace (startIndex m =? startIndex p) with false
    by (symmetry; apply Nat.eqb_neq; lia).
  cbn [andb]. now rewrite IH.
Qed.

Lemma uniqueMatchesOf_strict (ms : list ImportMatch) :
  StronglySorted (fun a b => startIndex a < startIndex b) ms ->
  uniqueMatchesOf ms = ms.
Proof.
  destruct ms as [|m ms]; [reflexivity|]. intros S. cbn [uniqueMatchesOf].
  now rewrite uniqueAfter_strict.
Qed.

Lemma sortedValid_strict (content : str) :
  StronglySorted (fun a b => startIndex a < startIndex b) (sortedValid content).
Proof.
  apply sorted_nodup_strict; [apply sortedValid_sorted | apply sortedValid_starts].
Qed.

(** X7. No two entries of [findImports] start at the same offset: the
    start offsets increase strictly along the list, and the filter that
    removes repeated neighbours removes nothing from the sorted list of
    valid matches. *)
Theorem X7_findImports_starts_strictly_increase (content : str) :
  StronglySorted (fun a b => startIndex a < startIndex b) (findImports content)
  /\ (let validMatches :=
        sortStable byStartAscending
          (validMatchesOf
             (safeParseImports parseES6Imports content
              ++ safeParseImports parseCommonJSImports content
              ++ safeParseImports parseDynamicImports content)) in
      uniqueMatchesOf validMatches = validMatches).
Proof.
  cbv zeta. rewrite allMatches_eq. fold (sortedValid content).
  rewrite findImports_sortedValid.
  rewrite (uniqueMatchesOf_strict _ (sortedValid_strict content)).
  split; [apply sortedValid_strict | reflexivity].
Qed.

(** ** Where an entry comes from *)

Lemma collected_entry (ty : ImportType) (content : str) (rs : list execResult)
  (m : ImportMatch) :
  In m (collected ty content rs) ->
  exists r l, In r rs /\ capture content r 1 = Some l /\ isRelative l = true
              /\ m = entryOf ty content r l.
Proof.
  induction rs as [|r rs IH]; cbn [collected]; [intros []|].
  intros H.
  assert (G : In m (collected ty content rs) ->
              exists r0 l, In r0 (r :: rs) /\ capture content r0 1 = Some l
                           /\ isRelative l = true /\ m = entryOf ty content r0 l).
  { intros H'. destruct (IH H') as (r0 & l & Hr0 & R).
    exists r0, l. split; [now right | exact R]. }
  destruct (capture content r 1) as [l|] eqn:C; [|now auto].
  destruct (isRelative l) eqn:R; [|now auto].
  destruct H as [<- | H]; [|now auto].
  exists r, l. split; [now left | auto].
Qed.

Lemma matchesOfTable_entry (table : list (ImportType * RegExp * syntaxKind))
  (content : str) (m : ImportMatch) :
  In m (matchesOfTable table content) ->
  exists ty rx k r l,
    In (ty, rx, k) table /\ In r (loopOf rx content)
    /\ capture content r 1 = Some l /\ isRelative l = true
    /\ m = entryOf ty content r l.
Proof.
  unfold matchesOfTable. intros H. apply in_flat_map in H as ([[ty rx] k] & He & H).
  cbn [fst snd] in H. apply collected_entry in H as (r & l & Hr & R).
  exists ty, rx, k, r, l. auto.
Qed.

(** A match of a pattern of the table is the text of [content] between its
    two offsets, and that text is of the pattern's syntax. *)
Lemma loopOf_span (rx : RegExp) (k : syntaxKind) (content : str) (r : execResult) :
  goodPattern rx k -> In r (loopOf rx content) ->
  mIndex r < mEnd r /\ mEnd r <= length content
  /\ mEnd r = mIndex r + length (matched content r)
  /\ classify (matched content r) = Some k.
Proof.
  intros (Hi & Hk & Hc) Hr.
  pose proof (kindOf_consuming rx k Hi Hk) as Hcons.
  destruct (execLoop_sound rx content Hcons (S (length content)) 0) as [F _].
  rewrite Forall_forall in F. specialize (F r Hr).
  destruct F as (_ & Hle & w & tail & Hs & He & L & _).
  assert (Hw : w <> []) by now apply Hcons.
  assert (Hm : matched content r = w).
  { unfold matched, slice. rewrite Hs, He.
    replace (mIndex r + length w - mIndex r) with (length w + 0) by lia.
    rewrite firstn_app_2. cbn [firstn]. apply app_nil_r. }
  assert (Hlen : length content - mIndex r = length w + length tail).
  { rewrite <- length_skipn, Hs. apply length_app. }
  rewrite Hm. repeat split.
  - destruct w; [contradiction | cbn [length] in He; lia].
  - lia.
  - exact He.
  - rewrite Hi in L. specialize (Hk w [] L). now rewrite app_nil_r in Hk.
Qed.

Lemma table_good (ty : ImportType) (rx : RegExp) (k : syntaxKind) :
  In (ty, rx, k) patternTable -> goodPattern rx k.
Proof.
  intros H. pose proof patternTable_good as G. rewrite Forall_forall in G.
  exact (G _ H).
Qed.

Lemma findImports_origin (content : str) (m : ImportMatch) :
  In m (findImports content) ->
  exists m0, In m0 (allMatchesOf content)
    /\ validateImportPath (importPath m0) = Some (importPath m)
    /\ startIndex m = startIndex m0 /\ fullMatch m = fullMatch m0
    /\ endIndex m = endIndex m0 /\ type m = type m0.
Proof.
  rewrite findImports_sortedValid. intros H. apply uniqueMatchesOf_In in H.
  unfold sortedValid in H.
  eapply Permutation_in in H; [|apply sortStable_perm].
  now apply validMatchesOf_In in H.
Qed.

(** X8. Every entry of [findImports] is the content's own text: its
    [fullMatch] is the content between [startIndex] and [endIndex], a
    non-empty span that lies inside the content. *)
Theorem X8_findImports_spans_are_the_content (content : str) :
  Forall (fun m =>
            startIndex m < endIndex m /\ endIndex m <= length content
            /\ fullMatch m = slice content (startIndex m) (endIndex m))
         (findImports content).
Proof.
  apply Forall_forall. intros m Hm.
  apply findImports_origin in Hm as (m0 & H0 & _ & -> & -> & -> & _).
  apply matchesOfTable_entry in H0 as (ty & rx & k & r & l & Ht & Hr & _ & _ & ->).
  destruct (loopOf_span rx k content r (table_good ty rx k Ht) Hr) as (A & B & C & _).
  cbn [entryOf startIndex endIndex fullMatch]. rewrite <- C.
  repeat split; [exact A | exact B].
Qed.

Lemma table_keyword (ty : ImportType) (rx : RegExp) (k : syntaxKind) :
  In (ty, rx, k) patternTable ->
  match ty with commonjs => k = KRequire | _ => k <> KRequire end.
Proof.
  unfold patternTable. cbn [In]. intros H.
  repeat (destruct H as [H | H];
          [inversion H; subst; first [reflexivity | discriminate]|]).
  contradiction.
Qed.

Lemma classify_keyword (s : str) (k : syntaxKind) :
  classify s = Some k ->
  if startsWith s (js "require") then k = KRequire
  else k <> KRequire /\ startsWith s (js "import") = true.
Proof.
  unfold classify. destruct (startsWith s (js "require")); [congruence|].
  destruct (startsWith s (js "import")); [|discriminate].
  intros H. split; [|reflexivity]. intros ->.
  destruct (dropWhile isSpace (skipn 6 s)) as [|c s1]; [discriminate|].
  repeat match type of H with
         | (if ?b then _ else _) = _ => destruct b; try discriminate
         | match ?l with [] => _ | _ :: _ => _ end = _ => destruct l; try discriminate
         end.
Qed.

(** X9. The statement text of an entry begins with the keyword of its
    type: [require] for a CommonJS entry, [import] for an ES6 or a dynamic
    one. *)
Theorem X9_findImports_statement_begins_with_keyword
  (content : str) (m : ImportMatch) :
  In m (findImports content) ->
  startsWith (fullMatch m)
    (match type m with commonjs => js "require" | _ => js "import" end) = true.
Proof.
  intros Hm.
  apply findImports_origin in Hm as (m0 & H0 & _ & _ & -> & _ & ->).
  apply matchesOfTable_entry in H0 as (ty & rx & k & r & l & Ht & Hr & _ & _ & ->).
  destruct (loopOf_span rx k content r (table_good ty rx k Ht) Hr) as (_ & _ & _ & C).
  cbn [entryOf fullMatch type].
  apply table_keyword in Ht. apply classify_keyword in C.
  destruct ty; cbv iota;
    destruct (startsWith (matched content r) (js "require"));
    first [reflexivity | congruence | exact (proj2 C) | now destruct C].
Qed.

Lemma X9_findImports_keyword_witness :
  startsWith (js "require('./a')") (js "require") = true.
Proof.
  apply (X9_findImports_statement_begins_with_keyword (js "x = require('./a')")
           (MkImportMatch (js "require('./a')") (js "./a") 4 18 commonjs)).
  vm_compute. left. reflexivity.
Defined.

(** X10. The three parse functions return for every content (group 1
    takes part in every match of their patterns), so [safeParseImports]
    passes their result on and never runs its retry on the content without
    comments. *)
Theorem X10_parse_functions_never_throw (content : str) :
  (exists ms, parseES6Imports content = Some ms
              /\ safeParseImports parseES6Imports content = ms)
  /\ (exists ms, parseCommonJSImports content = Some ms
                 /\ safeParseImports parseCommonJSImports content = ms)
  /\ (exists ms, parseDynamicImports content = Some ms
                 /\ safeParseImports parseDynamicImports content = ms).
Proof.
  unfold safeParseImports. rewrite parseES6Imports_eq.
  unfold parseCommonJSImports, parseDynamicImports.
  rewrite (pass_collected commonjs COMMONJS_REQUIRE KRequire content (good_at 5)).
  rewrite (pass_collected dynamic DYNAMIC_IMPORT KDynamic content (good_at 6)).
  repeat split; eexists; split; reflexivity.
Qed.

(** ** The options *)

(** The option that governs a type of import. *)
Definition enabled (opts : ImportParsingOptions) (ty : ImportType) : bool :=
  match ty with
  | es6 => includeES6 opts
  | commonjs => includeCommonJS opts
  | dynamic => includeDynamic opts
  end.

Lemma collected_type (ty : ImportType) (content : str) (rs : list execResult) :
  Forall (fun m => type m = ty) (collected ty content rs).
Proof.
  induction rs as [|r rs IH]; cbn [collected]; [constructor|].
  destruct (capture content r 1) as [l|]; [|exact IH].
  destruct (isRelative l); [|exact IH]. now constructor.
Qed.

Lemma validMatchesOf_filter (f : ImportType -> bool) (ms : list ImportMatch) :
  validMatchesOf (filter (fun m => f (type m)) ms)
  = filter (fun m => f (type m)) (validMatchesOf ms).
Proof.
  induction ms as [|m ms IH]; cbn [validMatchesOf filter]; [reflexivity|].
  destruct (f (type m)) eqn:E; cbn [validMatchesOf].
  - destruct (validateImportPath (importPath m)) as [p|]; [|exact IH].
    destruct (truthy p); [|exact IH].
    cbn [filter type]. rewrite E. now rewrite IH.
  - destruct (validateImportPath (importPath m)) as [p|]; [|exact IH].
    destruct (truthy p); [|exact IH].
    cbn [filter type]. rewrite E. exact IH.
Qed.

(** X11. The options select by type: [findImports] with options returns
    the entries of the full result whose type is switched on, in the same
    order. *)
Theorem X11_findImportsWith_selects_by_type
  (content : str) (opts : ImportParsingOptions) :
  findImportsWith content opts
  = filter (fun m => enabled opts (type m)) (findImports content).
Proof.
  destruct content as [|c0 content0]; [reflexivity|].
  set (content := c0 :: content0).
  set (f := fun m => enabled opts (type m)).
  rewrite findImports_sortedValid.
  rewrite (uniqueMatchesOf_strict _ (sortedValid_strict content)).
  unfold findImportsWith. change (negb (truthy content)) with false. cbv iota zeta.
  assert (E : (if includeES6 opts then safeParseImports parseES6Imports content else [])
              ++ (if includeCommonJS opts
                  then safeParseImports parseCommonJSImports content else [])
              ++ (if includeDynamic opts
                  then safeParseImports parseDynamicImports content else [])
              = filter f (allMatchesOf content)).
  { rewrite <- allMatches_eq. rewrite !filter_app.
    unfold safeParseImports. rewrite parseES6Imports_eq.
    unfold parseCommonJSImports, parseDynamicImports.
    rewrite (pass_collected commonjs COMMONJS_REQUIRE KRequire content (good_at 5)).
    rewrite (pass_collected dynamic DYNAMIC_IMPORT KDynamic content (good_at 6)).
    rewrite (filter_same f (includeES6 opts)
               (matchesOfTable (firstn 5 patternTable) content)).
    2:{ cbn [matchesOfTable patternTable firstn flat_map fst snd].
        repeat (apply Forall_app; split); try constructor;
          (eapply Forall_impl; [|apply collected_type]);
          intros m Hm; unfold f; cbv beta in Hm; now rewrite Hm. }
    rewrite (filter_same f (includeCommonJS opts)).
    2:{ eapply Forall_impl; [|apply collected_type].
        intros m Hm; unfold f; cbv beta in Hm; now rewrite Hm. }
    rewrite (filter_same f (includeDynamic opts)).
    2:{ eapply Forall_impl; [|apply collected_type].
        intros m Hm; unfold f; cbv beta in Hm; now rewrite Hm. }
    reflexivity. }
  rewrite E. unfold f at 1. rewrite (validMatchesOf_filter (enabled opts)). fold f.
  assert (S : sortStable byStartAscending (filter f (validMatchesOf (allMatchesOf content)))
              = filter f (sortedValid content)).
  { apply (sorted_unique startIndex).
    - pose proof (sortStable_sorted _ byStartAscending byStart_total byStart_trans
                    (filter f (validMatchesOf (allMatchesOf content)))) as S.
      induction S as [|x l S IH F]; constructor; [exact IH|].
      eapply Forall_impl; [|exact F]. intros y Hy. now apply Nat.leb_le.
    - apply filter_sorted, sortedValid_strict.
    - eapply Permutation_trans; [apply sortStable_perm|].
      apply filter_perm. apply Permutation_sym. unfold sortedValid. apply sortStable_perm. }
  rewrite S. apply uniqueMatchesOf_strict. apply filter_sorted, sortedValid_strict.
Qed.

End ParserExtras.


(** * Further properties: the ignore manager *)

Section IgnoreExtras.
Import IgnoreManager.

(** ** The path that is tested *)

Definition backslash : ascii := "\"%char.

(** Every backslash replaced by a slash. *)
Definition unslash (s : str) : str :=
  map (fun c => if Ascii.eqb c backslash then "/"%char else c) s.

(** One leading slash removed. *)
Definition dropSlash (s : str) : str :=
  if startsWith s (js "/") then sliceFrom s 1 else s.

Lemma charEq_false_iff (c a : ascii) : charEq false c a = true <-> a = c.
Proof.
  split; [apply charEq_exact|]. intros ->. unfold charEq. apply Nat.eqb_refl.
Qed.

Lemma searchFrom_backslash (t : str) (i : nat) :
  (searchFrom (globalRe (Lit backslash)) i t = None /\ unslash t = t)
  \/ exists pre post,
       t = pre ++ backslash :: post /\ unslash pre = pre
       /\ searchFrom (globalRe (Lit backslash)) i t
          = Some (ExecResult (i + length pre) (S (i + length pre)) []).
Proof.
  revert i; induction t as [|a t IH]; intros i.
  - left. split; reflexivity.
  - cbn [searchFrom]. unfold matchAt. cbn [globalRe reTree reIgnoreCase matchRe rest].
    destruct (charEq false backslash a) eqn:E.
    + apply charEq_false_iff in E. subst a. right. exists [], t.
      cbn [app length advance idx caps]. rewrite Nat.add_0_r. repeat split.
    + assert (Na : Ascii.eqb a backslash = false).
      { apply Ascii.eqb_neq. intros ->.
        assert (charEq false backslash backslash = true) by now apply charEq_false_iff.
        congruence. }
      destruct (IH (S i)) as [[H1 H2] | (pre & post & H1 & H2 & H3)].
      * left. split; [exact H1|]. cbn [unslash map]. rewrite Na. f_equal. exact H2.
      * right. exists (a :: pre), post. subst t. cbn [app length unslash map].
        rewrite Na. fold (unslash pre). rewrite H2, H3.
        repeat split. f_equal. f_equal; lia.
Qed.

Lemma replaceAllFrom_backslash (s : str) (fuel i : nat) :
  i <= length s -> length s - i < fuel ->
  replaceAllFrom fuel (globalRe (Lit backslash)) s (js "/") i i = unslash (skipn i s).
Proof.
  revert i; induction fuel as [|f IH]; intros i Hi Hf; [lia|].
  cbn [replaceAllFrom]. unfold exec.
  replace (length s <? i) with false by (symmetry; apply Nat.ltb_ge; lia).
  destruct (searchFrom_backslash (skipn i s) i) as [[H1 H2] | (pre & post & H1 & H2 & H3)].
  - rewrite H1. now rewrite H2.
  - rewrite H3. cbn [mIndex mEnd].
    assert (L : length s - i = length pre + S (length post)).
    { rewrite <- length_skipn, H1, length_app. reflexivity. }
    replace (S (i + length pre) =? i + length pre) with false
      by (symmetry; apply Nat.eqb_neq; lia).
    rewrite getSubstitution_plain
      by (unfold noDollar; cbn; intuition discriminate).
    rewrite IH by lia.
    unfold slice. rewrite H1.
    replace (i + length pre - i) with (length pre + 0) by lia.
    rewrite firstn_app_2. cbn [firstn]. rewrite app_nil_r.
    replace (S (i + length pre)) with (S (length pre) + i) by lia.
    rewrite <- skipn_skipn, H1.
    replace (S (length pre)) with (length (pre ++ [backslash]))
      by (rewrite length_app; cbn [length]; lia).
    replace (pre ++ backslash :: post) with ((pre ++ [backslash]) ++ post)
      by now rewrite <- app_assoc.
    rewrite skipn_app, Nat.sub_diag, skipn_all. cbn [skipn app].
    assert (U : unslash ((pre ++ [backslash]) ++ post) = pre ++ js "/" ++ unslash post).
    { unfold unslash. rewrite !map_app. fold (unslash pre). rewrite H2.
      rewrite <- app_assoc. reflexivity. }
    rewrite U. reflexivity.
Qed.

Lemma replaceAll_backslash (s : str) :
  replaceAll (globalRe (Lit backslash)) s (js "/") = unslash s.
Proof.
  unfold replaceAll. rewrite replaceAllFrom_backslash by lia. reflexivity.
Qed.

Lemma cleanPathOf_eq (filePath : str) :
  cleanPathOf filePath = dropSlash (unslash filePath).
Proof.
  unfold cleanPathOf, dropSlash. cbv zeta.
  change (Lit "\"%char) with (Lit backslash). now rewrite replaceAll_backslash.
Qed.

Lemma unslash_idem (s : str) : unslash (unslash s) = unslash s.
Proof.
  unfold unslash. rewrite map_map. apply map_ext. intros c.
  destruct (Ascii.eqb c backslash) eqn:E; [reflexivity | now rewrite E].
Qed.

Lemma shouldIgnore_cleanPath (state : IgnoreState) (p q : str) :
  cleanPathOf p = cleanPathOf q -> shouldIgnore state p = shouldIgnore state q.
Proof. unfold shouldIgnore. cbv zeta. now intros ->. Qed.

(** X12. [shouldIgnore] tests the path with every backslash replaced by
    a slash and one leading slash removed; so a path gives the same answer
    with either separator, and with or without a leading slash. *)
Theorem X12_shouldIgnore_normalizes_separators (state : IgnoreState) (filePath : str) :
  cleanPathOf filePath = dropSlash (unslash filePath)
  /\ shouldIgnore state (unslash filePath) = shouldIgnore state filePath
  /\ (startsWith (unslash filePath) (js "/") = false ->
      shouldIgnore state (js "/" ++ filePath) = shouldIgnore state filePath
      /\ shouldIgnore state (backslash :: filePath) = shouldIgnore state filePath).
Proof.
  split; [apply cleanPathOf_eq|]. split.
  - apply shouldIgnore_cleanPath. rewrite !cleanPathOf_eq. now rewrite unslash_idem.
  - intros H. split; apply shouldIgnore_cleanPath; rewrite !cleanPathOf_eq;
      unfold dropSlash; rewrite H; reflexivity.
Qed.

(** ** States made by [createIgnoreState] *)

Lemma filterIgnoredFiles_spec (lines : list str) (dirs : option bool)
  (filePaths : list str) :
  let state := MkIgnoreState (compilePatterns lines) lines dirs in
  filterIgnoredFiles state filePaths
  = Some (filter (fun f => match shouldIgnore state f with
                           | Some r => negb (shouldIgnore_ r)
                           | None => false
                           end) filePaths).
Proof.
  cbv zeta. induction filePaths as [|f fs IH]; cbn [filterIgnoredFiles filter];
    [reflexivity|].
  rewrite IH. rewrite shouldIgnore_spec.
  destruct (shouldIgnore_ _); reflexivity.
Qed.

(** X13. For a state made by [createIgnoreState] neither [shouldIgnore]
    nor [filterIgnoredFiles] throws; [filterIgnoredFiles] keeps, in order,
    exactly the paths that [shouldIgnore] does not ignore, and filtering its
    result again changes nothing. *)
Theorem X13_filterIgnoredFiles_keeps_the_paths_not_ignored
  (useDefaults ignoreNodeModules : bool)
  (fileLines additionalPatterns : option (list str)) (dirs : option bool)
  (filePaths : list str) :
  let state := createIgnoreState useDefaults ignoreNodeModules fileLines
                 additionalPatterns dirs in
  (forall f, exists r, shouldIgnore state f = Some r)
  /\ exists kept,
       filterIgnoredFiles state filePaths = Some kept
       /\ kept = filter (fun f => match shouldIgnore state f with
                                  | Some r => negb (shouldIgnore_ r)
                                  | None => false
                                  end) filePaths
       /\ filterIgnoredFiles state kept = Some kept.
Proof.
  intros state. set (lines := originalPatterns state).
  assert (E : state = MkIgnoreState (compilePatterns lines) lines dirs) by reflexivity.
  clearbody lines state. subst state.
  split.
  - intros f. rewrite shouldIgnore_spec. now eexists.
  - eexists. split; [apply filterIgnoredFiles_spec|]. split; [reflexivity|].
    rewrite filterIgnoredFiles_spec. f_equal.
    induction filePaths as [|f fs IH]; cbn [filter]; [reflexivity|].
    destruct (match shouldIgnore _ f with Some r => negb (shouldIgnore_ r) | None => false end)
      eqn:E; [|exact IH].
    cbn [filter]. rewrite E. f_equal. exact IH.
Qed.

(** The lines of the ignore file that become patterns. *)
Definition isPatternLine (line : str) : bool :=
  truthy (trim line) && negb (startsWith (trim line) (js "#")).

(** X14. Blank lines and comment lines of the ignore file have no
    effect: the state made from a file is the state made from its other
    lines. *)
Theorem X14_createIgnoreState_skips_blank_and_comment_lines
  (useDefaults ignoreNodeModules : bool) (fileLines : list str)
  (additionalPatterns : option (list str)) (dirs : option bool) :
  createIgnoreState useDefaults ignoreNodeModules (Some fileLines)
    additionalPatterns dirs
  = createIgnoreState useDefaults ignoreNodeModules
      (Some (filter isPatternLine fileLines)) additionalPatterns dirs
  /\ forall line, In line fileLines -> isPatternLine line = false ->
       ~ In (trim line)
           (filter (fun l => truthy l && negb (startsWith l (js "#")))
                   (map trim fileLines)).
Proof.
  split.
  - unfold createIgnoreState. cbv zeta.
    assert (E : filter (fun line => truthy line && negb (startsWith line (js "#")))
                  (map trim (filter isPatternLine fileLines))
                = filter (fun line => truthy line && negb (startsWith line (js "#")))
                    (map trim fileLines)).
    { induction fileLines as [|l ls IH]; cbn [filter map]; [reflexivity|].
      unfold isPatternLine at 1.
      destruct (truthy (trim l) && negb (startsWith (trim l) (js "#"))) eqn:F;
        cbn [map filter]; rewrite ?F, IH; reflexivity. }
    now rewrite E.
  - intros line _ F H. apply filter_In in H as [_ H].
    unfold isPatternLine in F. congruence.
Qed.

(** ** Letter case *)

(** The lower-case form of an ASCII letter; other code units are left as
    they are. *)
Definition lower (c : ascii) : ascii :=
  let n := code c in
  if (65 <=? n) && (n <=? 90) then ascii_of_nat (n + 32) else c.

Definition sameLetters (a b : ascii) : Prop := lower a = lower b.

Lemma lower_facts (a : ascii) :
  canonicalize true (lower a) = canonicalize true a
  /\ isSpace (lower a) = isSpace a
  /\ isWord (lower a) = isWord a
  /\ isLineTerminator (lower a) = isLineTerminator a
  /\ Ascii.eqb (lower a) backslash = Ascii.eqb a backslash
  /\ Ascii.eqb "/" (lower a) = Ascii.eqb "/" a.
Proof.
  destruct a as [b0 b1 b2 b3 b4 b5 b6 b7].
  destruct b0, b1, b2, b3, b4, b5, b6, b7; vm_compute; repeat split.
Qed.

Lemma sameLetters_facts (a b : ascii) :
  sameLetters a b ->
  (forall c, charEq true c a = charEq true c b)
  /\ isSpace a = isSpace b
  /\ isWord a = isWord b
  /\ isLineTerminator a = isLineTerminator b
  /\ Ascii.eqb a backslash = Ascii.eqb b backslash
  /\ Ascii.eqb "/" a = Ascii.eqb "/" b.
Proof.
  unfold sameLetters. intros E.
  destruct (lower_facts a) as (A1 & A2 & A3 & A4 & A5 & A6).
  destruct (lower_facts b) as (B1 & B2 & B3 & B4 & B5 & B6).
  rewrite E in A1, A2, A3, A4, A5, A6.
  repeat split; try congruence.
  intros c. unfold charEq. congruence.
Qed.

Definition simState (st st' : mstate) : Prop :=
  idx st = idx st' /\ caps st = caps st' /\ Forall2 sameLetters (rest st) (rest st').

Definition simRes (o o' : option mstate) : Prop :=
  match o, o' with
  | None, None => True
  | Some st, Some st' => simState st st'
  | _, _ => False
  end.

Definition simCont (k k' : cont) : Prop :=
  forall st st', simState st st' -> simRes (k st) (k' st').

Definition simBody (body : mstate -> cont -> option mstate) : Prop :=
  forall st st' k k', simState st st' -> simCont k k' ->
    simRes (body st k) (body st' k').

Lemma simRes_alt (o o' p p' : option mstate) :
  simRes o o' -> simRes p p' ->
  simRes (match o with Some x => Some x | None => p end)
         (match o' with Some x => Some x | None => p' end).
Proof. destruct o, o'; cbn; tauto. Qed.

Lemma simState_advance (st st' : mstate) (t t' : str) :
  simState st st' -> Forall2 sameLetters t t' ->
  simState (advance st t) (advance st' t').
Proof.
  intros (E & C & _) F. unfold simState, advance. cbn [idx rest caps].
  repeat split; congruence.
Qed.

Lemma starLoop_sim (body : mstate -> cont -> option mstate) :
  simBody body ->
  forall fuel st st' k k', simState st st' -> simCont k k' ->
    simRes (starLoop body fuel st k) (starLoop body fuel st' k').
Proof.
  intros B. induction fuel as [|f IH]; intros st st' k k' S K; cbn [starLoop].
  - now apply K.
  - apply simRes_alt; [|now apply K].
    apply B; [exact S|]. intros s1 s1' S1.
    destruct S as (E0 & _), S1 as (E1 & C1 & R1). rewrite <- E0, <- E1.
    destruct (idx s1 =? idx st); [exact I|].
    apply IH; [repeat split; assumption | exact K].
Qed.

Lemma lazyLoop_sim (body : mstate -> cont -> option mstate) :
  simBody body ->
  forall fuel st st' k k', simState st st' -> simCont k k' ->
    simRes (lazyLoop body fuel st k) (lazyLoop body fuel st' k').
Proof.
  intros B. induction fuel as [|f IH]; intros st st' k k' S K; cbn [lazyLoop].
  - now apply K.
  - apply simRes_alt; [now apply K|].
    apply B; [exact S|]. intros s1 s1' S1.
    destruct S as (E0 & _), S1 as (E1 & C1 & R1). rewrite <- E0, <- E1.
    destruct (idx s1 =? idx st); [exact I|].
    apply IH; [repeat split; assumption | exact K].
Qed.

Lemma setMatches_sim (neg : bool) (cs : list cset) (a b : ascii) :
  sameLetters a b -> setMatches true neg cs a = setMatches true neg cs b.
Proof.
  intros E. apply sameLetters_facts in E as (E1 & E2 & E3 & _).
  unfold setMatches. f_equal.
  induction cs as [|item cs IH]; cbn [existsb]; [reflexivity|].
  rewrite IH. f_equal. destruct item; cbn [csetMem]; congruence.
Qed.

(** Under the [i] flag the matcher cannot tell two inputs apart that
    differ in the case of ASCII letters only. *)
Lemma matchRe_sim (r : re) : simBody (matchRe true r).
Proof.
  induction r as [ | c | | neg cs | | | | r1 IH1 r2 IH2 | r1 IH1 r2 IH2
                 | r1 IH1 | r1 IH1 | r1 IH1 | r1 IH1 | n r1 IH1 ];
    intros st st' k k' S K; cbn [matchRe].
  - now apply K.
  - pose proof S as (_ & _ & F). destruct F as [|a b t t' E F]; [exact I|].
    apply sameLetters_facts in E as (E1 & _). rewrite (E1 c).
    destruct (charEq true c b); [|exact I].
    apply K. now apply simState_advance.
  - pose proof S as (_ & _ & F). destruct F as [|a b t t' E F]; [exact I|].
    apply sameLetters_facts in E as (_ & _ & _ & E4 & _). rewrite E4.
    destruct (isLineTerminator b); [exact I|].
    apply K. now apply simState_advance.
  - pose proof S as (_ & _ & F). destruct F as [|a b t t' E F]; [exact I|].
    rewrite (setMatches_sim neg cs a b E).
    destruct (setMatches true neg cs b); [|exact I].
    apply K. now apply simState_advance.
  - pose proof S as (E & _). rewrite <- E.
    destruct (idx st =? 0); [now apply K | exact I].
  - pose proof S as (_ & _ & F). destruct F; [now apply K | exact I].
  - pose proof S as (_ & _ & F). destruct F as [|a b t t' E F]; [now apply K|].
    apply sameLetters_facts in E as (_ & _ & _ & E4 & _). rewrite E4.
    destruct (isLineTerminator b); [now apply K | exact I].
  - apply IH1; [exact S|]. intros s1 s1' S1. now apply IH2.
  - apply simRes_alt; [now apply IH1 | now apply IH2].
  - pose proof S as (_ & _ & F). rewrite (Forall2_length F).
    now apply starLoop_sim.
  - pose proof S as (_ & _ & F). rewrite (Forall2_length F).
    now apply lazyLoop_sim.
  - apply IH1; [exact S|]. intros s1 s1' S1.
    pose proof S1 as (_ & _ & F). rewrite (Forall2_length F).
    now apply starLoop_sim.
  - apply simRes_alt; [|now apply K].
    apply IH1; [exact S|]. intros s1 s1' S1.
    destruct S as (E & _). pose proof S1 as (E1 & _). rewrite <- E, <- E1.
    destruct (idx s1 =? idx st); [exact I | now apply K].
  - apply IH1; [exact S|]. intros s1 s1' S1. apply K.
    destruct S as (E & _), S1 as (E1 & C1 & R1).
    unfold simState, setCap. cbn [idx rest caps]. repeat split; congruence.
Qed.

Lemma searchFrom_sim (rx : RegExp) (s s' : str) :
  reIgnoreCase rx = true -> Forall2 sameLetters s s' ->
  forall i, searchFrom rx i s = searchFrom rx i s'.
Proof.
  intros Hi F. induction F as [|a b t t' E F IH]; intros i; cbn [searchFrom].
  - unfold matchAt. rewrite Hi.
    assert (S : simRes (matchRe true (reTree rx) (MState i [] []) (fun st => Some st))
                       (matchRe true (reTree rx) (MState i [] []) (fun st => Some st)))
      by (apply matchRe_sim; [repeat split; constructor | intros x y H; exact H]).
    reflexivity.
  - unfold matchAt. rewrite Hi.
    assert (S : simRes (matchRe true (reTree rx) (MState i (a :: t) []) (fun st => Some st))
                       (matchRe true (reTree rx) (MState i (b :: t') []) (fun st => Some st))).
    { apply matchRe_sim; [|intros x y H; exact H].
      repeat split; cbn [rest]. now constructor. }
    destruct (matchRe true (reTree rx) (MState i (a :: t) []) _) as [x|],
             (matchRe true (reTree rx) (MState i (b :: t') []) _) as [y|];
      cbn [simRes] in S; try contradiction.
    + destruct S as (-> & -> & _). reflexivity.
    + apply IH.
Qed.

Lemma test_sim (rx : RegExp) (s s' : str) :
  reIgnoreCase rx = true -> Forall2 sameLetters s s' -> test rx s = test rx s'.
Proof.
  intros Hi F. unfold test, exec. cbn [skipn Nat.ltb Nat.leb].
  now rewrite (searchFrom_sim rx s s' Hi F).
Qed.

Lemma newRegExp_flag (source : str) (ic : bool) (rx : RegExp) :
  newRegExp source ic = Some rx -> reIgnoreCase rx = ic.
Proof.
  unfold newRegExp.
  destruct (parseDisjunction _ source 0) as [[[r [|c t]] n]|]; try discriminate.
  now intros [= <-].
Qed.

Lemma compilePattern_sim (pattern s s' : str) :
  Forall2 sameLetters s s' ->
  test (compilePattern pattern) s = test (compilePattern pattern) s'.
Proof.
  intros F. unfold compilePattern. cbv zeta.
  destruct (_ || _); [now rewrite !never_test|].
  destruct (newRegExp _ true) as [rx|] eqn:E; [|now rewrite !never_test].
  apply test_sim; [now apply newRegExp_flag in E | exact F].
Qed.

Lemma unslash_sim (s s' : str) :
  Forall2 sameLetters s s' -> Forall2 sameLetters (unslash s) (unslash s').
Proof.
  induction 1 as [|a b t t' E F IH]; cbn [unslash map]; constructor; [|exact IH].
  pose proof (sameLetters_facts a b E) as (_ & _ & _ & _ & E5 & _). rewrite E5.
  destruct (Ascii.eqb b backslash); [reflexivity | exact E].
Qed.

Lemma dropSlash_sim (s s' : str) :
  Forall2 sameLetters s s' -> Forall2 sameLetters (dropSlash s) (dropSlash s').
Proof.
  intros F. unfold dropSlash. destruct F as [|a b t t' E F]; [constructor|].
  cbn [startsWith js list_ascii_of_string sliceFrom skipn].
  pose proof (sameLetters_facts a b E) as (_ & _ & _ & _ & _ & E6). rewrite E6.
  destruct (Ascii.eqb "/" b); cbn [andb]; [exact F | now constructor].
Qed.

Lemma find_pointwise {A} (f g : A -> bool) (l : list A) :
  (forall x, f x = g x) -> find f l = find g l.
Proof.
  intros E. induction l as [|x l IH]; cbn [find]; [reflexivity|].
  rewrite E, IH. reflexivity.
Qed.

Lemma sameLetters_of_map (p q : str) :
  map lower p = map lower q -> Forall2 sameLetters p q.
Proof.
  revert q; induction p as [|a p IH]; intros [|b q] E; try discriminate;
    [constructor|].
  cbn [map] in E. injection E as E1 E2. constructor; [exact E1 | now apply IH].
Qed.

(** X15. The patterns are compiled with the [i] flag: two paths that
    differ only in the case of ASCII letters get the same answer from
    [shouldIgnore]. *)
Theorem X15_shouldIgnore_disregards_letter_case
  (lines : list str) (dirs : option bool) (p q : str) :
  map lower p = map lower q ->
  shouldIgnore (MkIgnoreState (compilePatterns lines) lines dirs) p
  = shouldIgnore (MkIgnoreState (compilePatterns lines) lines dirs) q.
Proof.
  intros E. apply sameLetters_of_map in E.
  assert (F : Forall2 sameLetters (cleanPathOf p) (cleanPathOf q))
    by (rewrite !cleanPathOf_eq; now apply dropSlash_sim, unslash_sim).
  rewrite !shouldIgnore_spec. unfold lastMatching.
  rewrite (find_pointwise (fun l => test (compilePattern l) (cleanPathOf p))
                    (fun l => test (compilePattern l) (cleanPathOf q)));
    [reflexivity|].
  intros l. now apply compilePattern_sim.
Qed.

Lemma X15_shouldIgnore_letter_case_witness :
  shouldIgnore (MkIgnoreState (compilePatterns [js "dist/**"]) [js "dist/**"] None)
    (js "DIST/Main.JS")
  = shouldIgnore (MkIgnoreState (compilePatterns [js "dist/**"]) [js "dist/**"] None)
      (js "dist/main.js").
Proof.
  apply (X15_shouldIgnore_disregards_letter_case [js "dist/**"] None
           (js "DIST/Main.JS") (js "dist/main.js")).
  reflexivity.
Defined.

(** ** The default patterns *)

Lemma starLoop_dot_all (b : str) :
  Forall (fun c => isLineTerminator c = false) b ->
  forall (fuel i : nat) (cs : list (nat * (nat * nat))) (k : cont),
    length b <= fuel ->
    k (MState (i + length b) [] cs) <> None ->
    starLoop (matchRe true Dot) fuel (MState i b cs) k <> None.
Proof.
  set (body := matchRe true Dot).
  induction 1 as [|a t Ha _ IH]; intros fuel i cs k Hf Hk.
  - cbn [length] in Hk. rewrite Nat.add_0_r in Hk.
    destruct fuel; cbn [starLoop]; [exact Hk|].
    unfold body at 1. cbn [matchRe rest]. exact Hk.
  - destruct fuel as [|f]; [cbn [length] in Hf; lia|].
    cbn [starLoop]. unfold body at 1. cbn [matchRe rest]. rewrite Ha.
    cbn [advance idx caps].
    replace (S i =? i) with false by (symmetry; apply Nat.eqb_neq; lia).
    specialize (IH f (S i) cs k).
    change (advance (MState i (a :: t) cs) t) with (MState (S i) t cs).
    destruct (starLoop body f (MState (S i) t cs) k); cbv iota; [discriminate|].
    exfalso. apply IH; [cbn [length] in Hf; lia | | reflexivity].
    cbn [length] in Hk. now replace (S i + length t) with (i + S (length t)) by lia.
Qed.

Lemma searchFrom_later (rx : RegExp) (u v : str) (i : nat) :
  matchAt rx (i + length u) v <> None -> searchFrom rx i (u ++ v) <> None.
Proof.
  revert i; induction u as [|a u IH]; intros i H.
  - cbn [length app] in *. rewrite Nat.add_0_r in H.
    destruct v; cbn [searchFrom]; destruct (matchAt rx i _); try discriminate;
      contradiction.
  - cbn [app searchFrom]. destruct (matchAt rx i (a :: u ++ v)); [discriminate|].
    apply IH. cbn [length] in H. now replace (S i + length u) with (i + S (length u)) by lia.
Qed.

(** The expression compiled from the line [node_modules/**]. *)
Definition nodeModulesRegExp : RegExp := compilePattern (js "node_modules/**").

Lemma nodeModulesRegExp_eq :
  nodeModulesRegExp
  = MkRegExp
      (Seq (Group 1 (Alt (Seq Bol Empty) (Seq (Lit "/") Empty)))
         (fold_right Seq Empty (map Lit (js "node_modules/") ++ [Star Dot; Eol])))
      true.
Proof. vm_compute. reflexivity. Qed.

Lemma nodeModules_after_slash (b : str) (j : nat) :
  Forall (fun c => isLineTerminator c = false) b ->
  matchAt nodeModulesRegExp j (js "/node_modules/" ++ b) <> None.
Proof.
  intros Hb. rewrite nodeModulesRegExp_eq. unfold matchAt.
  cbn [reTree reIgnoreCase matchRe].
  assert (T : forall cs,
            matchRe true (fold_right Seq Empty (map Lit (js "node_modules/") ++ [Star Dot; Eol]))
              (MState (S j) (js "node_modules/" ++ b) cs) (fun st => Some st) <> None).
  { intros cs. cbn. apply starLoop_dot_all; [exact Hb | lia | discriminate]. }
  cbn [rest idx].
  destruct (j =? 0).
  - cbn. cbn in T. apply T.
  - cbn. cbn in T. apply T.
Qed.

Lemma nodeModules_at_start (b : str) :
  Forall (fun c => isLineTerminator c = false) b ->
  matchAt nodeModulesRegExp 0 (js "node_modules/" ++ b) <> None.
Proof.
  intros Hb. rewrite nodeModulesRegExp_eq. unfold matchAt.
  cbn. 
  pose proof (starLoop_dot_all b Hb (length b) 13 [(1, (0, 0))]
                (fun st => match rest st with [] => Some st | _ :: _ => None end)
                (Nat.le_refl _)) as T.
  cbn [rest] in T.
  destruct (starLoop _ _ _ _); [discriminate|].
  exfalso. apply T; [discriminate | reflexivity].
Qed.

Lemma nodeModules_test (pre b : str) :
  pre = [] \/ (exists d, pre = d ++ js "/") ->
  Forall (fun c => isLineTerminator c = false) b ->
  test nodeModulesRegExp (pre ++ js "node_modules/" ++ b) = true.
Proof.
  intros Hp Hb. unfold test, exec. cbn [skipn Nat.ltb Nat.leb].
  destruct Hp as [-> | [d ->]].
  - pose proof (searchFrom_later nodeModulesRegExp [] (js "node_modules/" ++ b) 0
                  (nodeModules_at_start b Hb)) as H.
    cbn [app] in *. destruct (searchFrom _ _ _); [reflexivity | contradiction].
  - pose proof (searchFrom_later nodeModulesRegExp d (js "/node_modules/" ++ b) 0
                  (nodeModules_after_slash b _ Hb)) as H.
    rewrite <- app_assoc. change (js "/" ++ js "node_modules/" ++ b)
      with (js "/node_modules/" ++ b).
    destruct (searchFrom _ _ _); [reflexivity | contradiction].
Qed.

Lemma defaults_first (ignoreNodeModules : bool)
  (fileLines additionalPatterns : option (list str)) (dirs : option bool) :
  In (js "node_modules/**")
     (originalPatterns (createIgnoreState true ignoreNodeModules fileLines
                          additionalPatterns dirs)).
Proof.
  unfold createIgnoreState. cbn [originalPatterns].
  destruct additionalPatterns, fileLines, ignoreNodeModules;
    repeat (apply in_or_app; left); left; reflexivity.
Qed.

Lemma defaults_ignore_node_modules
  (ignoreNodeModules : bool) (fileLines additionalPatterns : option (list str))
  (dirs : option bool) (filePath pre below : str) :
  let state := createIgnoreState true ignoreNodeModules fileLines
                 additionalPatterns dirs in
  cleanPathOf filePath = pre ++ js "node_modules/" ++ below ->
  pre = [] \/ (exists d, pre = d ++ js "/") ->
  Forall (fun c => isLineTerminator c = false) below ->
  Forall (fun l => startsWith l (js "!") = false) (originalPatterns state) ->
  option_map shouldIgnore_ (shouldIgnore state filePath) = Some true.
Proof.
  intros state Hc Hp Hb Hn.
  pose proof (defaults_first ignoreNodeModules fileLines additionalPatterns dirs) as Hin.
  fold state in Hin. set (lines := originalPatterns state) in *.
  assert (E : state = MkIgnoreState (compilePatterns lines) lines dirs) by reflexivity.
  clearbody lines state. subst state.
  rewrite shouldIgnore_spec. unfold lastMatching. rewrite Hc.
  destruct (find _ (rev lines)) as [x|] eqn:F.
  - apply find_some in F as [Hx _]. apply in_rev in Hx.
    rewrite Forall_forall in Hn. unfold outcomeOf. now rewrite (Hn x Hx).
  - exfalso. apply in_rev in Hin. apply (find_none _ _ F) in Hin.
    fold nodeModulesRegExp in Hin.
    rewrite nodeModules_test in Hin; [discriminate | exact Hp | exact Hb].
Qed.

(** X16. With the default patterns and no negation line, every path
    below a [node_modules] directory is ignored, at any depth; the part of
    the path below the directory is free of line terminators, which [.] does
    not match. *)
Theorem X16_default_patterns_ignore_node_modules
  (ignoreNodeModules : bool) (fileLines additionalPatterns : option (list str))
  (dirs : option bool) (filePath pre below : str) :
  let state := createIgnoreState true ignoreNodeModules fileLines
                 additionalPatterns dirs in
  cleanPathOf filePath = pre ++ js "node_modules/" ++ below ->
  pre = [] \/ (exists d, pre = d ++ js "/") ->
  Forall (fun c => isLineTerminator c = false) below ->
  Forall (fun l => startsWith l (js "!") = false) (originalPatterns state) ->
  option_map shouldIgnore_ (shouldIgnore state filePath) = Some true.
Proof. exact (defaults_ignore_node_modules ignoreNodeModules fileLines
                additionalPatterns dirs filePath pre below). Qed.

Lemma X16_default_patterns_witness :
  option_map shouldIgnore_
    (shouldIgnore (createIgnoreState true false None None None)
       (js "src\node_modules\x\index.js"))
  = Some true.
Proof.
  apply (X16_default_patterns_ignore_node_modules false None None None
           (js "src\node_modules\x\index.js") (js "src/") (js "x/index.js")).
  - vm_compute. reflexivity.
  - right. exists (js "src"). reflexivity.
  - repeat constructor.
  - vm_compute. repeat constructor.
Defined.

Lemma endsWith_snoc (s : str) (c d : ascii) :
  endsWith (s ++ [c]) [d] = Ascii.eqb c d.
Proof.
  unfold endsWith. rewrite length_app. cbn [length].
  replace (1 <=? length s + 1) with true by (symmetry; apply Nat.leb_le; lia).
  replace (length s + 1 - 1) with (length s) by lia.
  rewrite skipn_app, Nat.sub_diag, skipn_all. cbn [skipn app str_eqb andb].
  now rewrite andb_true_r.
Qed.

Lemma dropSlash_prefix (pre t : str) :
  pre = [] \/ (exists d, pre = d ++ js "/") ->
  startsWith t (js "/") = false ->
  exists pre', dropSlash (pre ++ t) = pre' ++ t
               /\ (pre' = [] \/ exists d, pre' = d ++ js "/").
Proof.
  intros [-> | [d ->]] Ht; unfold dropSlash.
  - cbn [app]. rewrite Ht. exists []. split; [reflexivity | now left].
  - destruct d as [|c d].
    + cbn [app js list_ascii_of_string startsWith Ascii.eqb Bool.eqb andb sliceFrom skipn].
      exists []. split; [reflexivity | now left].
    + cbn [app startsWith js list_ascii_of_string].
      destruct (Ascii.eqb "/" c); cbn [andb sliceFrom skipn].
      * exists (d ++ js "/"). split; [reflexivity | right; now exists d].
      * exists ((c :: d) ++ js "/"). split; [reflexivity | right; now exists (c :: d)].
Qed.

(** X17. With the default patterns and no negation line,
    [shouldIgnoreDirectory] answers true for a [node_modules] directory at
    any depth: the separator the function appends makes the directory match
    the line [node_modules/**]. *)
Theorem X17_default_patterns_prune_node_modules_directories
  (ignoreNodeModules : bool) (fileLines additionalPatterns : option (list str))
  (dirs : option bool) (dirPath pre : str) :
  let state := createIgnoreState true ignoreNodeModules fileLines
                 additionalPatterns dirs in
  unslash dirPath = pre ++ js "node_modules" ->
  pre = [] \/ (exists d, pre = d ++ js "/") ->
  Forall (fun l => startsWith l (js "!") = false) (originalPatterns state) ->
  shouldIgnoreDirectory state dirPath = Some true.
Proof.
  intros state Hd Hp Hn. unfold shouldIgnoreDirectory. cbv zeta.
  change (Lit "\"%char) with (Lit backslash). rewrite replaceAll_backslash, Hd.
  replace (pre ++ js "node_modules") with ((pre ++ js "node_module") ++ ["s"%char])
    by now rewrite <- app_assoc.
  change (endsWith ((pre ++ js "node_module") ++ ["s"%char]) (js "/"))
    with (endsWith ((pre ++ js "node_module") ++ ["s"%char]) ["/"%char]).
  rewrite endsWith_snoc. cbn [Ascii.eqb Bool.eqb andb].
  rewrite <- !app_assoc.
  change (js "node_module" ++ ["s"%char] ++ js "/") with (js "node_modules/" ++ []).
  destruct (dropSlash_prefix pre (js "node_modules/" ++ []) Hp eq_refl)
    as (pre' & E & Hp').
  apply (defaults_ignore_node_modules ignoreNodeModules fileLines additionalPatterns
           dirs _ pre' []); [|exact Hp' | constructor | exact Hn].
  rewrite cleanPathOf_eq.
  assert (U : unslash (pre ++ js "node_modules/" ++ []) = pre ++ js "node_modules/" ++ []).
  { change (pre ++ js "node_modules/" ++ [])
      with (pre ++ js "node_modules" ++ js "/").
    rewrite app_assoc, <- Hd. unfold unslash at 1. rewrite map_app.
    fold (unslash (unslash dirPath)). now rewrite unslash_idem. }
  rewrite U. exact E.
Qed.

Lemma X17_default_patterns_prune_witness :
  shouldIgnoreDirectory (createIgnoreState true false None None None)
    (js "packages\app\node_modules")
  = Some true.
Proof.
  apply (X17_default_patterns_prune_node_modules_directories false None None None
           (js "packages\app\node_modules") (js "packages/app/")).
  - vm_compute. reflexivity.
  - right. exists (js "packages/app"). reflexivity.
  - vm_compute. repeat constructor.
Defined.

End IgnoreExtras.


(** * Further properties: the file processor *)

Section ProcessorExtras.
Import ImportParser PathResolver FileProcessor.

(** Two arrangements in descending order of the same entries are equal
    when one of them is strictly descending. *)
Lemma descending_unique {A} (key : A -> nat) (l1 l2 : list A) :
  StronglySorted (fun a b => key b <= key a) l1 ->
  StronglySorted (fun a b => key b < key a) l2 ->
  Permutation l1 l2 -> l1 = l2.
Proof.
  intros S1 S2 P.
  rewrite <- (rev_involutive l1), <- (rev_involutive l2). f_equal.
  apply (sorted_unique key).
  - exact (StronglySorted_rev (fun a b => key b <= key a) l1 S1).
  - exact (StronglySorted_rev (fun a b => key b < key a) l2 S2).
  - eapply Permutation_trans; [apply Permutation_sym, Permutation_rev|].
    eapply Permutation_trans; [exact P | apply Permutation_rev].
Qed.

Lemma sortDescending_rev (l : list ImportMatch) :
  StronglySorted (fun a b => startIndex a < startIndex b) l ->
  sortStable byStartDescending l = rev l.
Proof.
  intros S. apply (descending_unique startIndex).
  - pose proof (sortStable_sorted _ byStartDescending byStartDesc_total
                  byStartDesc_trans l) as D.
    induction D as [|x t D IH F]; constructor; [exact IH|].
    eapply Forall_impl; [|exact F]. intros y Hy. now apply Nat.leb_le.
  - exact (StronglySorted_rev _ l S).
  - eapply Permutation_trans; [apply sortStable_perm | apply Permutation_rev].
Qed.

(** The test [replacements.has(imp.importPath)] *)
Definition hasReplacement (replacements : JsMap str) (imp : ImportMatch) : bool :=
  match mapGet (importPath imp) replacements with
  | Some _ => true
  | None => false
  end.

Lemma applyReplacements_filter (replacements : JsMap str) (l : list ImportMatch) :
  forall content,
    applyReplacements replacements (filter (hasReplacement replacements) l) content
    = applyReplacements replacements l content.
Proof.
  induction l as [|m l IH]; intros content; cbn [filter applyReplacements];
    [reflexivity|].
  unfold hasReplacement at 1.
  destruct (mapGet (importPath m) replacements) as [[|c v]|] eqn:E;
    cbn [applyReplacements]; rewrite ?E; apply IH.
Qed.

Lemma findImports_strict (content : str) :
  StronglySorted (fun a b => startIndex a < startIndex b) (findImports content).
Proof.
  rewrite findImports_sortedValid.
  rewrite (uniqueMatchesOf_strict _ (sortedValid_strict content)).
  apply sortedValid_strict.
Qed.

Lemma batchReplaceImports_eq (content : str) (replacements : JsMap str) :
  batchReplaceImports content replacements
  = if length replacements =? 0 then content
    else applyReplacements replacements
           (sortStable byStartDescending (findImports content)) content.
Proof.
  unfold batchReplaceImports. cbv zeta.
  destruct (length replacements =? 0); [reflexivity|].
  fold (hasReplacement replacements).
  rewrite (sortDescending_rev _ (findImports_strict content)).
  rewrite <- (applyReplacements_filter replacements (rev (findImports content))).
  rewrite filter_rev.
  destruct (length (filter (hasReplacement replacements) (findImports content)) =? 0) eqn:Z.
  - apply Nat.eqb_eq, length_zero_iff_nil in Z. now rewrite Z.
  - rewrite sortDescending_rev; [reflexivity|].
    apply filter_sorted, findImports_strict.
Qed.

(** X18. [batchReplaceImports] with the replacements a list of
    conversions gives is [replaceImports] on the imports [findImports]
    finds: the two ways of rewriting a file give the same text. *)
Theorem X18_batchReplaceImports_agrees_with_replaceImports
  (content : str) (conversions : list ConversionResult) :
  batchReplaceImports content (conversionMapOf conversions [])
  = replaceImports content (findImports content) conversions.
Proof.
  rewrite batchReplaceImports_eq. unfold replaceImports. reflexivity.
Qed.

Lemma applyReplacements_none (replacements : JsMap str) (l : list ImportMatch) :
  (forall m, In m l -> orEmpty (mapGet (importPath m) replacements) = []) ->
  forall content, applyReplacements replacements l content = content.
Proof.
  induction l as [|m l IH]; intros H content; cbn [applyReplacements]; [reflexivity|].
  pose proof (H m (or_introl eq_refl)) as Hm.
  destruct (mapGet (importPath m) replacements) as [[|c v]|];
    [| discriminate |]; apply IH; intros x Hx; apply H; now right.
Qed.

(** X19. [replaceImports] returns the content as it is when no
    conversion with a non-empty converted path is for the path of one of the
    imports, whatever the offsets and statement texts of the imports are. *)
Theorem X19_replaceImports_changes_nothing_without_conversions
  (content : str) (imports : list ImportMatch)
  (conversions : list ConversionResult) :
  (forall m c, In m imports -> In c conversions ->
     originalImport c = importPath m -> orEmpty (convertedImport c) = []) ->
  replaceImports content imports conversions = content.
Proof.
  intros H. unfold replaceImports. cbv zeta.
  destruct (length (conversionMapOf conversions []) =? 0); [reflexivity|].
  apply applyReplacements_none. intros m Hm.
  eapply Permutation_in in Hm; [|apply sortStable_perm].
  rewrite conversionMapOf_get. cbn [mapGet].
  unfold conversionFor.
  destruct (find (convertsPath (importPath m)) (rev conversions)) as [c|] eqn:F;
    [|reflexivity].
  apply find_some in F as [Hc F]. apply in_rev in Hc.
  unfold convertsPath in F. apply andb_true_iff in F as [F1 F2].
  apply str_eqb_eq in F1. rewrite (H m c Hm Hc F1) in F2. discriminate.
Qed.

Lemma X19_replaceImports_witness :
  replaceImports (js "import a from './a'")
    [MkImportMatch (js "import a from './a'") (js "./a") 0 19 es6]
    [MkConversion (js "./a") None (Some (js "No matching path alias found"));
     MkConversion (js "./b") (Some (js "@/b")) None]
  = js "import a from './a'".
Proof.
  apply (X19_replaceImports_changes_nothing_without_conversions
           (js "import a from './a'")
           [MkImportMatch (js "import a from './a'") (js "./a") 0 19 es6]
           [MkConversion (js "./a") None (Some (js "No matching path alias found"));
            MkConversion (js "./b") (Some (js "@/b")) None]).
  intros m c [<- | []] [<- | [<- | []]] E; [reflexivity | discriminate E].
Defined.

(** ** Statistics *)

Definition hasErrors (r : ProcessingResult) : bool :=
  match errors r with Some (_ :: _) => true | _ => false end.

Lemma filter_length_le {A} (f : A -> bool) (l : list A) :
  length (filter f l) <= length l.
Proof.
  induction l as [|x l IH]; cbn [filter length]; [lia|].
  destruct (f x); cbn [length]; lia.
Qed.

Lemma fold_addResult (results : list ProcessingResult) (stats : ProcessingStats) :
  fold_left addResult results stats
  = MkStats (totalFiles stats)
      (modifiedFiles stats + length (filter modified results))
      (totalConversions stats
       + list_sum (map (fun r => length (conversions r)) results))
      (successfulConversions stats
       + list_sum (map (fun r => length (filter notNull (conversions r))) results))
      (errorFiles stats + length (filter hasErrors results)).
Proof.
  revert stats; induction results as [|r rs IH]; intros stats;
    cbn [fold_left filter map list_sum fold_right length].
  - rewrite !Nat.add_0_r. now destruct stats.
  - rewrite IH. unfold addResult.
    cbn [totalFiles modifiedFiles totalConversions successfulConversions errorFiles].
    unfold hasErrors at 2. unfold list_sum.
    destruct (modified r), (errors r) as [[|e es]|]; cbn [length]; f_equal; lia.
Qed.

(** X20. The statistics count what the results hold: the files, the
    modified files, all conversions, the conversions with a converted path
    and the files with a non-empty error list.  So the modified files and the
    files with errors are at most the files, and the successful conversions
    at most the conversions. *)
Theorem X20_getProcessingStats_counts (results : list ProcessingResult) :
  let stats := getProcessingStats results in
  stats = MkStats (length results)
            (length (filter modified results))
            (list_sum (map (fun r => length (conversions r)) results))
            (list_sum (map (fun r => length (filter notNull (conversions r))) results))
            (length (filter hasErrors results))
  /\ modifiedFiles stats <= totalFiles stats
  /\ errorFiles stats <= totalFiles stats
  /\ successfulConversions stats <= totalConversions stats.
Proof.
  cbv zeta. unfold getProcessingStats. rewrite fold_addResult.
  cbn [totalFiles modifiedFiles totalConversions successfulConversions errorFiles
       Nat.add].
  repeat split; try apply filter_length_le.
  unfold list_sum.
  induction results as [|r rs IH]; cbn [map fold_right]; [lia|].
  pose proof (filter_length_le notNull (conversions r)). lia.
Qed.

End ProcessorExtras.


(** * Further properties: the lookup built from the [paths] of a
      configuration *)

Section ConfigExtras.
Import PathResolver ConfigParser.

Variables cwd baseUrl rootDir : str.

(** The entries of [paths] filed under the key [k]. *)
Definition filedUnder (k : str) (entry : str * list str) : bool :=
  str_eqb (aliasPrefixOf (fst entry)) k.

(** The mappings of the entries filed under [k], in the order of [paths]. *)
Definition groupOf (k : str) (paths : list (str * list str)) : list PathMapping :=
  flat_map (fun e => mappingsOf cwd baseUrl rootDir (fst e) (snd e))
           (filter (filedUnder k) paths).

Lemma mapSet_keys {V} (k k0 : str) (v : V) (m : JsMap V) :
  In k0 (map fst (mapSet k v m)) -> k0 = k \/ In k0 (map fst m).
Proof.
  induction m as [|[k' v'] m IH]; cbn [mapSet map fst].
  - intros [<- | []]. now left.
  - destruct (str_eqb k' k); cbn [map fst In]; [tauto|].
    intros [H | H]; [tauto|]. apply IH in H. tauto.
Qed.

Lemma mapSet_nodup {V} (k : str) (v : V) (m : JsMap V) :
  NoDup (map fst m) -> NoDup (map fst (mapSet k v m)).
Proof.
  induction m as [|[k' v'] m IH]; cbn [mapSet map fst]; intros N.
  - repeat constructor. intros [].
  - inversion N as [|? ? Hn N']; subst.
    destruct (str_eqb k' k) eqn:E; cbn [map fst]; [now constructor|].
    constructor; [|now apply IH].
    intros H. apply mapSet_keys in H as [-> | H]; [|contradiction].
    now rewrite str_eqb_refl in E.
Qed.

Lemma mapSet_append (k : str) (l ms : list PathMapping)
  (m : JsMap (list PathMapping)) :
  mapGet k m = Some l ->
  Permutation (allMappings (mapSet k (l ++ ms) m)) (allMappings m ++ ms).
Proof.
  unfold allMappings.
  induction m as [|[k' v'] m IH]; cbn [mapGet mapSet]; [discriminate|].
  destruct (str_eqb k' k); cbn [flat_map snd].
  - intros [= ->]. rewrite <- !app_assoc. apply Permutation_app_head.
    apply Permutation_app_comm.
  - intros H. rewrite <- app_assoc. apply Permutation_app_head. now apply IH.
Qed.

Lemma mapSet_fresh (k : str) (m : JsMap (list PathMapping)) :
  mapGet k m = None -> allMappings (mapSet k [] m) = allMappings m.
Proof.
  unfold allMappings.
  induction m as [|[k' v'] m IH]; cbn [mapGet mapSet flat_map snd]; [reflexivity|].
  destruct (str_eqb k' k); [discriminate|].
  intros H. cbn [flat_map snd]. now rewrite IH.
Qed.

(** What the loop of [buildPathMappingLookup] has established after the
    entries [seen]. *)
Definition lookupOk (seen : list (str * list str))
  (lookup : JsMap (list PathMapping)) : Prop :=
  NoDup (map fst lookup)
  /\ (forall k, mapGet k lookup
                = if existsb (filedUnder k) seen then Some (groupOf k seen) else None)
  /\ Permutation (allMappings lookup)
       (flat_map (fun e => mappingsOf cwd baseUrl rootDir (fst e) (snd e)) seen).

Lemma groupOf_none (k : str) (seen : list (str * list str)) :
  existsb (filedUnder k) seen = false -> groupOf k seen = [].
Proof.
  unfold groupOf. induction seen as [|e seen IH]; cbn [existsb filter]; [reflexivity|].
  destruct (filedUnder k e); [discriminate|]. exact IH.
Qed.

Lemma addEntry_lookupOk (seen : list (str * list str))
  (lookup : JsMap (list PathMapping)) (entry : str * list str) :
  lookupOk seen lookup ->
  lookupOk (seen ++ [entry]) (addEntry cwd baseUrl rootDir lookup entry).
Proof.
  intros (N & G & P). destruct entry as [alias pathList].
  set (p := aliasPrefixOf alias).
  set (ms := mappingsOf cwd baseUrl rootDir alias pathList).
  assert (Hkey : forall k, existsb (filedUnder k) (seen ++ [(alias, pathList)])
                           = existsb (filedUnder k) seen || str_eqb p k).
  { intros k. rewrite existsb_app. cbn [existsb filedUnder fst]. now rewrite orb_false_r. }
  assert (Hgrp : forall k, groupOf k (seen ++ [(alias, pathList)])
                           = groupOf k seen ++ if str_eqb p k then ms else []).
  { intros k. unfold groupOf. rewrite filter_app, flat_map_app. f_equal.
    cbn [filter]. unfold filedUnder at 1. cbn [fst]. fold p.
    destruct (str_eqb p k); cbn [flat_map fst snd]; [apply app_nil_r | reflexivity]. }
  assert (Hperm : Permutation
                    (flat_map (fun e => mappingsOf cwd baseUrl rootDir (fst e) (snd e)) seen
                     ++ ms)
                    (flat_map (fun e => mappingsOf cwd baseUrl rootDir (fst e) (snd e))
                       (seen ++ [(alias, pathList)]))).
  { rewrite flat_map_app. cbn [flat_map fst snd]. now rewrite app_nil_r. }
  assert (Final : forall base l,
            NoDup (map fst base) -> mapGet p base = Some l ->
            l = groupOf p seen ->
            (forall k, k <> p -> mapGet k base = mapGet k lookup) ->
            allMappings base = allMappings lookup ->
            lookupOk (seen ++ [(alias, pathList)]) (mapSet p (l ++ ms) base)).
  { intros base l Nb Gb El Go Ea. split; [now apply mapSet_nodup|]. split.
    - intros k. rewrite Hkey, Hgrp.
      destruct (str_eqb p k) eqn:E.
      + apply str_eqb_eq in E. subst k. rewrite orb_true_r.
        rewrite mapGet_mapSet_same. now rewrite El.
      + apply str_eqb_neq in E. rewrite orb_false_r, app_nil_r.
        rewrite mapGet_mapSet_other by congruence.
        rewrite Go by congruence. apply G.
    - eapply Permutation_trans; [now apply mapSet_append|].
      rewrite Ea. eapply Permutation_trans; [|exact Hperm].
      now apply Permutation_app_tail. }
  unfold addEntry. fold p ms.
  pose proof (G p) as Gp.
  destruct (mapGet p lookup) as [l|] eqn:E.
  - rewrite E. apply Final; auto.
    destruct (existsb (filedUnder p) seen); congruence.
  - rewrite mapGet_mapSet_same.
    apply (Final (mapSet p [] lookup) []).
    + now apply mapSet_nodup.
    + apply mapGet_mapSet_same.
    + destruct (existsb (filedUnder p) seen) eqn:X; [discriminate|].
      now rewrite groupOf_none.
    + intros k Hk. now apply mapGet_mapSet_other.
    + now apply mapSet_fresh.
Qed.

Lemma fold_lookupOk (todo seen : list (str * list str))
  (lookup : JsMap (list PathMapping)) :
  lookupOk seen lookup ->
  lookupOk (seen ++ todo) (fold_left (addEntry cwd baseUrl rootDir) todo lookup).
Proof.
  revert seen lookup; induction todo as [|e todo IH]; intros seen lookup H;
    cbn [fold_left].
  - now rewrite app_nil_r.
  - replace (seen ++ e :: todo) with ((seen ++ [e]) ++ todo)
      by now rewrite <- app_assoc.
    apply IH. now apply addEntry_lookupOk.
Qed.

(** X21. [buildPathMappingLookup] files the mappings by the prefix of
    their alias: the keys are pairwise distinct; a key is present exactly
    when an entry of [paths] has that prefix, and it holds the mappings of
    those entries, one for each base path, in the order of [paths]; and the
    lookup holds every mapping of the configuration once. *)
Theorem X21_buildPathMappingLookup_groups_by_prefix (paths : list (str * list str)) :
  let lookup := buildPathMappingLookup cwd paths baseUrl rootDir in
  NoDup (map fst lookup)
  /\ (forall k, mapGet k lookup
                = if existsb (fun e => str_eqb (aliasPrefixOf (fst e)) k) paths
                  then Some (flat_map
                               (fun e => mappingsOf cwd baseUrl rootDir (fst e) (snd e))
                               (filter (fun e => str_eqb (aliasPrefixOf (fst e)) k) paths))
                  else None)
  /\ Permutation (allMappings lookup)
       (flat_map (fun e => mappingsOf cwd baseUrl rootDir (fst e) (snd e)) paths).
Proof.
  cbv zeta. unfold buildPathMappingLookup.
  apply (fold_lookupOk paths [] []).
  split; [constructor|]. split; [reflexivity | constructor].
Qed.

(** ** The key of an alias *)

Lemma indexOf_first (s : str) (c : ascii) (i : nat) :
  indexOf s [c] = Some i -> indexOf (firstn i s) [c] = None.
Proof.
  revert i; induction s as [|d s IH]; intros i; cbn [indexOf startsWith].
  - discriminate.
  - destruct (Ascii.eqb c d) eqn:E; cbn [andb].
    + intros [= <-]. reflexivity.
    + destruct (indexOf s [c]) as [j|]; cbn [option_map]; [|discriminate].
      intros [= <-]. cbn [firstn indexOf startsWith]. rewrite E. cbn [andb].
      now rewrite (IH j eq_refl).
Qed.

Lemma indexOf_firstn (s : str) (c : ascii) (n : nat) :
  indexOf s [c] = None -> indexOf (firstn n s) [c] = None.
Proof.
  revert n; induction s as [|d s IH]; intros n; cbn [indexOf startsWith].
  - intros _. now destruct n.
  - destruct (Ascii.eqb c d) eqn:E; cbn [andb]; [discriminate|].
    destruct (indexOf s [c]) as [j|] eqn:J; cbn [option_map]; [discriminate|].
    intros _. destruct n as [|n]; [reflexivity|].
    cbn [firstn indexOf startsWith]. rewrite E. cbn [andb].
    now rewrite (IH n eq_refl).
Qed.

Lemma firstn_startsWith (s : str) (n : nat) : startsWith s (firstn n s) = true.
Proof.
  revert n; induction s as [|d s IH]; intros [|n]; cbn [firstn startsWith];
    try reflexivity.
  now rewrite Ascii.eqb_refl, IH.
Qed.

Lemma indexOf_at (pre rest : str) (c : ascii) :
  ~ In c pre -> indexOf (pre ++ c :: rest) [c] = Some (length pre).
Proof.
  induction pre as [|d pre IH]; intros N; cbn [app indexOf startsWith length].
  - now rewrite Ascii.eqb_refl.
  - destruct (Ascii.eqb c d) eqn:E.
    + apply Ascii.eqb_eq in E. exfalso. apply N. now left.
    + cbn [andb]. rewrite IH by (intros H; apply N; now right). reflexivity.
Qed.

Lemma indexOf_absent (s : str) (c : ascii) : ~ In c s -> indexOf s [c] = None.
Proof.
  induction s as [|d s IH]; intros N; cbn [indexOf startsWith]; [reflexivity|].
  destruct (Ascii.eqb c d) eqn:E.
  - apply Ascii.eqb_eq in E. exfalso. apply N. now left.
  - cbn [andb]. rewrite IH by (intros H; apply N; now right). reflexivity.
Qed.

Lemma firstn_length_app {A} (pre rest : list A) : firstn (length pre) (pre ++ rest) = pre.
Proof.
  rewrite firstn_app, Nat.sub_diag, firstn_all. cbn [firstn]. apply app_nil_r.
Qed.

(** X22. The key an alias is filed under is the alias up to its first
    [/]; for an alias without [/] it is the alias up to its first [*]; and
    for an alias with neither it is the alias itself.  So the key is a
    prefix of the alias that holds no [/], and no [*] either when the alias
    has no [/]. *)
Theorem X22_aliasPrefixOf_is_the_first_segment (alias : str) :
  (forall pre rest,
     alias = pre ++ "/"%char :: rest -> ~ In "/"%char pre ->
     aliasPrefixOf alias = pre)
  /\ (~ In "/"%char alias ->
      forall pre rest,
        alias = pre ++ "*"%char :: rest -> ~ In "*"%char pre ->
        aliasPrefixOf alias = pre)
  /\ (~ In "/"%char alias -> ~ In "*"%char alias -> aliasPrefixOf alias = alias)
  /\ startsWith alias (aliasPrefixOf alias) = true
  /\ includes (aliasPrefixOf alias) (js "/") = false
  /\ (includes alias (js "/") = false ->
      includes (aliasPrefixOf alias) (js "*") = false)
  /\ (includes alias (js "/") = false -> includes alias (js "*") = false ->
      aliasPrefixOf alias = alias).
Proof.
  split; [|split; [|split]].
  - intros pre rest -> N. unfold aliasPrefixOf, beforeFirst, includes. cbv zeta.
    change (js "/") with ["/"%char]. rewrite (indexOf_at pre rest "/" N).
    apply firstn_length_app.
  - intros Ns pre rest -> N. unfold aliasPrefixOf, beforeFirst, includes. cbv zeta.
    change (js "/") with ["/"%char]. change (js "*") with ["*"%char].
    rewrite (indexOf_absent _ "/" Ns), (indexOf_at pre rest "*" N).
    apply firstn_length_app.
  - intros Ns Nw. unfold aliasPrefixOf, beforeFirst, includes. cbv zeta.
    change (js "/") with ["/"%char]. change (js "*") with ["*"%char].
    now rewrite (indexOf_absent _ "/" Ns), (indexOf_absent _ "*" Nw).
  - unfold aliasPrefixOf, beforeFirst, includes. cbv zeta.
    change (js "/") with ["/"%char]. change (js "*") with ["*"%char].
    destruct (indexOf alias ["/"%char]) as [i|] eqn:S.
    + split; [apply firstn_startsWith|]. split; [|split; discriminate].
      now rewrite (indexOf_first _ _ _ S).
    + destruct (indexOf alias ["*"%char]) as [j|] eqn:T.
      * split; [apply firstn_startsWith|]. split; [|split].
        -- now rewrite (indexOf_firstn _ _ j S).
        -- intros _. now rewrite (indexOf_first _ _ _ T).
        -- discriminate.
      * split; [|split; [|split]].
        -- rewrite <- (firstn_all alias) at 2. apply firstn_startsWith.
        -- now rewrite S.
        -- intros _. now rewrite T.
        -- reflexivity.
Qed.

End ConfigExtras.


(** * Further properties: the trie *)

Section TrieExtras.
Variable V : Type.

Lemma search_new (word : str) :
  Trie.search word (Trie.newTrieNode V) = Trie.MkSearchResult false None.
Proof. destruct word; reflexivity. Qed.

Lemma cons_neq (c : ascii) (a b : str) : c :: a <> c :: b -> a <> b.
Proof. intros H E. apply H. now rewrite E. Qed.

Lemma key_neq (c d : ascii) : c <> d -> [d] <> [c].
Proof. intros H E. apply H. now injection E. Qed.

(** X23. A word that has been inserted is found, with the value given
    (or, when no value is given, the value its node held before); the
    answers for all other words are as they were. *)
Theorem X23_trie_search_after_insert
  (word : str) (v : option V) (root : Trie.TrieNode V) :
  Trie.search word (Trie.insert word v root)
  = Trie.MkSearchResult true
      (match v with
       | Some x => Some x
       | None => Trie.foundValue (Trie.search word root)
       end)
  /\ forall other, other <> word ->
       Trie.search other (Trie.insert word v root) = Trie.search other root.
Proof.
  revert root; induction word as [|c word IH]; intros [kids e val].
  - split; [reflexivity|]. intros [|d other] H; [contradiction | reflexivity].
  - cbn [Trie.insert Trie.children Trie.isEndOfWord Trie.value].
    destruct (mapGet [c] kids) as [next|] eqn:G.
    + rewrite G. destruct (IH next) as [IH1 IH2]. split.
      * cbn [Trie.search Trie.children]. rewrite mapGet_mapSet_same, G. exact IH1.
      * intros [|d other] H; [reflexivity|].
        cbn [Trie.search Trie.children].
        destruct (Ascii.eqb d c) eqn:E.
        -- apply Ascii.eqb_eq in E. subst d.
           rewrite mapGet_mapSet_same, G. apply IH2. now apply cons_neq in H.
        -- apply Ascii.eqb_neq in E.
           now rewrite mapGet_mapSet_other by now apply key_neq.
    + rewrite mapGet_mapSet_same.
      destruct (IH (Trie.newTrieNode V)) as [IH1 IH2]. split.
      * cbn [Trie.search Trie.children]. rewrite mapGet_mapSet_same, G.
        rewrite IH1. now rewrite search_new.
      * intros [|d other] H; [reflexivity|].
        cbn [Trie.search Trie.children].
        destruct (Ascii.eqb d c) eqn:E.
        -- apply Ascii.eqb_eq in E. subst d.
           rewrite mapGet_mapSet_same, G.
           rewrite IH2 by now apply cons_neq in H. apply search_new.
        -- apply Ascii.eqb_neq in E.
           now rewrite !mapGet_mapSet_other by now apply key_neq.
Qed.



(** ** The words below a prefix *)


(** The tries [insert] builds: the keys of a node are single characters,
    one entry each. *)
#[local] Unset Elimination Schemes.
#[local] Set Elimination Schemes.















End TrieExtras.


(** * Further properties: the other structures of the performance module *)

Section FastMapExtras.
Variable V : Type.

(** The calls that change a [FastMap]. *)
Inductive fastMapCall : Type :=
| CallSet (key : str) (value : V)
| CallDelete (key : str)
| CallClear
| CallGetKeysArray
| CallSetMany (entries : list (str * V)).

Definition callOn (m : FastMap.FastMap V) (c : fastMapCall) : FastMap.FastMap V :=
  match c with
  | CallSet key value => FastMap.set key value m
  | CallDelete key => snd (FastMap.delete key m)
  | CallClear => FastMap.clear m
  | CallGetKeysArray => snd (FastMap.getKeysArray m)
  | CallSetMany entries => FastMap.setMany entries m
  end.

(** A cache that is marked valid holds the keys of the map. *)
Definition cacheCoherent (m : FastMap.FastMap V) : Prop :=
  FastMap.cacheValid m = true ->
  FastMap.keyCache m = map fst (FastMap.mapEntries m).

Lemma mapDelete_absent (k : str) (m : JsMap V) :
  mapGet k m = None -> mapDelete k m = m.
Proof.
  induction m as [|[k' v'] m IH]; cbn [mapGet mapDelete]; [reflexivity|].
  destruct (str_eqb k' k); [discriminate|]. intros H. now rewrite IH.
Qed.

Lemma callOn_coherent (m : FastMap.FastMap V) (c : fastMapCall) :
  cacheCoherent m -> cacheCoherent (callOn m c).
Proof.
  unfold cacheCoherent. intros H.
  destruct c as [key value | key | | | entries]; cbn [callOn];
    try (cbn; discriminate).
  - unfold FastMap.delete. cbn [snd FastMap.cacheValid FastMap.keyCache FastMap.mapEntries].
    destruct (mapGet key (FastMap.mapEntries m)) eqn:G; [discriminate|].
    rewrite (mapDelete_absent _ _ G). exact H.
  - unfold FastMap.getKeysArray.
    destruct (FastMap.cacheValid m) eqn:E; cbn [negb snd];
      [intros _; now apply H | reflexivity].
Qed.

(** X26. The key cache of a [FastMap] is never stale: after any
    sequence of [set], [delete], [clear], [getKeysArray] and [setMany] calls
    on a new map, [getKeysArray] returns the keys of the map in insertion
    order, and leaves the entries as they are. *)
Theorem X26_FastMap_getKeysArray_returns_the_current_keys (calls : list fastMapCall) :
  let m := fold_left callOn calls (FastMap.empty V) in
  fst (FastMap.getKeysArray m) = map fst (FastMap.mapEntries m)
  /\ FastMap.mapEntries (snd (FastMap.getKeysArray m)) = FastMap.mapEntries m.
Proof.
  cbv zeta.
  assert (C : cacheCoherent (fold_left callOn calls (FastMap.empty V))).
  { assert (C0 : cacheCoherent (FastMap.empty V)) by (intros H; discriminate H).
    revert C0. generalize (FastMap.empty V).
    induction calls as [|c calls IH]; intros m C0; cbn [fold_left]; [exact C0|].
    apply IH. now apply callOn_coherent. }
  unfold FastMap.getKeysArray, cacheCoherent in *.
  destruct (FastMap.cacheValid _); cbn [negb fst snd FastMap.mapEntries];
    split; auto.
Qed.

End FastMapExtras.

Section StringMatcherExtras.

Lemma matchDown_all (pattern text : str) (shift n : nat) :
  StringMatcher.matchDown pattern text shift n = None ->
  forall j, j < n -> nth_error pattern j = nth_error text (shift + j).
Proof.
  induction n as [|n IH]; cbn [StringMatcher.matchDown]; intros H j Hj; [lia|].
  destruct (nth_error pattern n) as [a|] eqn:A,
           (nth_error text (shift + n)) as [b|] eqn:B; try discriminate.
  - destruct (Ascii.eqb a b) eqn:E; [|discriminate].
    apply Ascii.eqb_eq in E. subst b.
    destruct (Nat.eq_dec j n) as [-> | N]; [congruence | apply IH; [exact H | lia]].
  - destruct (Nat.eq_dec j n) as [-> | N]; [congruence | apply IH; [exact H | lia]].
Qed.

Lemma nth_error_equal {A} (l l' : list A) :
  length l = length l' ->
  (forall j, j < length l -> nth_error l j = nth_error l' j) -> l = l'.
Proof.
  revert l'; induction l as [|x l IH]; intros [|y l'] L H; try discriminate;
    [reflexivity|].
  pose proof (H 0 (Nat.lt_0_succ _)) as H0. cbn in H0. injection H0 as ->.
  f_equal. apply IH; [now injection L|].
  intros j Hj. apply (H (S j)). cbn [length]. lia.
Qed.

Lemma matchDown_occurrence (pattern text : str) (shift : nat) :
  shift + length pattern <= length text ->
  StringMatcher.matchDown pattern text shift (length pattern) = None ->
  slice text shift (shift + length pattern) = pattern.
Proof.
  intros L H. unfold slice.
  replace (shift + length pattern - shift) with (length pattern) by lia.
  symmetry. apply nth_error_equal.
  - rewrite length_firstn, length_skipn. lia.
  - intros j Hj. rewrite nth_error_firstn.
    replace (j <? length pattern) with true by (symmetry; apply Nat.ltb_lt; lia).
    rewrite nth_error_skipn. now apply matchDown_all with (n := length pattern).
Qed.

(** What holds of the matches pushed so far when the loop is at [shift]. *)
Definition matchesOk (pattern text : str) (shift : nat) (matches : list nat) : Prop :=
  Forall (fun s => slice text s (s + length pattern) = pattern
                   /\ s + length pattern <= shift) matches
  /\ StronglySorted (fun a b => a + length pattern <= b) matches
  /\ length matches <= shift.

Lemma matchesOk_later (pattern text : str) (shift shift' : nat) (matches : list nat) :
  shift <= shift' -> matchesOk pattern text shift matches ->
  matchesOk pattern text shift' matches.
Proof.
  intros L (F & S & B). split; [|split; [exact S | lia]].
  eapply Forall_impl; [|exact F]. cbv beta. intros s [H1 H2]. split; [exact H1 | lia].
Qed.

Lemma matchesOk_push (pattern text : str) (shift : nat) (matches : list nat) :
  1 <= length pattern ->
  slice text shift (shift + length pattern) = pattern ->
  matchesOk pattern text shift matches ->
  matchesOk pattern text (shift + length pattern) (matches ++ [shift]).
Proof.
  intros Hm H (F & S & B). split; [|split].
  - apply Forall_app. split.
    + eapply Forall_impl; [|exact F]. cbv beta. intros s [H1 H2]. split; [exact H1 | lia].
    + repeat constructor. exact H.
  - apply StronglySorted_app; [exact S | repeat constructor |].
    intros a b Ha [<- | []]. rewrite Forall_forall in F. now destruct (F a Ha).
  - rewrite length_app. cbn [length]. lia.
Qed.

Lemma searchLoop_ok (pattern text : str) (table : JsMap nat) :
  pattern <> [] ->
  (N.of_nat (length text) < StringMatcher.maxArrayLength)%N ->
  forall fuel shift matches,
    1 <= fuel -> length text + 2 <= fuel + shift + length pattern ->
    matchesOk pattern text shift matches ->
    exists out,
      StringMatcher.searchLoop fuel pattern table text shift matches
      = StringMatcher.Returned out
      /\ Forall (fun s => slice text s (s + length pattern) = pattern) out
      /\ StronglySorted (fun a b => a + length pattern <= b) out.
Proof.
  intros Hp Hlen.
  assert (Hm : 1 <= length pattern) by (destruct pattern; [contradiction | cbn; lia]).
  induction fuel as [|f IH]; intros shift matches H1 H2 Ok; [lia|].
  cbn [StringMatcher.searchLoop].
  destruct (shift + length pattern <=? length text) eqn:L.
  - apply Nat.leb_le in L.
    destruct (StringMatcher.matchDown pattern text shift (length pattern)) as [j|] eqn:M.
    + cbv zeta. apply IH; [lia | lia |].
      eapply matchesOk_later; [|exact Ok]. lia.
    + assert (B : length matches <= shift) by now destruct Ok as (_ & _ & B).
      replace (N.eqb (N.of_nat (length matches)) StringMatcher.maxArrayLength)
        with false by (symmetry; apply N.eqb_neq; lia).
      apply IH; [lia | lia |].
      apply matchesOk_push; [exact Hm | now apply matchDown_occurrence | exact Ok].
  - exists matches. destruct Ok as (F & S & _). split; [reflexivity|]. split; [|exact S].
    eapply Forall_impl; [|exact F]. cbv beta. now intros s [H _].
Qed.

(** With the empty pattern every iteration pushes [shift] and leaves it
    where it is: the loop goes on until the array is full. *)
Lemma searchLoop_empty (table : JsMap nat) (text : str) (shift : nat) :
  shift <= length text ->
  forall fuel matches,
    (N.of_nat (length matches) <= StringMatcher.maxArrayLength)%N ->
    StringMatcher.searchLoop fuel [] table text shift matches
    = if (StringMatcher.maxArrayLength
          <? N.of_nat fuel + N.of_nat (length matches))%N
      then StringMatcher.RangeError
      else StringMatcher.OutOfFuel.
Proof.
  intros L. induction fuel as [|f IH]; intros matches B.
  - cbn [StringMatcher.searchLoop].
    replace (_ <? _)%N with false by (symmetry; apply N.ltb_ge; lia). reflexivity.
  - cbn [StringMatcher.searchLoop length StringMatcher.matchDown].
    rewrite Nat.add_0_r.
    replace (shift <=? length text) with true by (symmetry; now apply Nat.leb_le).
    destruct (N.eqb (N.of_nat (length matches)) StringMatcher.maxArrayLength) eqn:E.
    + apply N.eqb_eq in E.
      replace (_ <? _)%N with true by (symmetry; apply N.ltb_lt; lia). reflexivity.
    + apply N.eqb_neq in E. rewrite IH by (rewrite length_app; cbn [length]; lia).
      rewrite length_app. cbn [length].
      replace (N.of_nat f + N.of_nat (length matches + 1))%N
        with (N.of_nat (S f) + N.of_nat (length matches))%N by lia.
      reflexivity.
Qed.

(** X27. For a pattern that is not empty and a text of fewer than
    $2^{32} - 1$ code units, [search] returns (a number of iterations above
    the length of the text is enough), and every index it reports is an
    occurrence of the pattern in the text; the indices increase and the
    occurrences reported do not overlap.  For the empty pattern [search]
    returns no result: every iteration pushes index 0, and the call ends
    with the [RangeError] of [push] on a full array, in iteration $2^{32}$. *)
Theorem X27_StringMatcher_reports_occurrences (pattern text : str) (fuel : nat) :
  (pattern <> [] -> length text < fuel ->
   (N.of_nat (length text) < StringMatcher.maxArrayLength)%N ->
   exists matches,
     StringMatcher.search fuel pattern text = StringMatcher.Returned matches
     /\ Forall (fun s => slice text s (s + length pattern) = pattern) matches
     /\ StronglySorted (fun a b => a + length pattern <= b) matches)
  /\ StringMatcher.search fuel [] text
     = if (StringMatcher.maxArrayLength <? N.of_nat fuel)%N
       then StringMatcher.RangeError
       else StringMatcher.OutOfFuel.
Proof.
  split.
  - intros Hp Hf Hlen. unfold StringMatcher.search.
    assert (Hm : 1 <= length pattern) by (destruct pattern; [contradiction | cbn; lia]).
    apply searchLoop_ok; [exact Hp | exact Hlen | lia | lia |].
    split; [constructor | split; [constructor | cbn; lia]].
  - unfold StringMatcher.search.
    rewrite searchLoop_empty by (cbn; unfold StringMatcher.maxArrayLength; lia).
    cbn [length]. now rewrite N.add_0_r.
Qed.

Lemma X27_StringMatcher_witness :
  exists matches,
    StringMatcher.search 10 (js "ab") (js "xxabyabab") = StringMatcher.Returned matches
    /\ Forall (fun s => slice (js "xxabyabab") s (s + length (js "ab")) = js "ab") matches
    /\ StronglySorted (fun a b => a + length (js "ab") <= b) matches.
Proof.
  apply (proj1 (X27_StringMatcher_reports_occurrences (js "ab") (js "xxabyabab") 10)).
  - discriminate.
  - cbn. lia.
  - unfold StringMatcher.maxArrayLength. cbn. lia.
Defined.

End StringMatcherExtras.

Section BloomFilterExtras.

Lemma setBit_in_range (bits : list bool) :
  forall i j, i < length bits ->
    nth j (firstn i bits ++ true :: skipn (S i) bits) false
    = if j =? i then true else nth j bits false.
Proof.
  induction bits as [|b bits IH]; intros i j L; [cbn [length] in L; lia|].
  destruct i as [|i].
  - destruct j; reflexivity.
  - cbn [firstn skipn app]. destruct j as [|j]; [reflexivity|].
    cbn [nth]. rewrite IH by (cbn [length] in L; lia). reflexivity.
Qed.

Lemma setBit_same (i : nat) (bits : list bool) : nth i (BloomFilter.setBit i bits) false = true.
Proof.
  unfold BloomFilter.setBit. destruct (i <? length bits) eqn:L.
  - apply Nat.ltb_lt in L. rewrite setBit_in_range by exact L. now rewrite Nat.eqb_refl.
  - apply Nat.ltb_ge in L. rewrite app_nth2 by lia.
    rewrite app_nth2 by (rewrite repeat_length; lia).
    rewrite repeat_length. now replace (i - length bits - (i - length bits)) with 0 by lia.
Qed.

Lemma setBit_keeps (i j : nat) (bits : list bool) :
  nth j bits false = true -> nth j (BloomFilter.setBit i bits) false = true.
Proof.
  intros H.
  assert (Hj : j < length bits).
  { destruct (Nat.lt_ge_cases j (length bits)) as [L | L]; [exact L|].
    rewrite nth_overflow in H by exact L. discriminate. }
  unfold BloomFilter.setBit. destruct (i <? length bits) eqn:L.
  - apply Nat.ltb_lt in L. rewrite setBit_in_range by exact L.
    destruct (j =? i); [reflexivity | exact H].
  - now rewrite app_nth1 by exact Hj.
Qed.

Lemma setBits_keep (indices : list nat) (j : nat) (bits : list bool) :
  nth j bits false = true ->
  nth j (fold_left (fun b i => BloomFilter.setBit i b) indices bits) false = true.
Proof.
  revert bits; induction indices as [|i indices IH]; intros bits H; cbn [fold_left];
    [exact H|].
  apply IH. now apply setBit_keeps.
Qed.

Lemma setBits_set (indices : list nat) (j : nat) (bits : list bool) :
  In j indices ->
  nth j (fold_left (fun b i => BloomFilter.setBit i b) indices bits) false = true.
Proof.
  revert bits; induction indices as [|i indices IH]; intros bits H; cbn [fold_left];
    [contradiction|].
  destruct H as [-> | H]; [apply setBits_keep, setBit_same | now apply IH].
Qed.

Lemma add_bits (item : str) (f : BloomFilter.BloomFilter) :
  BloomFilter.bitArray (BloomFilter.add item f)
  = fold_left (fun b i => BloomFilter.setBit i b)
      (map (fun i => BloomFilter.indexFor f i item) (seq 0 (BloomFilter.hashCount f)))
      (BloomFilter.bitArray f).
Proof.
  unfold BloomFilter.add. cbn [BloomFilter.bitArray].
  generalize (BloomFilter.bitArray f).
  induction (seq 0 (BloomFilter.hashCount f)) as [|i l IH]; intros bits;
    cbn [fold_left map]; [reflexivity | apply IH].
Qed.

(** X28. The filter has no false negatives and never forgets: an item
    that has been added is reported as possibly contained, and so is every
    item that was reported so before the addition. *)
Theorem X28_BloomFilter_has_no_false_negatives
  (f : BloomFilter.BloomFilter) (item other : str) :
  0 < BloomFilter.size f ->
  BloomFilter.mightContain item (BloomFilter.add item f) = true
  /\ (BloomFilter.mightContain other f = true ->
      BloomFilter.mightContain other (BloomFilter.add item f) = true).
Proof.
  intros _. unfold BloomFilter.mightContain. rewrite !forallb_forall, add_bits.
  change (BloomFilter.hashCount (BloomFilter.add item f)) with (BloomFilter.hashCount f).
  split.
  - intros i Hi. apply setBits_set.
    apply in_map_iff. exists i. split; [reflexivity | exact Hi].
  - intros H i Hi. apply setBits_keep.
    change (BloomFilter.indexFor (BloomFilter.add item f) i other)
      with (BloomFilter.indexFor f i other).
    now apply H.
Qed.

Lemma X28_BloomFilter_witness :
  BloomFilter.mightContain (js "src/a.ts")
    (BloomFilter.add (js "src/a.ts") (BloomFilter.create 96 7)) = true
  /\ (BloomFilter.mightContain (js "src/b.ts") (BloomFilter.create 96 7) = true ->
      BloomFilter.mightContain (js "src/b.ts")
        (BloomFilter.add (js "src/a.ts") (BloomFilter.create 96 7)) = true).
Proof.
  apply (X28_BloomFilter_has_no_false_negatives (BloomFilter.create 96 7)
           (js "src/a.ts") (js "src/b.ts")).
  cbn. lia.
Defined.

End BloomFilterExtras.


(** * Further properties: [processFile] *)

Section ProcessFileExtras.
Import ImportParser PathResolver FileProcessor ProcessFile.

Variables (cwd : str) (resolverState : PathResolverState).

(** X29. [processFile] writes at most the file it is given, and only
    when it is not a dry run: either the files are as they were, or the run
    is not a dry run, the result says [modified], and the file now holds the
    text [replaceImports] makes of its old text, its imports and the
    successful conversions reported, a text that differs from the old one.
    A dry run changes no file. *)
Theorem X29_processFile_writes_only_the_rewritten_file
  (fs : FileSystem) (resolveCache : LRUCache ConversionResult) (filePath : str)
  (options : ProcessingOptions) :
  let run := processFile cwd fs resolveCache filePath resolverState options in
  let result := fst (fst run) in
  let fs' := snd (fst run) in
  (fs' = fs
   \/ (orDefault (dryRun options) false = false
       /\ modified result = true
       /\ exists file,
            mapGet filePath fs = Some file
            /\ let newText :=
                 replaceImports (fileText file) (findImports (fileText file))
                   (filter notNull (conversions result)) in
               newText <> fileText file
               /\ fs' = writeFile fs filePath newText))
  /\ (orDefault (dryRun options) false = true -> fs' = fs).
Proof.
  cbv zeta. unfold processFile. cbv zeta.
  destruct (negb (includesString _ _)); [split; [now left | reflexivity]|].
  destruct (mapGet filePath fs) as [file|] eqn:G; [|split; [now left | reflexivity]].
  destruct (N.ltb _ _); [split; [now left | reflexivity]|].
  destruct (readError file); [split; [now left | reflexivity]|].
  destruct (length (findImports (fileText file)) =? 0);
    [split; [now left | reflexivity]|].
  destruct (resolveAll cwd resolveCache resolverState filePath
              (findImports (fileText file))) as [convs cache'].
  destruct (length (filter notNull convs) =? 0);
    [split; [now left | reflexivity]|].
  destruct (orDefault (dryRun options) false) eqn:D; cbn [negb andb].
  - destruct (negb (str_eqb _ _)); split; try (now left); reflexivity.
  - destruct (str_eqb _ (fileText file)) eqn:E; cbn [negb fst snd];
      [split; [now left | discriminate]|].
    destruct (writeError file); cbn [fst snd]; [split; [now left | discriminate]|].
    split; [|discriminate]. right. split; [reflexivity|]. split; [reflexivity|].
    exists file. split; [reflexivity|]. cbv zeta. cbn [conversions fst snd].
    split; [now apply str_eqb_neq | reflexivity].
Qed.

(** X30. A dry run reports what a run would do, unless the write is
    refused.  The cache after the call is the same with and without
    [dryRun]; the result is the same when writing the file is not refused;
    and when it is refused and the dry run reports the file as modified, the
    run reports no conversion, [modified] false and the error of the
    write. *)
Theorem X30_processFile_dry_run_reports_the_same_result
  (fs : FileSystem) (resolveCache : LRUCache ConversionResult) (filePath : str)
  (dry dry' verbose : option bool) (extensions : option (list str))
  (maxFileSize : option N) :
  let run := processFile cwd fs resolveCache filePath resolverState
               (MkProcessingOptions dry verbose extensions maxFileSize) in
  let run' := processFile cwd fs resolveCache filePath resolverState
                (MkProcessingOptions dry' verbose extensions maxFileSize) in
  snd run = snd run'
  /\ ((forall file, mapGet filePath fs = Some file -> writeError file = None) ->
      fst (fst run) = fst (fst run'))
  /\ (forall file message,
        mapGet filePath fs = Some file -> writeError file = Some message ->
        orDefault dry false = false -> orDefault dry' false = true ->
        modified (fst (fst run')) = true ->
        fst (fst run)
        = MkProcessingResult filePath [] false
            (Some [js "Error processing file: " ++ message])).
Proof.
  cbv zeta. unfold processFile. cbv zeta.
  cbn [dryRun ProcessFile.extensions ProcessFile.maxFileSize].
  destruct (negb (includesString _ _));
    [split; [reflexivity | split; [reflexivity | intros; discriminate]]|].
  destruct (mapGet filePath fs) as [file|];
    [|split; [reflexivity | split; [reflexivity | intros; discriminate]]].
  destruct (N.ltb _ _);
    [split; [reflexivity | split; [reflexivity | intros; discriminate]]|].
  destruct (readError file);
    [split; [reflexivity | split; [reflexivity | intros; discriminate]]|].
  destruct (length (findImports (fileText file)) =? 0);
    [split; [reflexivity | split; [reflexivity | intros; discriminate]]|].
  destruct (resolveAll cwd resolveCache resolverState filePath
              (findImports (fileText file))) as [convs cache'].
  destruct (length (filter notNull convs) =? 0);
    [split; [reflexivity | split; [reflexivity | intros; discriminate]]|].
  split; [|split].
  - destruct (orDefault dry false), (orDefault dry' false),
             (negb (str_eqb _ (fileText file))), (writeError file); reflexivity.
  - intros W. rewrite (W file eq_refl).
    destruct (orDefault dry false), (orDefault dry' false),
             (negb (str_eqb _ (fileText file))); reflexivity.
  - intros f message [= <-] W -> -> M. rewrite W. cbn [negb andb] in *.
    destruct (negb (str_eqb _ (fileText file))); [reflexivity | discriminate M].
Qed.

End ProcessFileExtras.

Section ProcessFileExamples.
Import ImportParser PathResolver FileProcessor ProcessFile.

Lemma X30_processFile_dry_run_witness :
  let fs := [(js "/p/src/a.ts",
              MkFile 19 (js "import b from './b'") None (Some (js "EACCES")))] in
  fst (fst (processFile (js "/") fs resolveCache0 (js "/p/src/a.ts") oneAlias
              (MkProcessingOptions None None None None)))
  = MkProcessingResult (js "/p/src/a.ts") [] false
      (Some [js "Error processing file: " ++ js "EACCES"]).
Proof.
  cbv zeta.
  apply (proj2 (proj2 (X30_processFile_dry_run_reports_the_same_result
                         (js "/") oneAlias
                         [(js "/p/src/a.ts",
                           MkFile 19 (js "import b from './b'") None
                             (Some (js "EACCES")))]
                         resolveCache0 (js "/p/src/a.ts") None (Some true) None None
                         None))
           (MkFile 19 (js "import b from './b'") None (Some (js "EACCES")))
           (js "EACCES"));
    vm_compute; reflexivity.
Defined.

End ProcessFileExamples.

